(** * A shallow embedding of [mem::Malloc<N>] (include/malloc/malloc.hpp)

    The allocator manages one [mmap]ed region and keeps its free list inside
    the free bytes themselves.  The embedding follows the C++ source
    statement by statement over a byte-addressed memory:

    - [std::size_t], [std::uintptr_t] and pointers are integers modulo
      [2^64] (LP64, as on the Linux targets the source is written for);
    - memory is a partial map from addresses to bytes, little endian;
      touching an unmapped byte is a segmentation fault;
    - a C++ member function is a function from the state before the call
      to an [outcome]: a normal return, a thrown exception, a fault, or
      exhausted fuel inside one of the [while] loops. *)

From Stdlib Require Import ZArith List Lia Bool String Permutation.
Import ListNotations.
Local Open Scope Z_scope.

(** ** Machine integers *)

Definition wrap (x : Z) : Z := x mod 2 ^ 64.

(** Pointer plus byte offset, in [uintptr_t] arithmetic. *)
Definition padd (p n : Z) : Z := wrap (p + n).

(** [sizeof(MemBlock)]: a [size_t] and a pointer. *)
Definition sizeof_MemBlock : Z := 16.
(** [sizeof(MemBlockHeader)]: an [int], four bytes of padding, a [size_t]. *)
Definition sizeof_MemBlockHeader : Z := 16.
(** Field offsets of the two records. *)
Definition off_size : Z := 0.
Definition off_next : Z := 8.
Definition off_magic : Z := 0.
Definition off_hsize : Z := 8.

(** [kMemMagicNum = 0xDEADBEEF], as the 32-bit pattern the [int] field holds. *)
Definition kMemMagicNum : Z := 3735928559.

(** ** Byte-addressed memory *)

Definition mem : Type := Z -> option Z.

Definition upd (m : mem) (a b : Z) : mem :=
  fun x => if x =? a then Some b else m x.

(** Little-endian load of [n] bytes starting at [a]. *)
Fixpoint loadN (n : nat) (m : mem) (a : Z) : option Z :=
  match n with
  | O => Some 0
  | S k =>
      match m a, loadN k m (a + 1) with
      | Some b, Some r => Some (b + 256 * r)
      | _, _ => None
      end
  end.

(** Little-endian store of the low [n] bytes of [v] starting at [a]. *)
Fixpoint storeN (n : nat) (m : mem) (a v : Z) : option mem :=
  match n with
  | O => Some m
  | S k =>
      match m a with
      | Some _ => storeN k (upd m a (v mod 256)) (a + 1) (v / 256)
      | None => None
      end
  end.

Definition load8 := loadN 1.
Definition load32 := loadN 4.
Definition load64 := loadN 8.
Definition store8 := storeN 1.
Definition store32 := storeN 4.
Definition store64 := storeN 8.

(** Every mapped cell holds a byte. *)
Definition byte_ok (m : mem) : Prop :=
  forall a b, m a = Some b -> 0 <= b < 256.

(** [n] bytes from [a] are mapped. *)
Definition mapped (m : mem) (a n : Z) : Prop :=
  forall i, 0 <= i < n -> m (a + i) <> None.

(** ** Outcomes of a call *)

Inductive exn : Type :=
| invalid_argument (what : string)
| runtime_error (what : string).

(** [Thrown] carries the state at the [throw]; [Segfault] ends the
    process; [OutOfFuel] is the embedding running out of loop fuel. *)
Inductive outcome (S A : Type) : Type :=
| Returned (a : A) (s : S)
| Thrown (e : exn) (s : S)
| Segfault
| OutOfFuel.
Arguments Returned {S A} a s.
Arguments Thrown {S A} e s.
Arguments Segfault {S A}.
Arguments OutOfFuel {S A}.

(** ** The allocator object and the process memory *)

Record Malloc : Type := mkMalloc {
  region_size_ : Z;
  mmap_start_ : Z;
  head_ : Z
}.

Record state : Type := mkState {
  this : Malloc;
  heap : mem
}.

Definition set_head (st : state) (h : Z) : state :=
  mkState (mkMalloc (region_size_ (this st)) (mmap_start_ (this st)) h) (heap st).

Definition set_heap (st : state) (m : mem) : state :=
  mkState (this st) m.

Definition RegionSize (st : state) : Z := region_size_ (this st).

(** [bool IsPowerOfTwo(std::size_t n) { return n && (!(n & (n - 1))); }] *)
Definition IsPowerOfTwo (n : Z) : bool :=
  negb (n =? 0) && (Z.land n (wrap (n - 1)) =? 0).

(** ** [std::align] (the C++ standard library, as libstdc++ implements it)

    Returns the new pointer ([0] for [nullptr]) and the new [space]:
    when the aligned object does not fit, neither argument changes and the
    call returns [nullptr]. *)
Definition std_align (alignment size ptr space : Z) : Z * Z * Z :=
  if space <? size then (0, ptr, space)
  else
    let aligned := Z.land (wrap (ptr - 1 + alignment)) (wrap (- alignment)) in
    let diff := wrap (aligned - ptr) in
    if diff >? wrap (space - size) then (0, ptr, space)
    else (aligned, aligned, wrap (space - diff)).

(** ** Sequencing *)

Definition obind {S A B : Type} (o : outcome S A) (k : A -> S -> outcome S B)
  : outcome S B :=
  match o with
  | Returned a s => k a s
  | Thrown e s => Thrown e s
  | Segfault => Segfault
  | OutOfFuel => OutOfFuel
  end.

(** A memory access that faults when the bytes are not mapped. *)
Notation "'access' x <- e ; k" :=
  (match e with Some x => k | None => Segfault end)
  (at level 10, x pattern, e at level 100, k at level 200).

Notation "'access_opt' x <- e ; k" :=
  (match e with Some x => k | None => None end)
  (at level 10, x pattern, e at level 100, k at level 200).

(** [prev->next = v], where [prev] is either [&dummy] (a local of the
    caller, [None]) or a node in memory.  The result is the memory and the
    value of [dummy.next] afterwards. *)
Definition set_prev_next (m : mem) (dummy_next : Z) (prev : option Z) (v : Z)
  : option (mem * Z) :=
  match prev with
  | None => Some (m, v)
  | Some p =>
      match store64 m (padd p off_next) v with
      | Some m' => Some (m', dummy_next)
      | None => None
      end
  end.

(** ** [Malloc<N>::InsertFreeMemBlock] *)

(** The [while (curr)] loop together with the [if (!inserted)] that follows
    it; returns [dummy.next]. *)
Fixpoint insert_loop (fuel : nat) (m : mem) (block block_end_addr : Z)
    (dummy_next : Z) (prev : option Z) (curr : Z) : outcome mem Z :=
  match fuel with
  | O => OutOfFuel
  | S fuel' =>
      if curr =? 0 then
        (* insert at the tail of the free list *)
        access (m1, d1) <- set_prev_next m dummy_next prev block;
        access m2 <- store64 m1 (padd block off_next) 0;
        Returned d1 m2
      else if block_end_addr <=? curr then
        access m1 <- store64 m (padd block off_next) curr;
        access (m2, d2) <- set_prev_next m1 dummy_next prev block;
        Returned d2 m2
      else
        access nxt <- load64 m (padd curr off_next);
        insert_loop fuel' m block block_end_addr dummy_next (Some curr) nxt
  end.

Definition InsertFreeMemBlock (fuel : nat) (block : Z) (st : state)
  : outcome state unit :=
  access sz <- load64 (heap st) (padd block off_size);
  let block_end_addr := wrap (block + sz) in
  match insert_loop fuel (heap st) block block_end_addr
          (head_ (this st)) None (head_ (this st)) with
  | Returned d m => Returned tt (set_head (set_heap st m) d)
  | Thrown e _ => Thrown e st
  | Segfault => Segfault
  | OutOfFuel => OutOfFuel
  end.

(** ** [Malloc<N>::MergeFreeBlocks] *)

Fixpoint merge_loop (fuel : nat) (m : mem) (curr : Z) : outcome mem unit :=
  match fuel with
  | O => OutOfFuel
  | S fuel' =>
      access nxt <- load64 m (padd curr off_next);
      if nxt =? 0 then Returned tt m
      else
        access sz <- load64 m (padd curr off_size);
        let adj_addr := wrap (curr + sz) in
        if adj_addr =? nxt then
          (* current and next block are adjacent *)
          let old_next := nxt in
          access nn <- load64 m (padd nxt off_next);
          access m1 <- store64 m (padd curr off_next) nn;
          access sz1 <- load64 m1 (padd curr off_size);
          access osz <- load64 m1 (padd old_next off_size);
          access m2 <- store64 m1 (padd curr off_size) (wrap (sz1 + osz));
          merge_loop fuel' m2 curr
        else merge_loop fuel' m nxt
  end.

Definition MergeFreeBlocks (fuel : nat) (st : state) : outcome state unit :=
  if head_ (this st) =? 0 then Returned tt st
  else
    match merge_loop fuel (heap st) (head_ (this st)) with
    | Returned _ m => Returned tt (set_heap st m)
    | Thrown e _ => Thrown e st
    | Segfault => Segfault
    | OutOfFuel => OutOfFuel
    end.

(** ** [Malloc<N>::Alloc] *)

(** The first-fit search; returns [prev] and [curr] at loop exit. *)
Fixpoint find_fit (fuel : nat) (m : mem) (req_space : Z)
    (prev : option Z) (curr : Z) : outcome mem (option Z * Z) :=
  match fuel with
  | O => OutOfFuel
  | S fuel' =>
      if curr =? 0 then Returned (prev, 0) m
      else
        access sz <- load64 m (padd curr off_size);
        if sz >=? req_space then Returned (prev, curr) m
        else
          access nxt <- load64 m (padd curr off_next);
          find_fit fuel' m req_space (Some curr) nxt
  end.

Definition req_space_of (size alignment : Z) : Z :=
  wrap (size + sizeof_MemBlock + alignment + 1).

(** "Split off the user's memory chunk from the free list node": the
    memory and [dummy.next] afterwards. *)
Definition unlink_node (m : mem) (req_space : Z) (dummy_next : Z)
    (prev : option Z) (curr : Z) : option (mem * Z) :=
  access_opt csz <- load64 m (padd curr off_size);
  if req_space <? csz then
    (* current free node is being split *)
    let split_node := padd curr req_space in
    access_opt m1 <- store64 m (padd split_node off_size) (wrap (csz - req_space));
    access_opt cn <- load64 m1 (padd curr off_next);
    access_opt m2 <- store64 m1 (padd split_node off_next) cn;
    set_prev_next m2 dummy_next prev split_node
  else
    (* current free node is being entirely consumed *)
    access_opt cn <- load64 m (padd curr off_next);
    set_prev_next m dummy_next prev cn.

(** "Configure the block header", align the user pointer and save the
    alignment count: the memory afterwards and the pointer returned. *)
Definition lay_out_block (m : mem) (req_space alignment : Z) (curr : Z)
  : option (mem * Z) :=
  let header := curr in
  access_opt m4 <- store64 m (padd header off_hsize)
                     (wrap (req_space - sizeof_MemBlockHeader));
  access_opt m5 <- store32 m4 (padd header off_magic) kMemMagicNum;
  let user_ptr := padd (padd header sizeof_MemBlockHeader) 1 in
  access_opt hsz <- load64 m5 (padd header off_hsize);
  let total_space := wrap (hsz - 1) in
  let total_space_copy := wrap (hsz - 1) in
  let '(ret, _, total_space') :=
    std_align alignment (wrap (total_space - alignment)) user_ptr total_space in
  let alignment_byte_cnt_addr := padd ret (-1) in
  access_opt m6 <- store8 m5 alignment_byte_cnt_addr
                     (wrap (total_space_copy - total_space'));
  Some (m6, ret).

(** Everything after the search, for a non-null [curr]. *)
Definition carve (m : mem) (req_space alignment : Z) (dummy_next : Z)
    (prev : option Z) (curr : Z) : option (mem * Z * Z) :=
  access_opt (m3, new_head) <- unlink_node m req_space dummy_next prev curr;
  access_opt (m6, ret) <- lay_out_block m3 req_space alignment curr;
  Some (m6, new_head, ret).

Definition Alloc (fuel : nat) (size alignment : Z) (st : state)
  : outcome state Z :=
  if size <=? 0 then
    Thrown (invalid_argument "size must be a positive integer") st
  else if (alignment =? 0) || negb (IsPowerOfTwo alignment) then
    Thrown (invalid_argument "alignment must be a power of 2") st
  else
    let req_space := req_space_of size alignment in
    match find_fit fuel (heap st) req_space None (head_ (this st)) with
    | Returned (prev, curr) _ =>
        if curr =? 0 then Returned 0 st
        else
          match carve (heap st) req_space alignment (head_ (this st)) prev curr with
          | Some (m', new_head, ret) =>
              Returned ret (set_head (set_heap st m') new_head)
          | None => Segfault
          end
    | Thrown e _ => Thrown e st
    | Segfault => Segfault
    | OutOfFuel => OutOfFuel
    end.

(** ** [Malloc<N>::Free] *)

Definition Free (fuel : nat) (block : Z) (st : state) : outcome state unit :=
  if block =? 0 then Thrown (runtime_error "cannot free NULL mem block") st
  else
    let alignment_byte_cnt_addr := padd block (-1) in
    access alignment_byte_cnt <- load8 (heap st) alignment_byte_cnt_addr;
    let header :=
      wrap (block - sizeof_MemBlockHeader - alignment_byte_cnt - 1) in
    access magic <- load32 (heap st) (padd header off_magic);
    if negb (magic =? kMemMagicNum) then
      Thrown (runtime_error "invalid mem block magic number") st
    else
      let insert_block := header in
      access hsz <- load64 (heap st) (padd header off_hsize);
      access m1 <- store64 (heap st) (padd insert_block off_size)
                     (wrap (hsz + sizeof_MemBlockHeader));
      access m2 <- store64 m1 (padd insert_block off_next) 0;
      obind (InsertFreeMemBlock fuel insert_block (set_heap st m2))
            (fun _ st' => MergeFreeBlocks fuel st').

(** ** The operating system: [getpagesize], [mmap], [munmap]

    The kernel's side of the three system calls the class uses, as their
    manual pages specify them.  What the kernel decides on its own (whether
    it grants a mapping, and where) is the argument [os_choice]. *)

(** [MAP_FAILED] is [(void * ) -1]. *)
Definition MAP_FAILED : Z := 2 ^ 64 - 1.
Definition ENOMEM : Z := 12.
Definition EINVAL : Z := 22.

(** User-space addresses end here (x86-64 Linux). *)
Definition TASK_SIZE : Z := 2 ^ 47.

Definition strerror (errnum : Z) : string :=
  if errnum =? ENOMEM then "Cannot allocate memory"
  else if errnum =? EINVAL then "Invalid argument"
  else "Unknown error".

Definition in_range (base len x : Z) : bool :=
  (base <=? x) && (x <? base + len).

Definition mapped_zero (m : mem) (base len : Z) : mem :=
  fun x => if in_range base len x then Some 0 else m x.

(** [mmap(nullptr, len, PROT_READ | PROT_WRITE, MAP_ANON | MAP_PRIVATE, -1, 0)]:
    fails with [EINVAL] for a zero length and with [ENOMEM] when the kernel
    has no room; otherwise maps [len] zero-filled bytes at a page-aligned,
    non-null user-space address of the kernel's choosing.  Returns the
    pointer, [errno] and the memory. *)
Definition mmap_anon (page : Z) (os_choice : option Z) (len : Z) (errno : Z)
    (m : mem) : Z * Z * mem :=
  if len =? 0 then (MAP_FAILED, EINVAL, m)
  else
    match os_choice with
    | None => (MAP_FAILED, ENOMEM, m)
    | Some base =>
        if (0 <? base) && (base mod page =? 0) && (base + len <=? TASK_SIZE)
        then (base, errno, mapped_zero m base len)
        else (MAP_FAILED, ENOMEM, m)
    end.

(** [munmap(addr, len)]: [EINVAL] for a misaligned address or a zero
    length; otherwise the pages of the range are unmapped.  Returns the
    result and the memory. *)
Definition munmap (page : Z) (addr len : Z) (m : mem) : Z * mem :=
  if (len =? 0) || negb (addr mod page =? 0) then (-1, m)
  else (0, fun x => if in_range addr len x then None else m x).

(** ** Construction, destruction, moves *)

(** The rounding of [region_size_] at the top of the constructor;
    [kPageSize] is an [int] converted to [std::size_t]. *)
Definition round_region_size (N kPageSize : Z) : Z :=
  if negb (N mod kPageSize =? 0)
  then wrap ((N / kPageSize) * kPageSize + kPageSize)
  else N.

(** [Malloc<N>::Malloc()].  The state is the process memory together with
    [errno]; the object exists only when the constructor returns. *)
Definition Malloc_ctor (N kPageSize : Z) (os_choice : option Z) (errno : Z)
    (m : mem) : outcome mem Malloc :=
  let region_size := round_region_size N kPageSize in
  let '(head, errno1, m1) := mmap_anon kPageSize os_choice region_size errno m in
  if head =? 0 then Thrown (runtime_error (strerror errno1)) m1
  else
    let mmap_start := head in
    access m2 <- store64 m1 (padd head off_size)
                   (wrap (region_size - sizeof_MemBlock));
    access m3 <- store64 m2 (padd head off_next) 0;
    Returned (mkMalloc region_size mmap_start head) m3.

(** [Malloc<N>::~Malloc()]; a failing [munmap] is only reported with
    [perror]. *)
Definition Malloc_dtor (kPageSize : Z) (obj : Malloc) (m : mem) : mem :=
  if negb (mmap_start_ obj =? 0)
  then snd (munmap kPageSize (mmap_start_ obj) (region_size_ obj) m)
  else m.

(** The moved-from object. *)
Definition moved_from : Malloc := mkMalloc 0 0 0.

(** [Malloc<N>::Malloc(Malloc&& rhs)]: the new object and [rhs] afterwards. *)
Definition Malloc_move_ctor (rhs : Malloc) : Malloc * Malloc :=
  (mkMalloc (region_size_ rhs) (mmap_start_ rhs) (head_ rhs), moved_from).




(** ** Vocabulary of the specification *)

Definition power_of_two (n : Z) : Prop := exists k, 0 <= k /\ n = 2 ^ k.

(** [r] is the smallest multiple of [P] that is at least [N]. *)
Definition least_multiple_geq (P N r : Z) : Prop :=
  (P | r) /\ N <= r /\ forall r', (P | r') -> N <= r' -> r <= r'.

(** Only user-space addresses are ever mapped in a process. *)
Definition user_mem (m : mem) : Prop :=
  forall a, m a <> None -> 0 <= a < TASK_SIZE.

(** ** A concrete process, used to exercise the definitions *)

Definition empty_mem : mem := fun _ => None.
Definition example_base : Z := 139637976727552. (* 0x7f0000000000 *)

(** [mem::Malloc<4096> allocator;] with 4096-byte pages in an empty
    address space. *)
Definition example_alloc : outcome mem Malloc :=
  Malloc_ctor 4096 4096 (Some example_base) 0 empty_mem.

Definition example_state : state :=
  match example_alloc with
  | Returned obj m => mkState obj m
  | _ => mkState moved_from empty_mem
  end.

(** ** A process with several allocator objects *)






(** The two memories have the same mapped addresses. *)
Definition same_dom (m m' : mem) : Prop :=
  forall x, m' x = None <-> m x = None.


(** What a call may change of the object and of the mapping: nothing but
    [head_] and the contents of mapped bytes. *)
Definition keeps_region (st st' : state) : Prop :=
  region_size_ (this st') = region_size_ (this st) /\
  mmap_start_ (this st') = mmap_start_ (this st) /\
  same_dom (heap st) (heap st').



(** ** The free list as it lies in memory *)

(** A [MemBlock] at [a] with [size == s] and [next == n]. *)
Definition node (m : mem) (a s n : Z) : Prop :=
  0 < a /\ a + sizeof_MemBlock <= 2 ^ 64 /\
  load64 m (a + off_size) = Some s /\ load64 m (a + off_next) = Some n.

(** The chain of nodes [l] (address and size of each) leads from the
    pointer [h] to the pointer [t]. *)
Fixpoint lseg (m : mem) (h : Z) (l : list (Z * Z)) (t : Z) : Prop :=
  match l with
  | [] => h = t
  | (a, s) :: l' => h = a /\ exists n, node m a s n /\ lseg m n l' t
  end.

(** The free list headed by [h] is [l], null-terminated. *)
Definition flist (m : mem) (h : Z) (l : list (Z * Z)) : Prop := lseg m h l 0.

(** ** The list operations the three loops compute *)

(** The first-fit search: [prev] ([None] for [&dummy]) and [curr] at exit. *)
Fixpoint first_fit (req_space : Z) (prev : option Z) (l : list (Z * Z))
  : option Z * Z :=
  match l with
  | [] => (prev, 0)
  | (a, s) :: l' =>
      if s >=? req_space then (prev, a) else first_fit req_space (Some a) l'
  end.

(** The free list after [Alloc] took [req_space] bytes from the first node
    that has them. *)
Fixpoint take_first_fit (req_space : Z) (l : list (Z * Z)) : list (Z * Z) :=
  match l with
  | [] => []
  | (a, s) :: l' =>
      if s >=? req_space then
        if req_space <? s then (a + req_space, s - req_space) :: l' else l'
      else (a, s) :: take_first_fit req_space l'
  end.

(** The node [Alloc] takes, if any. *)
Fixpoint fitting_node (req_space : Z) (l : list (Z * Z)) : option (Z * Z) :=
  match l with
  | [] => None
  | (a, s) :: l' =>
      if s >=? req_space then Some (a, s) else fitting_node req_space l'
  end.

(** [InsertFreeMemBlock]: before the first node that starts at or after the
    end of the block, else at the tail. *)
Fixpoint insert_block (b : Z * Z) (l : list (Z * Z)) : list (Z * Z) :=
  match l with
  | [] => [b]
  | (a, s) :: l' =>
      if fst b + snd b <=? a then b :: (a, s) :: l'
      else (a, s) :: insert_block b l'
  end.

(** [MergeFreeBlocks] with [c] as the current node and [l] after it. *)
Fixpoint coalesce_from (c : Z * Z) (l : list (Z * Z)) : list (Z * Z) :=
  match l with
  | [] => [c]
  | (a, s) :: l' =>
      if fst c + snd c =? a then coalesce_from (fst c, snd c + s) l'
      else c :: coalesce_from (a, s) l'
  end.

Definition coalesce (l : list (Z * Z)) : list (Z * Z) :=
  match l with
  | [] => []
  | c :: l' => coalesce_from c l'
  end.

(** ** Properties of a free list *)

(** Strictly ascending by address, and no node ends where the next starts. *)
Fixpoint ascending_apart (l : list (Z * Z)) : Prop :=
  match l with
  | [] => True
  | (a, s) :: l' =>
      match l' with
      | [] => True
      | (a', _) :: _ => a < a' /\ a + s <> a'
      end /\ ascending_apart l'
  end.

(** ** Footprints *)

Definition within (a n x : Z) : Prop := a <= x < a + n.

(** From [m] to [m'] the mapping is the same, bytes stay bytes, and
    only addresses in [W] may hold something else. *)
Definition changes_only (W : Z -> Prop) (m m' : mem) : Prop :=
  same_dom m m' /\ (byte_ok m -> byte_ok m') /\
  forall x, ~ W x -> m' x = m x.

(** ** The layout of the region

    Ghost state: the blocks that tile the managed part of the region, in
    address order.  A free block is a node of the free list; a used block
    was handed out by [Alloc] as the pointer [p] and not yet freed. *)

Inductive block : Type :=
| FreeB (a s : Z)
| UsedB (a s p : Z).

Definition blk_addr (b : block) : Z :=
  match b with FreeB a _ => a | UsedB a _ _ => a end.

Definition blk_size (b : block) : Z :=
  match b with FreeB _ s => s | UsedB _ s _ => s end.

(** The free blocks, in order: the free list. *)
Fixpoint frees (L : list block) : list (Z * Z) :=
  match L with
  | [] => []
  | FreeB a s :: L' => (a, s) :: frees L'
  | UsedB _ _ _ :: L' => frees L'
  end.

(** The pointers handed out and not yet freed. *)
Fixpoint live (L : list block) : list Z :=
  match L with
  | [] => []
  | FreeB _ _ :: L' => live L'
  | UsedB _ _ p :: L' => p :: live L'
  end.

(** The blocks cover [[a, e)] without gap or overlap. *)
Fixpoint tiles (L : list block) (a e : Z) : Prop :=
  match L with
  | [] => a = e
  | b :: L' => blk_addr b = a /\ 0 < blk_size b /\ tiles L' (a + blk_size b) e
  end.

Fixpoint no_adjacent_free (L : list block) : Prop :=
  match L with
  | FreeB _ _ :: ((FreeB _ _ :: _) as L') => False
  | _ :: L' => no_adjacent_free L'
  | [] => True
  end.

(** A free block too small for its own record is the last block. *)
Fixpoint short_only_last (L : list block) : Prop :=
  match L with
  | [] => True
  | FreeB _ s :: L' => (sizeof_MemBlock <= s \/ L' = []) /\ short_only_last L'
  | UsedB _ _ _ :: L' => short_only_last L'
  end.

(** What memory holds for a used block: the alignment count, as far as a
    byte holds it, in the byte before the pointer, and a header that, if
    its magic number is in place, records the size. *)
Definition used_ok (m : mem) (a s p : Z) : Prop :=
  19 <= s /\ a + 17 <= p < a + s /\
  load8 m (p - 1) = Some ((p - a - 17) mod 256) /\
  exists magic, load32 m a = Some magic /\
    (magic = kMemMagicNum -> load64 m (a + 8) = Some (s - 16)).

(** The header of a used block is as [Alloc] wrote it. *)
Definition header_intact (m : mem) (a s : Z) : Prop :=
  load32 m a = Some kMemMagicNum /\ load64 m (a + 8) = Some (s - 16).

(** No pointer into the region spells the magic number in the four bytes
    that a node overhanging a header would put over its magic field. *)
Definition magic_free (n : Z) : Prop :=
  n mod 2 ^ 32 <> kMemMagicNum /\ (n / 256) mod 2 ^ 32 <> kMemMagicNum.

Definition placement_ok (base len : Z) : Prop :=
  forall n, base <= n < base + len -> magic_free n.

(** The invariant that ties an allocator to a layout.  The last
    [sizeof(MemBlock)] bytes of the region are never handed out. *)
Record Inv (st : state) (L : list block) : Prop := mkInv {
  inv_base : 0 < mmap_start_ (this st);
  inv_top : mmap_start_ (this st) + region_size_ (this st) <= TASK_SIZE;
  inv_mapped : mapped (heap st) (mmap_start_ (this st)) (region_size_ (this st));
  inv_bytes : byte_ok (heap st);
  inv_tiles : tiles L (mmap_start_ (this st))
                (mmap_start_ (this st) + region_size_ (this st) - sizeof_MemBlock);
  inv_apart : no_adjacent_free L;
  inv_flist : flist (heap st) (head_ (this st)) (frees L);
  inv_used : forall a s p, In (UsedB a s p) L -> used_ok (heap st) a s p
}.

(** ** The layout after an operation *)

(** [Alloc] turning the first free block of at least [req] bytes into a
    used block for the pointer [p]. *)
Fixpoint alloc_layout (req p : Z) (L : list block) : list block :=
  match L with
  | [] => []
  | FreeB a s :: L' =>
      if s >=? req then
        UsedB a req p :: (if req <? s then FreeB (a + req) (s - req) :: L' else L')
      else FreeB a s :: alloc_layout req p L'
  | UsedB a s q :: L' => UsedB a s q :: alloc_layout req p L'
  end.

(** The block of [p] becomes free. *)
Fixpoint mark_free (p : Z) (L : list block) : list block :=
  match L with
  | [] => []
  | UsedB a s q :: L' =>
      if q =? p then FreeB a s :: L' else UsedB a s q :: mark_free p L'
  | b :: L' => b :: mark_free p L'
  end.

(** Neighbouring free blocks become one. *)
Fixpoint fuse (L : list block) : list block :=
  match L with
  | [] => []
  | FreeB a s :: L' =>
      match fuse L' with
      | FreeB _ s' :: L'' => FreeB a (s + s') :: L''
      | r => FreeB a s :: r
      end
  | b :: L' => b :: fuse L'
  end.

Definition free_layout (p : Z) (L : list block) : list block :=
  fuse (mark_free p L).

(** Every used block is at least nineteen bytes long. *)
Definition used_sized (L : list block) : Prop :=
  forall a s p, In (UsedB a s p) L -> 19 <= s.

(** Consecutive nodes are separated by a used block. *)
Fixpoint gapped (l : list (Z * Z)) : Prop :=
  match l with
  | [] => True
  | (a, s) :: l' =>
      0 < s /\
      match l' with
      | [] => True
      | (a', _) :: _ => a + s + 19 <= a'
      end /\ gapped l'
  end.

(** Short free blocks are harmless: the region avoids the magic pattern,
    or the only short free block is the last block. *)
Definition short_safe (st : state) (L : list block) : Prop :=
  placement_ok (mmap_start_ (this st)) (region_size_ (this st)) \/
  short_only_last L.

(** The same merging, from the tail of the list. *)
Fixpoint coalesce_r (l : list (Z * Z)) : list (Z * Z) :=
  match l with
  | [] => []
  | (a, s) :: l' =>
      match coalesce_r l' with
      | (a', s') :: r => if a + s =? a' then (a, s + s') :: r
                         else (a, s) :: (a', s') :: r
      | [] => [(a, s)]
      end
  end.

(** The record of each node ends before the record of any later node
    starts. *)
Fixpoint recs_apart (l : list (Z * Z)) : Prop :=
  match l with
  | [] => True
  | (a, _) :: l' =>
      (forall a' s', In (a', s') l' -> a + sizeof_MemBlock <= a') /\ recs_apart l'
  end.

(** ** Sequences of client calls *)

(** [Alloc(size, 2^k)] and [Free(p)]. *)
Inductive call : Type :=
| call_Alloc (size k : Z)
| call_Free (p : Z).

(** One call of a client that frees only what it holds.  The list holds
    the pointers [Alloc] returned for an alignment of at most 256 and
    that were not yet freed; a call that throws leaves everything as it
    was. *)
Inductive client_step (fuel : nat)
  : state * list Z -> call -> state * list Z -> Prop :=
| step_Alloc st held size k p st' :
    0 <= k < 64 -> size + 2 ^ k + 17 < 2 ^ 64 ->
    Alloc fuel size (2 ^ k) st = Returned p st' ->
    client_step fuel (st, held) (call_Alloc size k)
      (st', if (p =? 0) || (8 <? k) then held else p :: held)
| step_Alloc_throws st held size k e st' :
    Alloc fuel size (2 ^ k) st = Thrown e st' ->
    client_step fuel (st, held) (call_Alloc size k) (st', held)
| step_Free st held p st' :
    In p held ->
    Free fuel p st = Returned tt st' ->
    client_step fuel (st, held) (call_Free p) (st', remove Z.eq_dec p held)
| step_Free_throws st held p e st' :
    Free fuel p st = Thrown e st' ->
    client_step fuel (st, held) (call_Free p) (st', held).

Inductive client_run (fuel : nat)
  : state * list Z -> list call -> state * list Z -> Prop :=
| run_nil c : client_run fuel c [] c
| run_cons c1 x c2 xs c3 :
    client_step fuel c1 x c2 -> client_run fuel c2 xs c3 ->
    client_run fuel c1 (x :: xs) c3.

(** All requests in turn, each of them successful. *)
Fixpoint alloc_all (fuel : nat) (reqs : list (Z * Z)) (st : state)
  : option (list Z * state) :=
  match reqs with
  | [] => Some ([], st)
  | (size, k) :: reqs' =>
      match Alloc fuel size (2 ^ k) st with
      | Returned p st' =>
          if p =? 0 then None
          else
            match alloc_all fuel reqs' st' with
            | Some (ps, st'') => Some (p :: ps, st'')
            | None => None
            end
      | _ => None
      end
  end.

(** [Free] of each pointer in turn, each call returning. *)
Fixpoint free_all (fuel : nat) (ps : list Z) (st : state) : option state :=
  match ps with
  | [] => Some st
  | p :: ps' =>
      match Free fuel p st with
      | Returned _ st' => free_all fuel ps' st'
      | _ => None
      end
  end.

(** The only free block, if any, is the last block. *)
Fixpoint only_last_free (L : list block) : Prop :=
  match L with
  | [] => True
  | FreeB _ _ :: L' => L' = []
  | UsedB _ _ _ :: L' => only_last_free L'
  end.

(** Every used block has its header as written and an alignment count
    that fits the byte. *)
Definition all_intact (m : mem) (L : list block) : Prop :=
  forall a s p, In (UsedB a s p) L -> header_intact m a s /\ p - a - 17 <= 255.


(** Every pointer the client holds is the pointer of a used block, with
    an alignment count that fits the byte. *)
Definition holds (L : list block) (held : list Z) : Prop :=
  forall p, In p held -> exists a s, In (UsedB a s p) L /\ p - a - 17 <= 255.


(** A call within the allocator's working range: for [Alloc] a
    power-of-two alignment [2^k] below [2^64] with [size + 2^k + 17]
    representable, for [Free] a pointer the client holds. *)
Definition call_ok (held : list Z) (x : call) : Prop :=
  match x with
  | call_Alloc size k => 0 <= k < 64 /\ size + 2 ^ k + 17 < 2 ^ 64
  | call_Free p => In p held
  end.


(** The example allocator in the middle of [Free]: [Alloc(101)] was
    served from the start of the region, and [Free] of that pointer has
    turned the header into a [MemBlock] of 126 bytes, about to be
    inserted. *)
Definition example_freeing : state :=
  match Alloc 2 101 (2 ^ 3) example_state with
  | Returned _ st1 =>
      match store64 (heap st1) example_base 126 with
      | Some m1 =>
          match store64 m1 (example_base + 8) 0 with
          | Some m2 => set_heap st1 m2
          | None => st1
          end
      | None => st1
      end
  | _ => example_state
  end.


(** The bytes a free list accounts for. *)
Definition sizes_sum (l : list (Z * Z)) : Z :=
  fold_right (fun n acc => snd n + acc) 0 l.


(** ** [Malloc<N>::PrintFreeBlocks]

    What the method writes to standard output, as the sequence of its
    output calls with their arguments; the rendering of the arguments
    ([%zu], [%p]) is the C library's. *)
Inductive output : Type :=
| printf_node (size next : Z)  (* std::printf("(%zu, %p) -> ", size, next) *)
| cout_NULL_endl.              (* std::cout << "NULL" << std::endl *)

Fixpoint print_loop (fuel : nat) (m : mem) (curr : Z) (out : list output)
  : outcome (list output) unit :=
  match fuel with
  | O => OutOfFuel
  | S fuel' =>
      if curr =? 0 then Returned tt out
      else
        access sz <- load64 m (padd curr off_size);
        access nxt <- load64 m (padd curr off_next);
        print_loop fuel' m nxt (out ++ [printf_node sz nxt])
  end.

(** The method is [const]: it takes the state and gives back only the
    output, appended to what was written before. *)
Definition PrintFreeBlocks (fuel : nat) (st : state) (out : list output)
  : outcome (list output) unit :=
  match print_loop fuel (heap st) (head_ (this st)) out with
  | Returned _ out' => Returned tt (out' ++ [cout_NULL_endl])
  | o => o
  end.

(** One entry per node: its size and the address of the node after it,
    null for the last. *)
Fixpoint printed (l : list (Z * Z)) : list output :=
  match l with
  | [] => []
  | (_, s) :: l' =>
      printf_node s (match l' with [] => 0 | (a', _) :: _ => a' end) :: printed l'
  end.




(** [mem::Malloc<4097> allocator;] as in the driver (malloc.cc), with
    4096-byte pages in an empty address space: two pages. *)
Definition driver_state : state :=
  match Malloc_ctor 4097 4096 (Some example_base) 0 empty_mem with
  | Returned obj m => mkState obj m
  | _ => mkState moved_from empty_mem
  end.

(** The driver's five requests, [Alloc(101)] each. *)
Definition driver_requests : list (Z * Z) := repeat (101, 3) 5.


(** ** The earlier revision of the header (unnamed/part_000)

    It differs from malloc.hpp in [MergeFreeBlocks], which lacks the
    [if (!head_) return;], and in having no [PrintFreeBlocks].  With a
    null [head_] the loop condition [curr->next] reads through the null
    pointer. *)
Definition MergeFreeBlocks_v0 (fuel : nat) (st : state) : outcome state unit :=
  match merge_loop fuel (heap st) (head_ (this st)) with
  | Returned _ m => Returned tt (set_heap st m)
  | Thrown e _ => Thrown e st
  | Segfault => Segfault
  | OutOfFuel => OutOfFuel
  end.

(** [Free] of that revision: the same text, calling its [MergeFreeBlocks]. *)
Definition Free_v0 (fuel : nat) (block : Z) (st : state) : outcome state unit :=
  if block =? 0 then Thrown (runtime_error "cannot free NULL mem block") st
  else
    let alignment_byte_cnt_addr := padd block (-1) in
    access alignment_byte_cnt <- load8 (heap st) alignment_byte_cnt_addr;
    let header :=
      wrap (block - sizeof_MemBlockHeader - alignment_byte_cnt - 1) in
    access magic <- load32 (heap st) (padd header off_magic);
    if negb (magic =? kMemMagicNum) then
      Thrown (runtime_error "invalid mem block magic number") st
    else
      let insert_block := header in
      access hsz <- load64 (heap st) (padd header off_hsize);
      access m1 <- store64 (heap st) (padd insert_block off_size)
                     (wrap (hsz + sizeof_MemBlockHeader));
      access m2 <- store64 m1 (padd insert_block off_next) 0;
      obind (InsertFreeMemBlock fuel insert_block (set_heap st m2))
            (fun _ st' => MergeFreeBlocks_v0 fuel st').

(** * Properties of the memory model *)

Section MemoryFacts.

Lemma upd_same m a b : upd m a b a = Some b.
Proof. unfold upd. now rewrite Z.eqb_refl. Qed.

Lemma upd_other m a b x : x <> a -> upd m a b x = m x.
Proof. unfold upd. intros H. destruct (Z.eqb_spec x a); congruence. Qed.

Lemma loadN_S k m a :
  loadN (S k) m a =
  match m a, loadN k m (a + 1) with
  | Some b, Some r => Some (b + 256 * r)
  | _, _ => None
  end.
Proof. reflexivity. Qed.

Lemma storeN_S k m a v :
  storeN (S k) m a v =
  match m a with
  | Some _ => storeN k (upd m a (v mod 256)) (a + 1) (v / 256)
  | None => None
  end.
Proof. reflexivity. Qed.

Lemma storeN_other n : forall m a v m' x,
  storeN n m a v = Some m' ->
  x < a \/ a + Z.of_nat n <= x ->
  m' x = m x.
Proof.
  induction n as [|k IH]; intros m a v m' x Hs Hx; simpl in Hs.
  - congruence.
  - destruct (m a) eqn:Ha; [|discriminate].
    rewrite (IH _ _ _ _ x Hs) by lia.
    apply upd_other. lia.
Qed.

Lemma storeN_dom n : forall m a v m' x,
  storeN n m a v = Some m' -> (m' x = None <-> m x = None).
Proof.
  induction n as [|k IH]; intros m a v m' x Hs; simpl in Hs.
  - inversion Hs. tauto.
  - destruct (m a) eqn:Ha; [|discriminate].
    rewrite (IH _ _ _ _ x Hs). unfold upd.
    destruct (Z.eqb_spec x a); subst; split; congruence.
Qed.

Lemma storeN_ok n : forall m a v,
  mapped m a (Z.of_nat n) -> exists m', storeN n m a v = Some m'.
Proof.
  induction n as [|k IH]; intros m a v Hm; simpl.
  - eauto.
  - destruct (m a) eqn:Ha.
    + apply IH. intros i Hi. unfold upd.
      destruct (Z.eqb_spec (a + 1 + i) a); [discriminate|].
      replace (a + 1 + i) with (a + (1 + i)) by lia. apply Hm. lia.
    + exfalso. apply (Hm 0); [lia|]. now rewrite Z.add_0_r.
Qed.

Lemma storeN_mapped n m a v m' b len :
  storeN n m a v = Some m' -> mapped m b len -> mapped m' b len.
Proof.
  intros Hs Hm i Hi Hn. apply (Hm i Hi).
  now apply (storeN_dom _ _ _ _ _ (b + i) Hs).
Qed.

Lemma storeN_byte_ok n : forall m a v m',
  byte_ok m -> storeN n m a v = Some m' -> byte_ok m'.
Proof.
  induction n as [|k IH]; intros m a v m' Hb Hs; simpl in Hs.
  - now inversion Hs; subst.
  - destruct (m a) eqn:Ha; [|discriminate].
    refine (IH _ _ _ _ _ Hs).
    intros x y. unfold upd.
    destruct (Z.eqb_spec x a).
    + intros [= <-]. apply Z.mod_pos_bound. lia.
    + apply Hb.
Qed.

Lemma loadN_storeN n : forall m a v m',
  storeN n m a v = Some m' ->
  loadN n m' a = Some (v mod 256 ^ Z.of_nat n).
Proof.
  induction n as [|k IH]; intros m a v m' Hs.
  - simpl. now rewrite Z.mod_1_r.
  - rewrite storeN_S in Hs. destruct (m a) eqn:Ha; [|discriminate].
    rewrite ?loadN_S.
    rewrite (storeN_other _ _ _ _ _ a Hs) by lia.
    rewrite upd_same, (IH _ _ _ _ Hs).
    f_equal. rewrite Nat2Z.inj_succ, Z.pow_succ_r by lia.
    rewrite Z.rem_mul_r by lia. reflexivity.
Qed.

Lemma loadN_ext n : forall m m' a,
  (forall i, 0 <= i < Z.of_nat n -> m' (a + i) = m (a + i)) ->
  loadN n m' a = loadN n m a.
Proof.
  induction n as [|k IH]; intros m m' a H; rewrite ?loadN_S.
  - reflexivity.
  - assert (H0 : m' a = m a).
    { generalize (H 0). rewrite Z.add_0_r. intros E. apply E. lia. }
    rewrite H0, (IH m m' (a + 1)); [reflexivity|].
    intros i Hi. replace (a + 1 + i) with (a + (1 + i)) by lia.
    apply H. lia.
Qed.

Lemma loadN_bound n : forall m a v,
  byte_ok m -> loadN n m a = Some v -> 0 <= v < 256 ^ Z.of_nat n.
Proof.
  induction n as [|k IH]; intros m a v Hb Hl; rewrite ?loadN_S in Hl.
  - inversion Hl. simpl. lia.
  - destruct (m a) as [b|] eqn:Ha; [|discriminate].
    destruct (loadN k m (a + 1)) as [r|] eqn:Hr; [|discriminate].
    assert (Hv : v = b + 256 * r) by congruence.
    apply Hb in Ha. apply (IH _ _ _ Hb) in Hr.
    rewrite Nat2Z.inj_succ, Z.pow_succ_r by lia.
    remember (256 ^ Z.of_nat k) as P. lia.
Qed.

Lemma loadN_ok n : forall m a,
  mapped m a (Z.of_nat n) -> exists v, loadN n m a = Some v.
Proof.
  induction n as [|k IH]; intros m a Hm; rewrite ?loadN_S.
  - exists 0. reflexivity.
  - destruct (m a) eqn:Ha.
    + destruct (IH m (a + 1)) as [r Hr].
      * intros i Hi. replace (a + 1 + i) with (a + (1 + i)) by lia.
        apply Hm. lia.
      * rewrite Hr. eauto.
    + exfalso. apply (Hm 0); [lia|]. now rewrite Z.add_0_r.
Qed.

Lemma loadN_mapped n : forall m a v,
  loadN n m a = Some v -> mapped m a (Z.of_nat n).
Proof.
  induction n as [|k IH]; intros m a v Hl i Hi; [lia|].
  rewrite loadN_S in Hl.
  destruct (m a) as [b|] eqn:Ha; [|discriminate].
  destruct (loadN k m (a + 1)) as [r|] eqn:Hr; [|discriminate].
  destruct (Z.eq_dec i 0) as [->|Hne].
  - rewrite Z.add_0_r. congruence.
  - replace (a + i) with (a + 1 + (i - 1)) by lia.
    apply (IH _ _ _ Hr). lia.
Qed.

Lemma mapped_sub m a n b k :
  mapped m a n -> a <= b -> b + k <= a + n -> mapped m b k.
Proof.
  intros Hm H1 H2 i Hi. replace (b + i) with (a + (b - a + i)) by lia.
  apply Hm. lia.
Qed.

(** A load sees a store to a disjoint range not at all. *)
Lemma loadN_storeN_other k n m a v m' b :
  storeN n m a v = Some m' ->
  b + Z.of_nat k <= a \/ a + Z.of_nat n <= b ->
  loadN k m' b = loadN k m b.
Proof.
  intros Hs Hd. apply loadN_ext. intros i Hi.
  apply (storeN_other _ _ _ _ _ _ Hs). lia.
Qed.

Lemma wrap_small x : 0 <= x < 2 ^ 64 -> wrap x = x.
Proof. apply Z.mod_small. Qed.

Lemma wrap_range x : 0 <= wrap x < 2 ^ 64.
Proof. apply Z.mod_pos_bound. lia. Qed.

Lemma padd_small p n : 0 <= p + n < 2 ^ 64 -> padd p n = p + n.
Proof. apply wrap_small. Qed.

End MemoryFacts.

(** * Powers of two and alignment *)

Section PowersOfTwo.

Lemma pow2_lt_64 k : 0 <= k -> 2 ^ k < 2 ^ 64 -> k < 64.
Proof.
  intros Hk H. destruct (Z_lt_le_dec k 64) as [|Hge]; [assumption|].
  exfalso. assert (2 ^ 64 <= 2 ^ k) by (apply Z.pow_le_mono_r; lia). lia.
Qed.

Lemma land_pred_pow2 k : 0 <= k -> Z.land (2 ^ k) (2 ^ k - 1) = 0.
Proof.
  intros Hk. replace (2 ^ k - 1) with (Z.ones k)
    by (rewrite Z.ones_equiv; lia).
  rewrite Z.land_ones by lia. apply Z.mod_same.
  assert (0 < 2 ^ k) by (apply Z.pow_pos_nonneg; lia). lia.
Qed.

Lemma land_pred_zero_pow2 n :
  0 < n -> Z.land n (n - 1) = 0 -> n = 2 ^ Z.log2 n.
Proof.
  intros Hn Hl.
  destruct (Z.log2_spec n Hn) as [Hlo Hhi].
  destruct (Z.eq_dec n (2 ^ Z.log2 n)) as [|Hne]; [assumption|exfalso].
  assert (Hk : 0 <= Z.log2 n) by apply Z.log2_nonneg.
  assert (Hlog : Z.log2 (n - 1) = Z.log2 n).
  { apply Z.log2_unique; [assumption|]. rewrite <- Z.add_1_r in *. lia. }
  assert (Hb1 : Z.testbit n (Z.log2 n) = true) by (apply Z.bit_log2; lia).
  assert (Hb2 : Z.testbit (n - 1) (Z.log2 n) = true).
  { rewrite <- Hlog. apply Z.bit_log2.
    assert (0 < 2 ^ Z.log2 n) by (apply Z.pow_pos_nonneg; lia). lia. }
  assert (Hb : Z.testbit (Z.land n (n - 1)) (Z.log2 n) = true).
  { rewrite Z.land_spec, Hb1, Hb2. reflexivity. }
  rewrite Hl, Z.bits_0 in Hb. discriminate.
Qed.

(** [IsPowerOfTwo] decides exactly the powers of two among the values of
    [std::size_t]. *)
Lemma IsPowerOfTwo_spec n :
  0 <= n < 2 ^ 64 -> (IsPowerOfTwo n = true <-> power_of_two n).
Proof.
  intros Hn. unfold IsPowerOfTwo, power_of_two. split.
  - intros H. apply andb_true_iff in H. destruct H as [H0 H1].
    apply negb_true_iff, Z.eqb_neq in H0. apply Z.eqb_eq in H1.
    rewrite wrap_small in H1 by lia.
    exists (Z.log2 n). split; [apply Z.log2_nonneg|].
    apply land_pred_zero_pow2; [lia|assumption].
  - intros (k & Hk & ->).
    assert (0 < 2 ^ k) by (apply Z.pow_pos_nonneg; lia).
    apply andb_true_iff. split.
    + apply negb_true_iff, Z.eqb_neq. lia.
    + rewrite wrap_small by lia. apply Z.eqb_eq, land_pred_pow2. assumption.
Qed.

(** Masking with [-2^k] clears the low [k] bits. *)
Lemma land_neg_pow2_aligned x k :
  0 <= k < 64 -> Z.land x (wrap (- 2 ^ k)) mod 2 ^ k = 0.
Proof.
  intros Hk.
  assert (Hp : 0 < 2 ^ k) by (apply Z.pow_pos_nonneg; lia).
  assert (Hle : 2 ^ k < 2 ^ 64) by (apply Z.pow_lt_mono_r; lia).
  assert (Hw : wrap (- 2 ^ k) = (2 ^ (64 - k) - 1) * 2 ^ k).
  { unfold wrap. rewrite Z.mul_sub_distr_r, <- Z.pow_add_r by lia.
    replace (64 - k + k) with 64 by lia.
    symmetry. apply Z.mod_unique with (q := -1); lia. }
  rewrite <- Z.land_ones by lia.
  apply Z.bits_inj'. intros i Hi.
  rewrite Z.bits_0, !Z.land_spec, Hw.
  destruct (Z_lt_le_dec i k) as [Hlt|Hge].
  - rewrite Z.mul_pow2_bits_low by lia.
    now rewrite andb_false_r.
  - rewrite Z.ones_spec_high by lia. now rewrite andb_false_r.
Qed.

End PowersOfTwo.

(** * The private helpers never throw *)

Section NoThrow.

Ltac split_matches :=
  repeat match goal with
         | |- context [match ?x with _ => _ end] => destruct x eqn:?
         end.

Lemma insert_loop_no_throw fuel : forall m block be d prev curr e m',
  insert_loop fuel m block be d prev curr <> Thrown e m'.
Proof.
  induction fuel as [|f IH]; intros; simpl; [discriminate|].
  split_matches; try discriminate. apply IH.
Qed.

Lemma merge_loop_no_throw fuel : forall m curr e m',
  merge_loop fuel m curr <> Thrown e m'.
Proof.
  induction fuel as [|f IH]; intros; simpl; [discriminate|].
  split_matches; try discriminate; apply IH.
Qed.

Lemma find_fit_no_throw fuel : forall m req prev curr e m',
  find_fit fuel m req prev curr <> Thrown e m'.
Proof.
  induction fuel as [|f IH]; intros; simpl; [discriminate|].
  split_matches; try discriminate; apply IH.
Qed.

Lemma InsertFreeMemBlock_no_throw fuel block st e st' :
  InsertFreeMemBlock fuel block st <> Thrown e st'.
Proof.
  unfold InsertFreeMemBlock. destruct (load64 _ _); [|discriminate].
  destruct (insert_loop _ _ _ _ _ _ _) eqn:E; try discriminate.
  now apply insert_loop_no_throw in E.
Qed.

Lemma MergeFreeBlocks_no_throw fuel st e st' :
  MergeFreeBlocks fuel st <> Thrown e st'.
Proof.
  unfold MergeFreeBlocks. destruct (_ =? _); [discriminate|].
  destruct (merge_loop _ _ _) eqn:E; try discriminate.
  now apply merge_loop_no_throw in E.
Qed.

Lemma wrap_wrap x : wrap (wrap x) = wrap x.
Proof. unfold wrap. apply Z.mod_mod. lia. Qed.

Lemma padd_wrap_0 x : padd (wrap x) 0 = wrap x.
Proof. unfold padd. rewrite Z.add_0_r. apply wrap_wrap. Qed.

(** What [Alloc] throws, and in which state. *)
Lemma Alloc_thrown fuel size alignment st e st' :
  Alloc fuel size alignment st = Thrown e st' ->
  st' = st /\
  (e = invalid_argument "size must be a positive integer" /\ size <= 0 \/
   e = invalid_argument "alignment must be a power of 2" /\ 0 < size /\
   (alignment = 0 \/ IsPowerOfTwo alignment = false)).
Proof.
  unfold Alloc. destruct (Z.leb_spec size 0).
  - intros [= <- <-]. auto.
  - destruct (_ || _) eqn:Ea.
    + intros [= <- <-]. split; [reflexivity|right].
      apply orb_true_iff in Ea. rewrite negb_true_iff, Z.eqb_eq in Ea. tauto.
    + destruct (find_fit _ _ _ _ _) as [[prev curr] ?| | |] eqn:E; try discriminate.
      * destruct (curr =? 0); [discriminate|].
        destruct (carve _ _ _ _ _ _) as [[[? ?] ?]|]; discriminate.
      * now apply find_fit_no_throw in E.
Qed.

(** What [Free] throws, and in which state. *)
Lemma Free_thrown fuel block st e st' :
  Free fuel block st = Thrown e st' ->
  st' = st /\
  (e = runtime_error "cannot free NULL mem block" /\ block = 0 \/
   e = runtime_error "invalid mem block magic number" /\ block <> 0 /\
   exists cnt magic,
     load8 (heap st) (padd block (-1)) = Some cnt /\
     load32 (heap st) (wrap (block - sizeof_MemBlockHeader - cnt - 1)) = Some magic /\
     magic <> kMemMagicNum).
Proof.
  unfold Free. destruct (Z.eqb_spec block 0).
  - intros [= <- <-]. auto.
  - destruct (load8 _ _) as [cnt|] eqn:Ec; [|discriminate].
    rewrite padd_wrap_0.
    destruct (load32 _ _) as [magic|] eqn:Em; [|discriminate].
    destruct (Z.eqb_spec magic kMemMagicNum); cbn [negb].
    + destruct (load64 _ _); [|discriminate].
      destruct (store64 _ _ _); [|discriminate].
      destruct (store64 _ _ _); [|discriminate].
      unfold obind.
      destruct (InsertFreeMemBlock _ _ _) eqn:Ei; try discriminate.
      * intros H. now apply MergeFreeBlocks_no_throw in H.
      * now apply InsertFreeMemBlock_no_throw in Ei.
    + intros [= <- <-]. split; [reflexivity|right].
      split; [reflexivity|]. split; [assumption|]. eauto.
Qed.

End NoThrow.

(** * Error handling *)

(** C6.  [Alloc] throws [std::invalid_argument] exactly when [size] is zero,
    [alignment] is zero, or [alignment] is not a power of two; [Free] throws
    [std::runtime_error] exactly when [block] is null or the header found
    through the byte before [block] holds a magic number other than
    [kMemMagicNum]; and the state at either throw (object fields and every
    byte of memory) is the state before the call. *)
Theorem C6_errors_and_unchanged_state (fuel : nat) (size alignment block : Z)
    (st : state)
    (Hsize : 0 <= size < 2 ^ 64) (Halign : 0 <= alignment < 2 ^ 64) :
  ((exists what, Alloc fuel size alignment st = Thrown (invalid_argument what) st)
     <-> size = 0 \/ alignment = 0 \/ ~ power_of_two alignment)
  /\ ((exists what, Free fuel block st = Thrown (runtime_error what) st)
     <-> block = 0 \/
         exists cnt magic,
           load8 (heap st) (padd block (-1)) = Some cnt /\
           load32 (heap st)
             (wrap (block - sizeof_MemBlockHeader - cnt - 1)) = Some magic /\
           magic <> kMemMagicNum)
  /\ (forall e st', Alloc fuel size alignment st = Thrown e st' ->
        st' = st /\ exists what, e = invalid_argument what)
  /\ (forall e st', Free fuel block st = Thrown e st' ->
        st' = st /\ exists what, e = runtime_error what).
Proof.
  assert (Hpow : alignment <> 0 ->
                 (IsPowerOfTwo alignment = false <-> ~ power_of_two alignment)).
  { intros _. rewrite <- (IsPowerOfTwo_spec alignment Halign).
    destruct (IsPowerOfTwo alignment); split; congruence. }
  repeat split.
  - intros [what H]. apply Alloc_thrown in H.
    destruct H as [_ [[_ H]|[_ [_ [H|H]]]]]; [left; lia|tauto|].
    destruct (Z.eq_dec alignment 0); [tauto|]. right; right. now apply Hpow.
  - intros H. unfold Alloc.
    destruct (Z.leb_spec size 0); [eauto|].
    destruct H as [H|[H|H]]; [lia| |].
    + subst. cbn [Z.eqb orb]. eauto.
    + destruct (Z.eqb_spec alignment 0); cbn [orb]; [eauto|].
      apply Hpow in H; [|assumption]. rewrite H. cbn [negb]. eauto.
  - intros [what H]. apply Free_thrown in H.
    destruct H as [_ [[_ H]|[_ [_ H]]]]; [now left|now right].
  - intros H. unfold Free.
    destruct (Z.eqb_spec block 0); [eauto|].
    destruct H as [H|(cnt & magic & Hc & Hm & Hne)]; [contradiction|].
    rewrite Hc, padd_wrap_0, Hm.
    destruct (Z.eqb_spec magic kMemMagicNum); [contradiction|].
    cbn [negb]. eauto.
  - now apply Alloc_thrown in H.
  - apply Alloc_thrown in H. destruct H as [_ [[-> _]|[-> _]]]; eauto.
  - now apply Free_thrown in H.
  - apply Free_thrown in H. destruct H as [_ [[-> _]|[-> _]]]; eauto.
Qed.

Lemma C6_witness :
  exists what,
    Alloc 8 1024 7 example_state = Thrown (invalid_argument what) example_state.
Proof.
  destruct (C6_errors_and_unchanged_state 8 1024 7 0 example_state
              ltac:(lia) ltac:(lia)) as [[_ H] _].
  apply H. right; right. intros (k & Hk & E).
  assert (k < 3) by (apply (Z.pow_lt_mono_r_iff 2); lia).
  assert (Hc : k = 0 \/ k = 1 \/ k = 2) by lia.
  destruct Hc as [ -> | [ -> | -> ] ]; discriminate.
Defined.

(** * Construction *)

Section Construction.

Lemma mmap_anon_cases page os_choice len errno m head errno1 m1 :
  mmap_anon page os_choice len errno m = (head, errno1, m1) ->
  (head = MAP_FAILED /\ m1 = m) \/
  (os_choice = Some head /\ len <> 0 /\ 0 < head /\ head mod page = 0 /\
   head + len <= TASK_SIZE /\
   m1 = mapped_zero m head len).
Proof.
  unfold mmap_anon. destruct (Z.eqb_spec len 0).
  - intros [= <- <- <-]. auto.
  - destruct os_choice as [base|]; [|intros [= <- <- <-]; auto].
    destruct (_ && _) eqn:E; [|intros [= <- <- <-]; auto].
    intros [= <- <- <-]. right.
    apply andb_true_iff in E. destruct E as [E E3].
    apply andb_true_iff in E. destruct E as [E1 E2].
    apply Z.ltb_lt in E1. apply Z.eqb_eq in E2. apply Z.leb_le in E3.
    repeat split; auto.
Qed.

Lemma in_range_spec base len x :
  in_range base len x = true <-> base <= x < base + len.
Proof.
  unfold in_range. rewrite andb_true_iff, Z.leb_le, Z.ltb_lt. tauto.
Qed.

(** The rounded size, when it is representable. *)
Lemma round_region_size_least N P :
  0 < N -> 0 < P ->
  (N mod P = 0 \/ (N / P) * P + P < 2 ^ 64) ->
  least_multiple_geq P N (round_region_size N P).
Proof.
  intros HN HP Hfit. unfold round_region_size, least_multiple_geq.
  pose proof (Z.div_mod N P ltac:(lia)) as Hdm.
  pose proof (Z.mod_pos_bound N P HP) as Hmod.
  destruct (Z.eqb_spec (N mod P) 0) as [E|E]; cbn [negb].
  - split; [|split; [lia|intros; assumption]].
    exists (N / P). lia.
  - destruct Hfit as [|Hfit]; [contradiction|].
    assert (0 <= N / P) by (apply Z.div_pos; lia).
    rewrite wrap_small by nia.
    split; [exists (N / P + 1); lia|]. split; [nia|].
    intros r' [q ->] Hge.
    assert (N / P < q) by nia. nia.
Qed.

(** With a page size dividing [2^64], the rounding either is exact or
    wraps around to zero. *)
Lemma round_region_size_wraps_to_zero N P :
  0 < N < 2 ^ 64 -> power_of_two P -> P < 2 ^ 64 ->
  N mod P = 0 \/ (N / P) * P + P < 2 ^ 64 \/ round_region_size N P = 0.
Proof.
  intros HN (k & Hk & ->) HP.
  assert (Hk64 : k < 64) by (apply pow2_lt_64; lia).
  assert (Hpos : 0 < 2 ^ k) by (apply Z.pow_pos_nonneg; lia).
  destruct (Z.eq_dec (N mod 2 ^ k) 0) as [|Hne]; [now left|right].
  assert (H64 : 2 ^ 64 = 2 ^ (64 - k) * 2 ^ k).
  { rewrite <- Z.pow_add_r by lia. f_equal. lia. }
  assert (N / 2 ^ k < 2 ^ (64 - k)).
  { apply Z.div_lt_upper_bound; lia. }
  destruct (Z_lt_le_dec ((N / 2 ^ k) * 2 ^ k + 2 ^ k) (2 ^ 64)) as [|Hge];
    [now left|right].
  assert (E : N / 2 ^ k * 2 ^ k + 2 ^ k = 2 ^ 64) by nia.
  unfold round_region_size.
  destruct (Z.eqb_spec (N mod 2 ^ k) 0); [contradiction|]. cbn [negb].
  rewrite E. reflexivity.
Qed.

End Construction.

Section ConstructionOutcome.

Lemma least_multiple_geq_unique P N r1 r2 :
  least_multiple_geq P N r1 -> least_multiple_geq P N r2 -> r1 = r2.
Proof.
  intros (D1 & G1 & L1) (D2 & G2 & L2).
  specialize (L1 r2 D2 G2). specialize (L2 r1 D1 G1). lia.
Qed.

Lemma store64_unmapped m a v : m a = None -> store64 m a v = None.
Proof. intros H. unfold store64. rewrite storeN_S, H. reflexivity. Qed.

Lemma user_mem_MAP_FAILED m : user_mem m -> m MAP_FAILED = None.
Proof.
  intros Hu. destruct (m MAP_FAILED) eqn:E; [|reflexivity].
  assert (H : m MAP_FAILED <> None) by congruence.
  apply Hu in H. unfold MAP_FAILED, TASK_SIZE in H. lia.
Qed.

(** A refused mapping is not reported: the constructor goes on to write
    through [MAP_FAILED]. *)
Lemma ctor_refused N P os_choice errno m errno1 m1 :
  0 <= N -> user_mem m ->
  mmap_anon P os_choice (round_region_size N P) errno m
    = (MAP_FAILED, errno1, m1) ->
  Malloc_ctor N P os_choice errno m = Segfault.
Proof.
  intros HN Hu E. unfold Malloc_ctor. rewrite E.
  change (MAP_FAILED =? 0) with false. cbv iota.
  apply mmap_anon_cases in E. destruct E as [[_ ->]|(_ & _ & _ & _ & Hle & _)].
  - change (padd MAP_FAILED off_size) with MAP_FAILED.
    rewrite store64_unmapped by (now apply user_mem_MAP_FAILED). reflexivity.
  - exfalso. unfold MAP_FAILED, TASK_SIZE in Hle.
    assert (0 <= round_region_size N P); [|lia].
    unfold round_region_size. destruct (negb _).
    + apply wrap_range.
    + assumption.
Qed.

End ConstructionOutcome.

Section ConstructionGranted.

Lemma mapped_zero_mapped m base len : mapped (mapped_zero m base len) base len.
Proof.
  intros i Hi. unfold mapped_zero.
  destruct (in_range base len (base + i)) eqn:E; [discriminate|].
  exfalso. apply not_true_iff_false in E. apply E, in_range_spec. lia.
Qed.

(** A granted mapping: the constructor returns, with the whole region as
    one free node. *)
Lemma ctor_granted N P base errno m :
  let r := round_region_size N P in
  16 <= r < 2 ^ 64 -> 0 < base -> base mod P = 0 -> base + r <= TASK_SIZE ->
  exists m2 m3,
    store64 (mapped_zero m base r) base (r - sizeof_MemBlock) = Some m2 /\
    store64 m2 (base + off_next) 0 = Some m3 /\
    Malloc_ctor N P (Some base) errno m = Returned (mkMalloc r base base) m3.
Proof.
  intros r Hr Hb Hal Htop. unfold TASK_SIZE in Htop.
  destruct (storeN_ok 8 (mapped_zero m base r) base (r - sizeof_MemBlock))
    as [m2 E2].
  { apply mapped_sub with (a := base) (n := r);
      [apply mapped_zero_mapped|lia|simpl; lia]. }
  destruct (storeN_ok 8 m2 (base + off_next) 0) as [m3 E3].
  { apply (storeN_mapped _ _ _ _ _ _ _ E2).
    apply mapped_sub with (a := base) (n := r);
      [apply mapped_zero_mapped|unfold off_next; lia|unfold off_next; simpl; lia]. }
  exists m2, m3. split; [exact E2|]. split; [exact E3|].
  unfold Malloc_ctor. fold r. unfold mmap_anon.
  destruct (Z.eqb_spec r 0); [lia|].
  replace (0 <? base) with true by (symmetry; apply Z.ltb_lt; lia).
  replace (base mod P =? 0) with true by (symmetry; apply Z.eqb_eq; lia).
  replace (base + r <=? TASK_SIZE) with true
    by (symmetry; apply Z.leb_le; unfold TASK_SIZE; lia).
  cbn [andb]. destruct (Z.eqb_spec base 0); [lia|].
  unfold padd, off_size. rewrite Z.add_0_r, !wrap_small
    by (unfold sizeof_MemBlock, off_next; lia).
  unfold store64 in E2, E3. unfold store64.
  rewrite E2, E3. reflexivity.
Qed.

End ConstructionGranted.

(** C8.  For every [N > 0], a constructed allocator reports as
    [RegionSize()] the smallest multiple of the page size that is at least
    [N], and [N] itself when [N] is such a multiple; and the constructor does
    return, with that size, whenever the kernel places the mapping. *)
Theorem C8_region_size_is_page_rounding (N P : Z) (os_choice : option Z)
    (errno : Z) (m : mem)
    (HN : 0 < N < 2 ^ 64) (Hpage : power_of_two P) (Hint : 16 <= P < 2 ^ 31)
    (Hm : user_mem m) :
  (forall obj m',
      Malloc_ctor N P os_choice errno m = Returned obj m' ->
      least_multiple_geq P N (RegionSize (mkState obj m')) /\
      (N mod P = 0 -> RegionSize (mkState obj m') = N))
  /\ (forall base r,
        least_multiple_geq P N r ->
        0 < base -> base mod P = 0 -> base + r <= TASK_SIZE ->
        exists obj m',
          Malloc_ctor N P (Some base) errno m = Returned obj m' /\
          RegionSize (mkState obj m') = r).
Proof.
  assert (HP64 : P < 2 ^ 64) by lia.
  pose proof (round_region_size_wraps_to_zero N P HN Hpage HP64) as Hcases.
  split.
  - intros obj m' Hret.
    destruct (mmap_anon P os_choice (round_region_size N P) errno m)
      as [[head errno1] m1] eqn:E.
    pose proof E as E'. apply mmap_anon_cases in E'.
    destruct E' as [[-> _]|(_ & Hlen & _)].
    + assert (H0 : 0 <= N) by lia.
      rewrite (ctor_refused _ _ _ _ _ _ _ H0 Hm E) in Hret. discriminate.
    + assert (Hrs : RegionSize (mkState obj m') = round_region_size N P).
      { unfold Malloc_ctor in Hret. rewrite E in Hret.
        destruct (head =? 0); [discriminate|].
        destruct (store64 m1 _ _); [|discriminate].
        destruct (store64 _ _ _); [|discriminate].
        now inversion Hret. }
      rewrite Hrs. split.
      * apply round_region_size_least; lia.
      * intros H0. unfold round_region_size. rewrite H0. reflexivity.
  - intros base r Hr Hb Hal Htop.
    assert (Hfit : N mod P = 0 \/ N / P * P + P < 2 ^ 64).
    { destruct Hcases as [|[|Hz]]; auto.
      destruct (Z.eq_dec (N mod P) 0); [now left|right].
      destruct Hr as ([q ->] & Hge & _). unfold TASK_SIZE in Htop.
      pose proof (Z.div_mod N P ltac:(lia)).
      pose proof (Z.mod_pos_bound N P ltac:(lia)).
      remember (N / P) as d. remember (N mod P) as e.
      assert (Hlt : d * P < q * P) by lia.
      apply Z.mul_lt_mono_pos_r in Hlt; [|lia].
      assert ((d + 1) * P <= q * P) by (apply Z.mul_le_mono_nonneg_r; lia).
      lia. }
    pose proof (round_region_size_least N P ltac:(lia) ltac:(lia) Hfit) as Hl.
    pose proof (least_multiple_geq_unique _ _ _ _ Hl Hr) as Heq.
    destruct Hr as ([q Hq] & Hge & _). unfold TASK_SIZE in Htop.
    assert (0 < q) by (apply (Z.mul_pos_cancel_r q P); lia).
    assert (1 * P <= q * P) by (apply Z.mul_le_mono_nonneg_r; lia).
    assert (16 <= r) by lia.
    destruct (ctor_granted N P base errno m) as (m2 & m3 & _ & _ & Hc);
      rewrite ?Heq; try assumption; try lia.
    rewrite Heq in Hc. eauto.
Qed.

Lemma C8_witness :
  exists obj m',
    Malloc_ctor (4096 * 3 + 1) 4096 (Some example_base) 0 empty_mem
      = Returned obj m' /\
    RegionSize (mkState obj m') = 16384.
Proof.
  assert (Hu : user_mem empty_mem) by (intros a H; now elim H).
  assert (Hp : power_of_two 4096) by (exists 12; split; [lia|reflexivity]).
  apply (C8_region_size_is_page_rounding (4096 * 3 + 1) 4096
           (Some example_base) 0 empty_mem ltac:(lia) Hp ltac:(lia) Hu).
  - split; [exists 4; reflexivity|]. split; [lia|].
    intros r' [q ->] Hge. lia.
  - reflexivity.
  - reflexivity.
  - unfold example_base, TASK_SIZE. lia.
Defined.

(** C7 (the code departs from the claim).  When the kernel refuses the
    mapping, [mmap] returns [MAP_FAILED], which is not null: the test
    [if (!head_)] does not fire, nothing is thrown, and the constructor
    faults on the write through [head_].  No outcome of the kernel makes the
    constructor throw. *)
Theorem C7_refused_mapping_is_not_reported (N P errno : Z) (m : mem)
    (HN : 0 < N < 2 ^ 64) (Hm : user_mem m) :
  Malloc_ctor N P None errno m = Segfault
  /\ forall os_choice e m', Malloc_ctor N P os_choice errno m <> Thrown e m'.
Proof.
  assert (H0 : 0 <= N) by lia. split.
  - destruct (mmap_anon P None (round_region_size N P) errno m)
      as [[head errno1] m1] eqn:E.
    assert (head = MAP_FAILED).
    { unfold mmap_anon in E. destruct (_ =? 0); now inversion E. }
    subst head. exact (ctor_refused _ _ _ _ _ _ _ H0 Hm E).
  - intros os_choice e m' Hthrow.
    destruct (mmap_anon P os_choice (round_region_size N P) errno m)
      as [[head errno1] m1] eqn:E.
    pose proof E as E'. apply mmap_anon_cases in E'.
    unfold Malloc_ctor in Hthrow. rewrite E in Hthrow.
    destruct (Z.eqb_spec head 0) as [Hz|Hz].
    + destruct E' as [[-> _]|(_ & _ & Hpos & _)]; [discriminate Hz|lia].
    + destruct (store64 m1 _ _); [|discriminate].
      destruct (store64 _ _ _); discriminate.
Qed.

Lemma C7_witness :
  Malloc_ctor 4096 4096 None 0 empty_mem = Segfault
  /\ forall os_choice e m',
       Malloc_ctor 4096 4096 os_choice 0 empty_mem <> Thrown e m'.
Proof.
  apply (C7_refused_mapping_is_not_reported 4096 4096 0 empty_mem).
  - lia.
  - intros a H. now elim H.
Defined.

(** * Merging on an empty list *)



(** * Calls keep the mapping and the region fields *)

Section Footprint.

Lemma same_dom_refl m : same_dom m m.
Proof. intros x. tauto. Qed.

Lemma same_dom_trans m1 m2 m3 :
  same_dom m1 m2 -> same_dom m2 m3 -> same_dom m1 m3.
Proof. intros H1 H2 x. rewrite (H2 x). apply H1. Qed.

Lemma storeN_same_dom n m a v m' : storeN n m a v = Some m' -> same_dom m m'.
Proof. intros H x. eapply storeN_dom; eassumption. Qed.

Lemma set_prev_next_same_dom m d prev v m' d' :
  set_prev_next m d prev v = Some (m', d') -> same_dom m m'.
Proof.
  unfold set_prev_next. destruct prev as [p|].
  - destruct (store64 _ _ _) eqn:E; [|discriminate].
    intros [= <- <-]. eapply storeN_same_dom; eassumption.
  - intros [= <- <-]. apply same_dom_refl.
Qed.

Create HintDb footprint.
#[local] Hint Resolve same_dom_refl storeN_same_dom set_prev_next_same_dom
  : footprint.

Ltac dom_step :=
  match goal with
  | H : Some _ = Some _ |- _ => inversion H; subst; clear H
  | H : Returned _ _ = Returned _ _ |- _ => inversion H; subst; clear H
  | H : match ?x with _ => _ end = _ |- _ => destruct x eqn:?; try discriminate
  | H : (let '(_, _) := ?x in _) = _ |- _ => destruct x eqn:?
  end.

Lemma insert_loop_same_dom fuel : forall m block be d prev curr d' m',
  insert_loop fuel m block be d prev curr = Returned d' m' -> same_dom m m'.
Proof.
  induction fuel as [|f IH]; intros until m'; simpl; [discriminate|].
  intros H. repeat dom_step; eauto 6 using same_dom_trans with footprint.
Qed.

Lemma merge_loop_same_dom fuel : forall m curr u m',
  merge_loop fuel m curr = Returned u m' -> same_dom m m'.
Proof.
  induction fuel as [|f IH]; intros until m'; simpl; [discriminate|].
  intros H. repeat dom_step; eauto 6 using same_dom_trans with footprint.
Qed.

Ltac dom_facts :=
  repeat match goal with
         | H : storeN _ _ _ _ = Some _ |- _ => apply storeN_same_dom in H
         | H : store64 _ _ _ = Some _ |- _ => apply storeN_same_dom in H
         | H : store32 _ _ _ = Some _ |- _ => apply storeN_same_dom in H
         | H : store8 _ _ _ = Some _ |- _ => apply storeN_same_dom in H
         | H : set_prev_next _ _ _ _ = Some _ |- _ =>
             apply set_prev_next_same_dom in H
         end.

Lemma unlink_node_same_dom m req d prev curr m' h :
  unlink_node m req d prev curr = Some (m', h) -> same_dom m m'.
Proof.
  unfold unlink_node. intros H. repeat dom_step; dom_facts;
    eauto 10 using same_dom_trans.
Qed.

Lemma lay_out_block_same_dom m req al curr m' p :
  lay_out_block m req al curr = Some (m', p) -> same_dom m m'.
Proof.
  unfold lay_out_block. intros H. repeat dom_step; dom_facts;
    eauto 10 using same_dom_trans.
Qed.

Lemma carve_same_dom m req al d prev curr m' h p :
  carve m req al d prev curr = Some (m', h, p) -> same_dom m m'.
Proof.
  unfold carve. intros H.
  destruct (unlink_node _ _ _ _ _) as [[m3 nh]|] eqn:E1; [|discriminate].
  destruct (lay_out_block _ _ _ _) as [[m6 r]|] eqn:E2; [|discriminate].
  inversion H; subst.
  eapply same_dom_trans;
    [eapply unlink_node_same_dom|eapply lay_out_block_same_dom]; eassumption.
Qed.

End Footprint.

Section CallFootprint.

Lemma keeps_region_refl st : keeps_region st st.
Proof. repeat split; auto using same_dom_refl; intros; tauto. Qed.

Lemma Alloc_keeps_region fuel size alignment st p st' :
  Alloc fuel size alignment st = Returned p st' -> keeps_region st st'.
Proof.
  unfold Alloc. destruct (size <=? 0); [discriminate|].
  destruct (_ || _); [discriminate|].
  destruct (find_fit _ _ _ _ _) as [[prev curr] ?| | |]; try discriminate.
  destruct (curr =? 0).
  - intros [= <- <-]. apply keeps_region_refl.
  - destruct (carve _ _ _ _ _ _) as [[[m' h] r]|] eqn:E; [|discriminate].
    intros [= <- <-]. repeat split; try reflexivity;
      apply (carve_same_dom _ _ _ _ _ _ _ _ _ E).
Qed.

Lemma InsertFreeMemBlock_keeps_region fuel block st u st' :
  InsertFreeMemBlock fuel block st = Returned u st' -> keeps_region st st'.
Proof.
  unfold InsertFreeMemBlock. destruct (load64 _ _); [|discriminate].
  destruct (insert_loop _ _ _ _ _ _ _) eqn:E; try discriminate.
  intros [= <- <-]. repeat split; try reflexivity;
    apply (insert_loop_same_dom _ _ _ _ _ _ _ _ _ E).
Qed.

Lemma MergeFreeBlocks_keeps_region fuel st u st' :
  MergeFreeBlocks fuel st = Returned u st' -> keeps_region st st'.
Proof.
  unfold MergeFreeBlocks. destruct (_ =? 0).
  - intros [= <- <-]. apply keeps_region_refl.
  - destruct (merge_loop _ _ _) eqn:E; try discriminate.
    intros [= <- <-]. repeat split; try reflexivity;
      apply (merge_loop_same_dom _ _ _ _ _ E).
Qed.

Lemma keeps_region_trans s1 s2 s3 :
  keeps_region s1 s2 -> keeps_region s2 s3 -> keeps_region s1 s3.
Proof.
  intros (A1 & B1 & C1) (A2 & B2 & C2). repeat split; try congruence;
    apply (same_dom_trans _ _ _ C1 C2).
Qed.

Lemma Free_keeps_region fuel block st u st' :
  Free fuel block st = Returned u st' -> keeps_region st st'.
Proof.
  unfold Free. destruct (block =? 0); [discriminate|].
  destruct (load8 _ _); [|discriminate].
  destruct (load32 _ _); [|discriminate].
  destruct (negb _); [discriminate|].
  destruct (load64 _ _); [|discriminate].
  destruct (store64 (heap st) _ _) as [m1|] eqn:E1; [|discriminate].
  destruct (store64 m1 _ _) as [m2|] eqn:E2; [|discriminate].
  unfold obind.
  destruct (InsertFreeMemBlock _ _ _) as [u1 s1| | |] eqn:Ei; try discriminate.
  intros Hm.
  apply InsertFreeMemBlock_keeps_region in Ei.
  apply MergeFreeBlocks_keeps_region in Hm.
  apply keeps_region_trans with (s2 := set_heap st m2).
  - repeat split; try reflexivity;
      apply (same_dom_trans _ _ _ (storeN_same_dom _ _ _ _ _ E1)
                                  (storeN_same_dom _ _ _ _ _ E2)).
  - eapply keeps_region_trans; eassumption.
Qed.

End CallFootprint.

(** * Move assignment onto a live allocator *)

Section MoveAssignment.

Variables (kPageSize a len : Z).
Hypothesis a_pos : 0 < a.







End MoveAssignment.



(** * Aligning a pointer *)

Section Alignment.

Lemma wrap_neg_pow2 k :
  0 <= k < 64 -> wrap (- 2 ^ k) = Z.ones (64 - k) * 2 ^ k.
Proof.
  intros Hk. rewrite Z.ones_equiv, <- Z.sub_1_r.
  assert (Hp : 0 < 2 ^ k) by (apply Z.pow_pos_nonneg; lia).
  assert (Hle : 2 ^ k < 2 ^ 64) by (apply Z.pow_lt_mono_r; lia).
  unfold wrap. rewrite Z.mul_sub_distr_r, <- Z.pow_add_r by lia.
  replace (64 - k + k) with 64 by lia.
  symmetry. apply Z.mod_unique with (q := -1); lia.
Qed.

(** Masking with [-2^k] rounds down to a multiple of [2^k]. *)
Lemma land_neg_pow2 y k :
  0 <= k < 64 -> 0 <= y < 2 ^ 64 ->
  Z.land y (wrap (- 2 ^ k)) = y / 2 ^ k * 2 ^ k.
Proof.
  intros Hk Hy. rewrite wrap_neg_pow2 by assumption.
  replace (y / 2 ^ k * 2 ^ k) with (Z.shiftl (Z.shiftr y k) k)
    by (rewrite Z.shiftl_mul_pow2, Z.shiftr_div_pow2 by lia; reflexivity).
  apply Z.bits_inj'. intros i Hi. rewrite Z.land_spec.
  destruct (Z_lt_le_dec i k) as [Hlt|Hge].
  - rewrite Z.mul_pow2_bits_low, Z.shiftl_spec_low by lia.
    apply andb_false_r.
  - rewrite Z.shiftl_spec, Z.shiftr_spec by lia.
    replace (i - k + k) with i by lia.
    replace i with (k + (i - k)) at 2 by lia.
    rewrite Z.mul_pow2_bits_add by lia.
    destruct (Z_lt_le_dec i 64) as [Hlt|Hge64].
    + rewrite Z.ones_spec_low by lia. apply andb_true_r.
    + rewrite Z.ones_spec_high by lia. rewrite andb_false_r.
      symmetry. destruct (Z.eq_dec y 0) as [->|Hne]; [apply Z.bits_0|].
      apply Z.bits_above_log2; [lia|].
      assert (Z.log2 y < 64) by (apply Z.log2_lt_pow2; lia). lia.
Qed.

(** What [std::align] computes as the aligned address. *)
Lemma align_up_spec ptr k :
  0 <= k < 64 -> 0 < ptr -> ptr + 2 ^ k <= 2 ^ 64 ->
  let x := Z.land (wrap (ptr - 1 + 2 ^ k)) (wrap (- 2 ^ k)) in
  ptr <= x < ptr + 2 ^ k /\ x mod 2 ^ k = 0.
Proof.
  intros Hk Hp Hfit x. subst x.
  assert (Ha : 0 < 2 ^ k) by (apply Z.pow_pos_nonneg; lia).
  rewrite (wrap_small (ptr - 1 + 2 ^ k)) by lia.
  rewrite land_neg_pow2 by lia.
  pose proof (Z.div_mod (ptr - 1 + 2 ^ k) (2 ^ k) ltac:(lia)) as Hdm.
  pose proof (Z.mod_pos_bound (ptr - 1 + 2 ^ k) (2 ^ k) Ha) as Hmb.
  split; [lia|]. apply Z.mod_mul. lia.
Qed.

End Alignment.

(** * Stores and loads of whole fields *)

Section Fields.

Lemma changes_only_refl W m : changes_only W m m.
Proof. split; [apply same_dom_refl|]. split; auto. Qed.

Lemma changes_only_trans W1 W2 m1 m2 m3 :
  changes_only W1 m1 m2 -> changes_only W2 m2 m3 ->
  changes_only (fun x => W1 x \/ W2 x) m1 m3.
Proof.
  intros (D1 & B1 & U1) (D2 & B2 & U2). split; [|split].
  - eapply same_dom_trans; eassumption.
  - auto.
  - intros x Hx. rewrite U2, U1; tauto.
Qed.

Lemma changes_only_weaken (W W' : Z -> Prop) m m' :
  (forall x, W x -> W' x) -> changes_only W m m' -> changes_only W' m m'.
Proof.
  intros Hs (D & B & U). split; [assumption|]. split; [assumption|].
  intros x Hx. apply U. auto.
Qed.

Lemma storeN_changes n m a v m' :
  storeN n m a v = Some m' -> changes_only (within a (Z.of_nat n)) m m'.
Proof.
  intros H. split; [|split].
  - eapply storeN_same_dom; eassumption.
  - intros Hb. eapply storeN_byte_ok; eassumption.
  - intros x Hx. apply (storeN_other _ _ _ _ _ _ H). unfold within in Hx. lia.
Qed.

Lemma changes_only_load k W m m' b :
  changes_only W m m' ->
  (forall x, within b (Z.of_nat k) x -> ~ W x) ->
  loadN k m' b = loadN k m b.
Proof.
  intros (_ & _ & U) Hd. apply loadN_ext. intros i Hi.
  apply U, Hd. unfold within. lia.
Qed.

Lemma changes_only_mapped W m m' a n :
  changes_only W m m' -> mapped m a n -> mapped m' a n.
Proof.
  intros (D & _) Hm i Hi Hn. apply (Hm i Hi). now apply D.
Qed.

(** A store into mapped bytes succeeds. *)
Lemma store_mapped n m a v :
  mapped m a (Z.of_nat n) ->
  exists m', storeN n m a v = Some m' /\
             loadN n m' a = Some (v mod 256 ^ Z.of_nat n) /\
             changes_only (within a (Z.of_nat n)) m m'.
Proof.
  intros Hm. destruct (storeN_ok n m a v Hm) as [m' E]. exists m'.
  split; [assumption|]. split.
  - eapply loadN_storeN; eassumption.
  - eapply storeN_changes; eassumption.
Qed.

Lemma load64_range m a v : byte_ok m -> load64 m a = Some v -> 0 <= v < 2 ^ 64.
Proof. intros Hb H. apply (loadN_bound 8 _ _ _ Hb H). Qed.

Lemma load8_range m a v : byte_ok m -> load8 m a = Some v -> 0 <= v < 256.
Proof. intros Hb H. apply (loadN_bound 1 _ _ _ Hb H). Qed.

End Fields.

(** * Laying out an allocated block *)

Section LayOut.

Lemma lay_out_block_spec m req size k c :
  byte_ok m -> 0 <= k < 64 -> 0 < size ->
  req = size + sizeof_MemBlock + 2 ^ k + 1 ->
  0 < c -> c + req <= 2 ^ 64 -> mapped m c req ->
  exists m' p,
    lay_out_block m req (2 ^ k) c = Some (m', p) /\
    c + 17 <= p < c + 17 + 2 ^ k /\ p mod 2 ^ k = 0 /\
    load32 m' c = Some kMemMagicNum /\
    load64 m' (c + 8) = Some (req - 16) /\
    load8 m' (p - 1) = Some ((p - c - 17) mod 256) /\
    changes_only (fun x => within c 16 x \/ x = p - 1) m m'.
Proof.
  intros Hb Hk Hsz Hreq Hc Hfit Hm. unfold sizeof_MemBlock in Hreq.
  assert (Ha : 0 < 2 ^ k) by (apply Z.pow_pos_nonneg; lia).
  set (al := 2 ^ k) in *.
  destruct (store_mapped 8 m (c + 8) (req - 16)) as (m4 & E4 & L4 & C4).
  { eapply mapped_sub; [exact Hm| |]; simpl; lia. }
  destruct (store_mapped 4 m4 c kMemMagicNum) as (m5 & E5 & L5 & C5).
  { eapply changes_only_mapped; [exact C4|].
    eapply mapped_sub; [exact Hm| |]; simpl; lia. }
  assert (L5' : load64 m5 (c + 8) = Some (req - 16)).
  { unfold load64. rewrite (changes_only_load 8 _ _ _ _ C5).
    - rewrite L4. f_equal. apply Z.mod_small.
      change (256 ^ Z.of_nat 8) with (2 ^ 64). lia.
    - unfold within. simpl. intros; lia. }
  pose proof (align_up_spec (c + 17) k Hk ltac:(lia) ltac:(fold al; lia))
    as [Hx Hxm].
  fold al in Hx, Hxm.
  set (x := Z.land (wrap (c + 17 - 1 + al)) (wrap (- al))) in *.
  destruct (store_mapped 1 m5 (x - 1) (x - (c + 17))) as (m6 & E6 & L6 & C6).
  { eapply changes_only_mapped; [exact C5|].
    eapply changes_only_mapped; [exact C4|].
    eapply mapped_sub; [exact Hm| |]; simpl; lia. }
  exists m6, x.
  split.
  - unfold lay_out_block, padd, off_hsize, off_magic, sizeof_MemBlockHeader.
    rewrite (wrap_small (c + 8)), (wrap_small (req - 16)) by lia.
    unfold store64. rewrite E4.
    rewrite Z.add_0_r, (wrap_small c) by lia. unfold store32. rewrite E5.
    rewrite L5'.
    rewrite (wrap_small (c + 16)), (wrap_small (c + 16 + 1)) by lia.
    rewrite (wrap_small (req - 16 - 1)) by lia.
    replace (req - 16 - 1 - al) with size by lia.
    rewrite (wrap_small size) by lia.
    unfold std_align.
    destruct (Z.ltb_spec (req - 16 - 1) size); [lia|].
    replace (c + 16 + 1 - 1 + al) with (c + 17 - 1 + al) by lia. fold x.
    replace (c + 16 + 1) with (c + 17) by lia.
    rewrite (wrap_small (x - (c + 17))) by lia.
    replace (req - 16 - 1 - size) with al by lia.
    rewrite (wrap_small al) by lia.
    destruct (Z.gtb_spec (x - (c + 17)) al); [lia|].
    rewrite (wrap_small (req - 16 - 1 - (x - (c + 17)))) by lia.
    rewrite (wrap_small (x + -1)) by lia.
    replace (req - 16 - 1 - (req - 16 - 1 - (x - (c + 17))))
      with (x - (c + 17)) by lia.
    rewrite (wrap_small (x - (c + 17))) by lia.
    replace (x + -1) with (x - 1) by lia.
    unfold store8. rewrite E6. reflexivity.
  - split; [lia|]. split; [exact Hxm|].
    split; [|split; [|split]].
    + unfold load32. rewrite (changes_only_load 4 _ _ _ _ C6).
      * rewrite L5. reflexivity.
      * unfold within. simpl. intros; lia.
    + unfold load64. rewrite (changes_only_load 8 _ _ _ _ C6).
      * exact L5'.
      * unfold within. simpl. intros; lia.
    + unfold load8. rewrite L6. f_equal. f_equal. lia.
    + eapply changes_only_weaken;
        [|exact (changes_only_trans _ _ _ _ _
                   (changes_only_trans _ _ _ _ _ C4 C5) C6)].
      unfold within. simpl. intros y Hy. lia.
Qed.

End LayOut.

(** * Unlinking the chosen node *)

Section Unlink.

Lemma node_mapped m a s n : node m a s n -> mapped m a 16.
Proof.
  intros (_ & _ & Hs & Hn) i Hi. unfold off_size, off_next in *.
  apply loadN_mapped in Hs, Hn.
  destruct (Z_lt_le_dec i 8).
  - replace (a + i) with (a + 0 + i) by lia. apply Hs. simpl. lia.
  - replace (a + i) with (a + 8 + (i - 8)) by lia. apply Hn. simpl. lia.
Qed.

(** A node is unaffected by changes outside its sixteen bytes. *)
Lemma node_frame W m m' a s n :
  changes_only W m m' -> (forall x, within a 16 x -> ~ W x) ->
  node m a s n -> node m' a s n.
Proof.
  intros C Hd (H1 & H2 & Hs & Hn). unfold node, off_size, off_next in *.
  split; [assumption|]. split; [assumption|]. unfold load64 in *.
  rewrite !(changes_only_load 8 _ _ _ _ C); [auto| |];
    intros x Hx; apply Hd; unfold within in *; simpl in Hx; lia.
Qed.

Lemma set_prev_next_spec m d prev v c :
  byte_ok m -> 0 <= v < 2 ^ 64 ->
  (forall q, prev = Some q -> exists qs, node m q qs c) ->
  exists m' h',
    set_prev_next m d prev v = Some (m', h') /\
    (prev = None -> h' = v /\ m' = m) /\
    (forall q, prev = Some q ->
       h' = d /\ exists qs, node m q qs c /\ node m' q qs v) /\
    changes_only (fun x => exists q, prev = Some q /\ within (q + 8) 8 x) m m'.
Proof.
  intros Hb Hv Hp. destruct prev as [q|]; cbn [set_prev_next].
  - destruct (Hp q eq_refl) as (qs & Hq). pose proof Hq as (Hq1 & Hq2 & Hqs & Hqn).
    unfold sizeof_MemBlock, off_size, off_next in *.
    destruct (store_mapped 8 m (q + 8) v) as (m' & E & L & C).
    { eapply mapped_sub; [exact (node_mapped _ _ _ _ Hq)| |]; simpl; lia. }
    exists m', d. unfold padd, off_next. rewrite wrap_small by lia.
    unfold store64. rewrite E. split; [reflexivity|].
    split; [discriminate|]. split.
    + intros q' [= <-]. split; [reflexivity|]. exists qs. split; [exact Hq|].
      unfold node, sizeof_MemBlock, off_size, off_next.
      split; [assumption|]. split; [assumption|]. split.
      * unfold load64. rewrite (changes_only_load 8 _ _ _ _ C); [exact Hqs|].
        unfold within. simpl. intros; lia.
      * unfold load64. rewrite L. f_equal. apply Z.mod_small.
        change (256 ^ Z.of_nat 8) with (2 ^ 64). lia.
    + eapply changes_only_weaken; [|exact C]. intros x Hx. eauto.
  - exists m, v. split; [reflexivity|]. split; [auto|].
    split; [discriminate|]. apply changes_only_refl.
Qed.

End Unlink.

Section UnlinkNode.

Lemma unlink_node_spec m req d prev c cs cn :
  byte_ok m -> node m c cs cn ->
  16 <= req <= cs -> c + cs + 16 <= 2 ^ 64 -> mapped m c (cs + 16) ->
  (forall q, prev = Some q -> q + 16 <= c /\ exists qs, node m q qs c) ->
  exists m' h',
    unlink_node m req d prev c = Some (m', h') /\
    (prev = None -> h' = if req <? cs then c + req else cn) /\
    (forall q, prev = Some q ->
       h' = d /\ exists qs, node m q qs c /\
                 node m' q qs (if req <? cs then c + req else cn)) /\
    (req < cs -> node m' (c + req) (cs - req) cn) /\
    changes_only (fun x => (req < cs /\ within (c + req) 16 x) \/
                           (exists q, prev = Some q /\ within (q + 8) 8 x)) m m'.
Proof.
  intros Hb Hc Hreq Hfit Hm Hp.
  pose proof Hc as (Hc1 & Hc2 & Hcs & Hcn).
  unfold sizeof_MemBlock, off_size, off_next in *.
  pose proof (load64_range _ _ _ Hb Hcn) as Hcnr.
  assert (Hp' : forall q, prev = Some q -> exists qs, node m q qs c).
  { intros q Hq. now destruct (Hp q Hq). }
  unfold unlink_node, padd, off_size, off_next.
  rewrite (wrap_small (c + 0)) by lia. rewrite Hcs.
  destruct (Z.ltb_spec req cs) as [Hlt|Hge].
  - (* split *)
    rewrite (wrap_small (c + req)), (wrap_small (c + req + 0)),
      (wrap_small (c + req + 8)), (wrap_small (cs - req)),
      (wrap_small (c + 8)) by lia.
    destruct (store_mapped 8 m (c + req + 0) (cs - req)) as (m1 & E1 & L1 & C1).
    { eapply mapped_sub; [exact Hm| |]; simpl; lia. }
    unfold store64. rewrite E1.
    assert (Hcn1 : load64 m1 (c + 8) = Some cn).
    { unfold load64. rewrite (changes_only_load 8 _ _ _ _ C1); [exact Hcn|].
      unfold within. simpl. intros; lia. }
    rewrite Hcn1.
    destruct (store_mapped 8 m1 (c + req + 8) cn) as (m2 & E2 & L2 & C2).
    { eapply changes_only_mapped; [exact C1|].
      eapply mapped_sub; [exact Hm| |]; simpl; lia. }
    rewrite E2.
    pose proof (changes_only_trans _ _ _ _ _ C1 C2) as C12.
    assert (Hp2 : forall q, prev = Some q -> exists qs, node m2 q qs c).
    { intros q Hq. destruct (Hp q Hq) as (Hqc & qs & Hn). exists qs.
      eapply node_frame; [exact C12| |exact Hn].
      unfold within. simpl. intros; lia. }
    destruct (set_prev_next_spec m2 d prev (c + req) c) as (m3 & h' & E3 & N3 & P3 & C3);
      [destruct C12 as (_ & B & _); auto|lia|exact Hp2|].
    rewrite E3. exists m3, h'. split; [reflexivity|].
    split; [intros Hn; now destruct (N3 Hn)|]. split; [|split].
    + intros q Hq. destruct (P3 q Hq) as (-> & qs & _ & Hq3).
      split; [reflexivity|]. destruct (Hp q Hq) as (Hqc & qs' & Hn).
      exists qs'. split; [exact Hn|].
      destruct Hq3 as (? & ? & Hs3 & Hn3). destruct Hn as (? & ? & Hs & _).
      unfold node, sizeof_MemBlock, off_size, off_next in *.
      repeat (split; [assumption|]). split; [|exact Hn3].
      unfold load64 in *.
      rewrite (changes_only_load 8 _ _ _ _ C3).
      * rewrite (changes_only_load 8 _ _ _ _ C12); [exact Hs|].
        unfold within. simpl. intros; lia.
      * intros x Hx (q' & Hq' & Hw). assert (q' = q) by congruence. subst q'.
        unfold within in *. simpl in Hx. lia.
    + intros _. unfold node, sizeof_MemBlock, off_size, off_next.
      split; [lia|]. split; [lia|]. unfold load64. split.
      * rewrite (changes_only_load 8 _ _ _ _ C3).
        -- rewrite (changes_only_load 8 _ _ _ _ C2).
           ++ rewrite L1. f_equal. apply Z.mod_small.
              change (256 ^ Z.of_nat 8) with (2 ^ 64). lia.
           ++ unfold within. simpl. intros; lia.
        -- intros x Hx (q & Hq & Hw). destruct (Hp q Hq) as (Hqc & _).
           unfold within in *. simpl in Hx. lia.
      * rewrite (changes_only_load 8 _ _ _ _ C3).
        -- rewrite L2. f_equal. apply Z.mod_small.
           change (256 ^ Z.of_nat 8) with (2 ^ 64). lia.
        -- intros x Hx (q & Hq & Hw). destruct (Hp q Hq) as (Hqc & _).
           unfold within in *. simpl in Hx. lia.
    + eapply changes_only_weaken;
        [|exact (changes_only_trans _ _ _ _ _ C12 C3)].
      unfold within. simpl. intros x [[Hx|Hx]|Hx]; [left; lia|left; lia|now right].
  - (* consumed *)
    rewrite (wrap_small (c + 8)) by lia. rewrite Hcn.
    destruct (set_prev_next_spec m d prev cn c) as (m3 & h' & E3 & N3 & P3 & C3);
      [assumption|lia|exact Hp'|].
    rewrite E3. exists m3, h'. split; [reflexivity|].
    split; [intros Hn; now destruct (N3 Hn)|]. split; [|split].
    + intros q Hq. destruct (P3 q Hq) as (-> & qs & Hn & Hq3). eauto.
    + lia.
    + eapply changes_only_weaken; [|exact C3]. intros x Hx. now right.
Qed.

End UnlinkNode.

(** * The first-fit search *)

Section FirstFit.

Lemma find_fit_spec l : forall fuel m req prev h,
  lseg m h l 0 -> (List.length l < fuel)%nat ->
  find_fit fuel m req prev h = Returned (first_fit req prev l) m.
Proof.
  induction l as [|[a s] l IH]; intros fuel m req prev h Hl Hf;
    (destruct fuel as [|fuel]; [simpl in Hf; lia|]); cbn [find_fit first_fit].
  - cbn [lseg] in Hl. subst h. reflexivity.
  - cbn [lseg] in Hl. destruct Hl as (-> & n & Hn & Hl).
    pose proof Hn as (Ha1 & Ha2 & Hs & Hx).
    unfold sizeof_MemBlock in Ha2.
    destruct (Z.eqb_spec a 0); [lia|].
    unfold padd. rewrite !wrap_small by (unfold off_size, off_next; lia).
    rewrite Hs. destruct (s >=? req); [reflexivity|].
    rewrite Hx. apply IH; [assumption|simpl in Hf; lia].
Qed.

Lemma last_cons_default {A} (l : list A) : forall x d,
  last (x :: l) d = last l x.
Proof.
  induction l as [|y l IH]; intros x d; [reflexivity|].
  change (last (x :: y :: l) d) with (last (y :: l) d).
  rewrite !IH. reflexivity.
Qed.

(** The search stops at the node [fitting_node] names. *)
Lemma first_fit_fitting req l : forall prev,
  (forall a s, In (a, s) l -> a <> 0) ->
  match fitting_node req l with
  | None => snd (first_fit req prev l) = 0
  | Some (c, cs) =>
      snd (first_fit req prev l) = c /\ c <> 0 /\ req <= cs /\
      exists l1 l2,
        l = l1 ++ (c, cs) :: l2 /\
        Forall (fun b => snd b < req) l1 /\
        fst (first_fit req prev l) = last (map (fun b => Some (fst b)) l1) prev /\
        take_first_fit req l =
          l1 ++ (if req <? cs then [(c + req, cs - req)] else []) ++ l2
  end.
Proof.
  induction l as [|[a s] l IH]; intros prev Hnz; cbn [fitting_node first_fit].
  - reflexivity.
  - destruct (Z.geb_spec s req) as [Hge|Hlt].
    + cbn [snd fst]. split; [reflexivity|]. split; [eapply Hnz; now left|].
      split; [lia|]. exists [], l. cbn [app map last take_first_fit].
      split; [reflexivity|]. split; [constructor|]. split; [reflexivity|].
      destruct (Z.geb_spec s req); [|lia].
      destruct (req <? s); reflexivity.
    + specialize (IH (Some a) (fun a' s' H => Hnz a' s' (or_intror H))).
      destruct (fitting_node req l) as [[c cs]|]; [|exact IH].
      destruct IH as (E1 & Hc & Hcs & l1 & l2 & -> & Hall & Hp & Ht).
      split; [exact E1|]. split; [exact Hc|]. split; [exact Hcs|].
      exists ((a, s) :: l1), l2. split; [reflexivity|].
      split; [constructor; [cbn; lia|exact Hall]|]. split.
      * rewrite Hp. cbn [map fst]. symmetry. apply last_cons_default.
      * cbn [take_first_fit]. destruct (Z.geb_spec s req); [lia|].
        rewrite Ht. reflexivity.
Qed.

Lemma fitting_node_None req l :
  fitting_node req l = None <-> Forall (fun b => snd b < req) l.
Proof.
  induction l as [|[a s] l IH]; cbn [fitting_node].
  - split; [constructor|reflexivity].
  - destruct (Z.geb_spec s req).
    + split; [discriminate|]. intros HF. inversion HF; subst. cbn in *. lia.
    + rewrite IH. split.
      * intros HF. constructor; [cbn; lia|exact HF].
      * intros HF. now inversion HF.
Qed.

End FirstFit.

(** * Geometry of a layout *)

Section Geometry.

Lemma tiles_app L1 : forall L2 a e,
  tiles (L1 ++ L2) a e <-> exists mid, tiles L1 a mid /\ tiles L2 mid e.
Proof.
  induction L1 as [|b L1 IH]; intros L2 a e; cbn [app tiles].
  - split.
    + intros H. exists a. auto.
    + intros (mid & -> & H). exact H.
  - rewrite IH. split.
    + intros (Ha & Hs & mid & H1 & H2). exists mid. auto.
    + intros (mid & (Ha & Hs & H1) & H2). eauto.
Qed.

Lemma tiles_le L : forall a e, tiles L a e -> a <= e.
Proof.
  induction L as [|b L IH]; intros a e; cbn [tiles].
  - lia.
  - intros (_ & Hs & Ht). apply IH in Ht. lia.
Qed.

Lemma tiles_In L : forall a e b,
  tiles L a e -> In b L -> a <= blk_addr b /\ blk_addr b + blk_size b <= e.
Proof.
  induction L as [|b0 L IH]; intros a e b Ht Hin; [contradiction|].
  cbn [tiles] in Ht. destruct Ht as (Ha & Hs & Ht).
  destruct Hin as [->|Hin].
  - apply tiles_le in Ht. lia.
  - destruct (IH _ _ _ Ht Hin). lia.
Qed.

Lemma frees_app L1 L2 : frees (L1 ++ L2) = frees L1 ++ frees L2.
Proof.
  induction L1 as [|[a s|a s p] L1 IH]; cbn [app frees]; [reflexivity| |exact IH].
  rewrite IH. reflexivity.
Qed.

Lemma In_frees L a s : In (a, s) (frees L) <-> In (FreeB a s) L.
Proof.
  induction L as [|[a' s'|a' s' p'] L IH]; cbn [frees In].
  - tauto.
  - rewrite IH. split; intros [H|H]; auto; left; congruence.
  - rewrite IH. split; [auto|]. intros [H|H]; [discriminate|assumption].
Qed.

Lemma no_adjacent_free_tail b L : no_adjacent_free (b :: L) -> no_adjacent_free L.
Proof. destruct b, L as [|[]]; cbn; tauto. Qed.

Lemma no_adjacent_free_app_r L1 : forall L2,
  no_adjacent_free (L1 ++ L2) -> no_adjacent_free L2.
Proof.
  induction L1 as [|b L1 IH]; intros L2 H; [exact H|].
  apply IH. eapply no_adjacent_free_tail. exact H.
Qed.

(** The free list of a tiling layout is gapped. *)
Lemma frees_gapped L : forall a e,
  tiles L a e -> no_adjacent_free L -> used_sized L ->
  gapped (frees L) /\
  match frees L with
  | [] => True
  | (f, _) :: _ =>
      a <= f /\ (match L with FreeB _ _ :: _ => True | _ => a + 19 <= f end)
  end.
Proof.
  induction L as [|b L IH]; intros a e Ht Hn Hu; cbn [frees]; [auto|].
  cbn [tiles] in Ht. destruct Ht as (Ha & Hs & Ht).
  assert (Hu' : used_sized L) by (intros x y z H; eapply Hu; right; exact H).
  specialize (IH _ _ Ht (no_adjacent_free_tail _ _ Hn) Hu').
  destruct IH as (Hg & Hf).
  destruct b as [f s|u s p]; cbn [blk_addr blk_size] in *.
  - subst f. cbn [gapped]. split; [|split; [lia|exact I]].
    split; [assumption|]. split; [|assumption].
    destruct L as [|[f' s'|u' s' p'] L]; cbn [frees] in *; [exact I|contradiction|].
    destruct (frees L) as [|[f'' s''] l]; [exact I|]. lia.
  - split; [assumption|].
    assert (19 <= s) by (eapply Hu; left; reflexivity).
    destruct (frees L) as [|[f' s'] l]; [exact I|]. lia.
Qed.

(** In a gapped list every node starts well after an earlier node ends. *)
Lemma gapped_later a s l :
  gapped ((a, s) :: l) -> forall a' s', In (a', s') l -> a + s + 19 <= a'.
Proof.
  revert a s. induction l as [|[b t] l IH]; intros a s Hg a' s' Hin;
    [contradiction|].
  cbn [gapped] in Hg. destruct Hg as (Hs & Hab & Ht & Hbl & Hg).
  destruct Hin as [[= <- <-]|Hin]; [assumption|].
  assert (b + t + 19 <= a').
  { eapply IH; [|exact Hin]. cbn [gapped]. auto. }
  lia.
Qed.

Lemma gapped_tail b l : gapped (b :: l) -> gapped l.
Proof. destruct b. cbn [gapped]. tauto. Qed.

Lemma gapped_app_r l1 : forall l2, gapped (l1 ++ l2) -> gapped l2.
Proof.
  induction l1 as [|b l1 IH]; intros l2 H; [exact H|].
  apply IH. eapply gapped_tail. exact H.
Qed.

Lemma gapped_app_l l1 : forall l2, gapped (l1 ++ l2) -> gapped l1.
Proof.
  induction l1 as [|[a s] l1 IH]; intros l2 H; [exact I|].
  cbn [app gapped] in *. destruct H as (Hs & Hn & Hg).
  split; [assumption|]. split; [|eapply IH; exact Hg].
  destruct l1 as [|[a' s'] l1]; [exact I|exact Hn].
Qed.

(** Nodes before a given one end well before it starts. *)
Lemma gapped_earlier l1 : forall c cs l2,
  gapped (l1 ++ (c, cs) :: l2) ->
  forall a s, In (a, s) l1 -> a + s + 19 <= c.
Proof.
  induction l1 as [|[b t] l1 IH]; intros c cs l2 Hg a s Hin; [contradiction|].
  destruct Hin as [[= <- <-]|Hin].
  - eapply (gapped_later _ _ _ Hg). apply in_or_app. right. left. reflexivity.
  - eapply IH; [|exact Hin]. eapply gapped_tail. exact Hg.
Qed.

End Geometry.

(** * The bytes of a loaded value *)

Section Bytes.

Lemma loadN_byte n : forall m a v i,
  byte_ok m -> loadN n m a = Some v -> 0 <= i < Z.of_nat n ->
  m (a + i) = Some ((v / 256 ^ i) mod 256).
Proof.
  induction n as [|k IH]; intros m a v i Hb Hl Hi; [lia|].
  rewrite loadN_S in Hl.
  destruct (m a) as [b|] eqn:Ha; [|discriminate].
  destruct (loadN k m (a + 1)) as [r|] eqn:Hr; [|discriminate].
  assert (Hv : v = b + 256 * r) by congruence. subst v.
  pose proof (Hb _ _ Ha) as Hbr.
  destruct (Z.eq_dec i 0) as [->|Hne].
  - rewrite Z.add_0_r, Ha. f_equal. rewrite Z.pow_0_r, Z.div_1_r.
    apply Z.mod_unique with (q := r); lia.
  - replace (a + i) with (a + 1 + (i - 1)) by lia.
    rewrite (IH _ _ _ (i - 1) Hb Hr) by lia. f_equal. f_equal.
    assert (Hp : 0 < 256 ^ (i - 1)) by (apply Z.pow_pos_nonneg; lia).
    replace (256 ^ i) with (256 * 256 ^ (i - 1)).
    + rewrite <- Z.div_div by lia. f_equal.
      apply Z.div_unique with (r := b); lia.
    + rewrite <- Z.pow_succ_r by lia. f_equal. lia.
Qed.

Lemma low32_bytes n :
  n mod 2 ^ 32 =
  (n / 256 ^ 0) mod 256 + 256 * ((n / 256 ^ 1) mod 256)
  + 65536 * ((n / 256 ^ 2) mod 256) + 16777216 * ((n / 256 ^ 3) mod 256).
Proof.
  change (2 ^ 32) with (256 * (256 * (256 * 256))).
  rewrite !Z.rem_mul_r by lia. rewrite !Z.div_div by lia.
  change (256 ^ 0) with 1. change (256 ^ 1) with 256.
  change (256 ^ 2) with (256 * 256). change (256 ^ 3) with (256 * 256 * 256).
  rewrite Z.div_1_r. ring.
Qed.

(** A record shorter than [sizeof(MemBlock)] overhangs what follows it; the
    four bytes at its end then never read as the magic number, provided
    the record's [next] is a pointer that avoids the pattern. *)
Lemma overhang_not_magic m f sf n v :
  byte_ok m ->
  load64 m f = Some sf -> load64 m (f + 8) = Some n ->
  0 < sf < 16 -> 0 <= n < 2 ^ 47 -> magic_free n ->
  load32 m (f + sf) = Some v -> v <> kMemMagicNum.
Proof.
  intros Hb Hs Hn Hsf Hnr [Hm0 Hm1] Hv. unfold kMemMagicNum in *.
  pose proof (loadN_bound 4 _ _ _ Hb Hv) as Hvr.
  change (256 ^ Z.of_nat 4) with (2 ^ 32) in Hvr.
  pose proof (fun i (H : 0 <= i < 4) => loadN_byte 4 m (f + sf) v i Hb Hv H) as Bv.
  pose proof (fun i (H : 0 <= i < 8) => loadN_byte 8 m f sf i Hb Hs H) as Bs.
  pose proof (fun i (H : 0 <= i < 8) => loadN_byte 8 m (f + 8) n i Hb Hn H) as Bn.
  assert (Hcase : sf < 8 \/ sf = 8 \/ sf = 9 \/ 10 <= sf) by lia.
  destruct Hcase as [Hlt|[->|[->|Hge]]].
  - (* the byte under the magic field is a zero byte of [size] *)
    specialize (Bv 0 ltac:(lia)). specialize (Bs sf ltac:(lia)).
    rewrite Z.add_0_r in Bv. rewrite Bs in Bv.
    assert (Hz : sf / 256 ^ sf = 0).
    { apply Z.div_small. split; [lia|].
      assert (256 ^ 1 <= 256 ^ sf) by (apply Z.pow_le_mono_r; lia). lia. }
    rewrite Hz in Bv. intros ->. discriminate.
  - (* the magic field holds the low half of [next] *)
    intros ->.
    assert (E : forall j, 0 <= j < 4 ->
                (3735928559 / 256 ^ j) mod 256 = (n / 256 ^ j) mod 256).
    { intros j Hj. specialize (Bv j ltac:(lia)).
      specialize (Bn j ltac:(lia)).
      replace (f + 8 + j) with (f + 8 + j) in Bv by lia. congruence. }
    pose proof (E 0 ltac:(lia)) as E0. pose proof (E 1 ltac:(lia)) as E1.
    pose proof (E 2 ltac:(lia)) as E2. pose proof (E 3 ltac:(lia)) as E3.
    apply Hm0. rewrite low32_bytes, <- E0, <- E1, <- E2, <- E3. reflexivity.
  - (* the magic field holds bytes one to four of [next] *)
    intros ->.
    assert (E : forall j, 0 <= j < 4 ->
                (3735928559 / 256 ^ j) mod 256 = (n / 256 ^ (1 + j)) mod 256).
    { intros j Hj. specialize (Bv j ltac:(lia)).
      specialize (Bn (1 + j) ltac:(lia)).
      replace (f + 8 + (1 + j)) with (f + 9 + j) in Bn by lia. congruence. }
    pose proof (E 0 ltac:(lia)) as E0. pose proof (E 1 ltac:(lia)) as E1.
    pose proof (E 2 ltac:(lia)) as E2. pose proof (E 3 ltac:(lia)) as E3.
    apply Hm1. rewrite low32_bytes.
    assert (D : forall j, 0 <= j -> n / 256 / 256 ^ j = n / 256 ^ (1 + j)).
    { intros j Hj. rewrite Z.div_div by (try apply Z.pow_pos_nonneg; lia).
      rewrite Z.pow_add_r by lia. reflexivity. }
    rewrite !D by lia. rewrite <- E0, <- E1, <- E2, <- E3. reflexivity.
  - (* a byte of the magic field is one of the top three bytes of [next] *)
    intros ->.
    assert (Hj : exists j, 0 <= j < 4 /\ 5 <= sf - 8 + j <= 7 /\
                           128 <= (3735928559 / 256 ^ j) mod 256).
    { assert (Hc : sf = 10 \/ sf = 11 \/ sf = 12 \/ 13 <= sf) by lia.
      destruct Hc as [->|[->|[->|Hc]]].
      - exists 3. repeat split; try lia. vm_compute. discriminate.
      - exists 2. repeat split; try lia. vm_compute. discriminate.
      - exists 1. repeat split; try lia. vm_compute. discriminate.
      - exists 0. repeat split; try lia. vm_compute. discriminate. }
    destruct Hj as (j & Hj & Hk & Hbig).
    specialize (Bv j ltac:(lia)).
    specialize (Bn (sf - 8 + j) ltac:(lia)).
    replace (f + 8 + (sf - 8 + j)) with (f + sf + j) in Bn by lia.
    assert (E : (3735928559 / 256 ^ j) mod 256
                = (n / 256 ^ (sf - 8 + j)) mod 256) by congruence.
    assert (Hsmall : n / 256 ^ (sf - 8 + j) < 128).
    { apply Z.div_lt_upper_bound; [apply Z.pow_pos_nonneg; lia|].
      assert (256 ^ 5 <= 256 ^ (sf - 8 + j)) by (apply Z.pow_le_mono_r; lia).
      change (256 ^ 5) with 1099511627776 in *.
      change (2 ^ 47) with 140737488355328 in *. nia. }
    assert (0 <= n / 256 ^ (sf - 8 + j))
      by (apply Z.div_pos; [lia|apply Z.pow_pos_nonneg; lia]).
    rewrite (Z.mod_small (n / 256 ^ (sf - 8 + j)) 256) in E by lia. lia.
Qed.

End Bytes.

(** * List segments in memory *)

Section Segments.

Lemma lseg_app m l1 : forall h l2 t,
  lseg m h (l1 ++ l2) t <-> exists mid, lseg m h l1 mid /\ lseg m mid l2 t.
Proof.
  induction l1 as [|[a s] l1 IH]; intros h l2 t; cbn [app lseg].
  - split.
    + intros H. exists h. auto.
    + intros (mid & -> & H). exact H.
  - split.
    + intros (-> & n & Hn & Hl). apply IH in Hl. destruct Hl as (mid & H1 & H2).
      exists mid. split; [|exact H2]. split; [reflexivity|]. eauto.
    + intros (mid & (-> & n & Hn & H1) & H2). split; [reflexivity|].
      exists n. split; [exact Hn|]. apply IH. eauto.
Qed.

Lemma lseg_frame W m m' l : forall h t,
  changes_only W m m' ->
  (forall a s, In (a, s) l -> forall x, within a 16 x -> ~ W x) ->
  lseg m h l t -> lseg m' h l t.
Proof.
  induction l as [|[a s] l IH]; intros h t C Hd; cbn [lseg]; [auto|].
  intros (-> & n & Hn & Hl). split; [reflexivity|]. exists n. split.
  - eapply node_frame; [exact C| |exact Hn]. apply (Hd a s). now left.
  - apply IH; [exact C| |exact Hl]. intros a' s' Hin. apply (Hd a' s'). now right.
Qed.

(** Every node of a null-terminated list points to null or to a node. *)
Lemma lseg_In_node m l : forall h a s,
  lseg m h l 0 -> In (a, s) l ->
  exists n, node m a s n /\ (n = 0 \/ exists s', In (n, s') l).
Proof.
  induction l as [|[b t] l IH]; intros h a s Hl Hin; [contradiction|].
  cbn [lseg] in Hl. destruct Hl as (-> & n & Hn & Hl).
  destruct Hin as [[= <- <-]|Hin].
  - exists n. split; [exact Hn|].
    destruct l as [|[c u] l]; cbn [lseg] in Hl.
    + now left.
    + destruct Hl as (-> & _). right. exists u. right. now left.
  - destruct (IH _ _ _ Hl Hin) as (n' & Hn' & [->|(s' & Hs')]).
    + exists 0. auto.
    + exists n'. split; [exact Hn'|]. right. exists s'. now right.
Qed.

Lemma lseg_head_nonzero m h l t a s l' :
  l = (a, s) :: l' -> lseg m h l t -> h = a /\ h <> 0.
Proof.
  intros -> (-> & n & (Hp & _) & _). split; [reflexivity|lia].
Qed.

Lemma lseg_nonzero m l : forall h t a s,
  lseg m h l t -> In (a, s) l -> a <> 0.
Proof.
  induction l as [|[b u] l IH]; intros h t a s Hl Hin; [contradiction|].
  cbn [lseg] in Hl. destruct Hl as (-> & n & (Hp & _) & Hl).
  destruct Hin as [[= <- <-]|Hin]; [lia|]. eapply IH; eassumption.
Qed.

End Segments.

(** * Blocks around a free block *)

Section Around.

Lemma frees_split L : forall l1 c cs l2,
  frees L = l1 ++ (c, cs) :: l2 ->
  exists L1 L2, L = L1 ++ FreeB c cs :: L2 /\ frees L1 = l1 /\ frees L2 = l2.
Proof.
  induction L as [|[a s|a s p] L IH]; intros l1 c cs l2 E; cbn [frees] in E.
  - destruct l1; discriminate.
  - destruct l1 as [|x l1]; cbn [app] in E.
    + injection E as -> -> <-. exists [], L. auto.
    + injection E as <- E. destruct (IH _ _ _ _ E) as (L1 & L2 & -> & <- & <-).
      exists (FreeB a s :: L1), L2. auto.
  - destruct (IH _ _ _ _ E) as (L1 & L2 & -> & <- & <-).
    exists (UsedB a s p :: L1), L2. auto.
Qed.

(** What follows a free block starts with a used block. *)
Lemma after_free La f sf Lb a e :
  tiles (La ++ FreeB f sf :: Lb) a e ->
  no_adjacent_free (La ++ FreeB f sf :: Lb) ->
  used_sized (La ++ FreeB f sf :: Lb) ->
  forall b, In b Lb ->
    (exists s p, b = UsedB (f + sf) s p /\
                 exists Lb', Lb = b :: Lb') \/
    f + sf + 19 <= blk_addr b.
Proof.
  intros Ht Hn Hu b Hin.
  apply tiles_app in Ht. destruct Ht as (mid & _ & Ht).
  cbn [tiles blk_addr blk_size] in Ht. destruct Ht as (-> & Hs & Ht).
  apply no_adjacent_free_app_r in Hn.
  destruct Lb as [|b0 Lb']; [contradiction|].
  destruct b0 as [f0 s0|a0 s0 p0]; [cbn in Hn; contradiction|].
  cbn [tiles blk_addr blk_size] in Ht. destruct Ht as (<- & Hs0 & Ht).
  assert (19 <= s0).
  { eapply Hu. apply in_or_app. right. right. left. reflexivity. }
  destruct Hin as [<-|Hin].
  - left. exists s0, p0. split; [reflexivity|]. eauto.
  - right. destruct (tiles_In _ _ _ _ Ht Hin). lia.
Qed.

Lemma before_free La f sf Lb a e :
  tiles (La ++ FreeB f sf :: Lb) a e ->
  forall b, In b La -> blk_addr b + blk_size b <= f.
Proof.
  intros Ht b Hin. apply tiles_app in Ht. destruct Ht as (mid & Ha & Ht).
  cbn [tiles blk_addr] in Ht. destruct Ht as (-> & _).
  destruct (tiles_In _ _ _ _ Ha Hin). assumption.
Qed.

End Around.

(** * What an operation leaves of the used blocks *)

Section UsedBlocks.

(** The record of a free node reaches into a used block only when the
    node is shorter than its record and the block comes right after. *)
Lemma free_record_reach L base e f sf a s p x :
  tiles L base e -> no_adjacent_free L -> used_sized L ->
  In (FreeB f sf) L -> In (UsedB a s p) L ->
  within f 16 x -> within a s x ->
  f + sf = a /\ sf < 16 /\ x < a + 16 - sf.
Proof.
  intros Ht Hn Hu Hf HU Hxf Hxa. unfold within in *.
  assert (Hpos : 0 < sf).
  { clear - Ht Hf. revert base Ht. induction L as [|b0 L IH]; intros base Ht;
      [contradiction|].
    cbn [tiles] in Ht. destruct Ht as (_ & Hs & Ht).
    destruct Hf as [->|Hf]; [exact Hs|eapply IH; eassumption]. }
  destruct (in_split _ _ Hf) as (La & Lb & ->).
  apply in_app_or in HU. destruct HU as [HU|[HU|HU]]; [|discriminate|].
  - pose proof (before_free _ _ _ _ _ _ Ht _ HU) as Hb.
    cbn [blk_addr blk_size] in Hb. lia.
  - destruct (after_free _ _ _ _ _ _ Ht Hn Hu _ HU)
      as [(s' & p' & [= -> -> ->] & _)|Hfar]; cbn [blk_addr] in *; lia.
Qed.

Lemma short_only_last_mid La : forall f sf b Lb,
  short_only_last (La ++ FreeB f sf :: b :: Lb) -> sizeof_MemBlock <= sf.
Proof.
  induction La as [|[a s|a s p] La IH]; intros f sf b Lb H; cbn [app] in H.
  - cbn [short_only_last] in H. destruct H as ([H|H] & _); [exact H|discriminate].
  - cbn [short_only_last] in H. destruct H as (_ & H). eapply IH; exact H.
  - cbn [short_only_last] in H. eapply IH; exact H.
Qed.

Lemma tiles_positive L : forall a e b, tiles L a e -> In b L -> 0 < blk_size b.
Proof.
  induction L as [|b0 L IH]; intros a e b Ht Hin; [contradiction|].
  cbn [tiles] in Ht. destruct Ht as (_ & Hs & Ht).
  destruct Hin as [->|Hin]; [assumption|eapply IH; eassumption].
Qed.

(** A short free block right before a used block contradicts
    [short_only_last]. *)
Lemma short_before_used L base e f sf a s p :
  tiles L base e -> short_only_last L ->
  In (FreeB f sf) L -> In (UsedB a s p) L -> f + sf = a -> 16 <= sf.
Proof.
  intros Ht Hs Hf HU Ha.
  pose proof (tiles_positive _ _ _ _ Ht Hf) as Hpos. cbn [blk_size] in Hpos.
  destruct (in_split _ _ Hf) as (La & Lb & ->).
  apply in_app_or in HU. destruct HU as [HU|[HU|HU]]; [|discriminate|].
  - pose proof (before_free _ _ _ _ _ _ Ht _ HU) as Hb.
    cbn [blk_addr blk_size] in Hb.
    pose proof (tiles_positive _ _ _ _ Ht
                  (in_or_app _ _ _ (or_introl HU))) as Hp'.
    cbn [blk_size] in Hp'. lia.
  - destruct Lb as [|b Lb]; [contradiction|].
    apply short_only_last_mid in Hs. exact Hs.
Qed.

Lemma magic_free_0 : magic_free 0.
Proof. split; vm_compute; discriminate. Qed.

Lemma used_block_kept L m m' h base e a s p :
  0 < base -> e <= TASK_SIZE ->
  tiles L base e -> no_adjacent_free L -> used_sized L ->
  byte_ok m' -> same_dom m m' -> flist m' h (frees L) ->
  (forall n, base <= n <= e -> magic_free n) \/ short_only_last L ->
  In (UsedB a s p) L -> used_ok m a s p ->
  (forall x, within a s x ->
     (forall f sf, In (FreeB f sf) L -> ~ within f 16 x) -> m' x = m x) ->
  used_ok m' a s p /\
  (short_only_last L -> header_intact m a s -> header_intact m' a s).
Proof.
  intros Hbase He Ht Hn Hu Hb' Hdom Hfl Hsafe HU Hok Hframe.
  pose proof Hok as (Hs & Hp & Hshim & magic & Hmag & Hsz).
  (* bytes of the block that no record of a free node covers *)
  assert (Hclear : forall x, within a s x ->
            (forall f sf, In (FreeB f sf) L -> f + sf = a -> 16 <= sf) \/
            a + 16 <= x ->
            m' x = m x).
  { intros x Hx Hc. apply Hframe; [exact Hx|]. intros f sf Hf Hw.
    destruct (free_record_reach _ _ _ _ _ _ _ _ _ Ht Hn Hu Hf HU Hw Hx)
      as (Ha & Hsf & Hx').
    pose proof (tiles_positive _ _ _ _ Ht Hf) as Hpos. cbn [blk_size] in Hpos.
    destruct Hc as [Hc|Hc]; [specialize (Hc f sf Hf Ha)|]; lia. }
  assert (Hshim' : load8 m' (p - 1) = Some ((p - a - 17) mod 256)).
  { rewrite <- Hshim. unfold load8. apply loadN_ext. intros i Hi.
    apply Hclear; unfold within; simpl in Hi; [lia|right; lia]. }
  assert (Hmapped : exists v, load32 m' a = Some v).
  { apply loadN_ok. intros i Hi Hnone. apply Hdom in Hnone. revert Hnone.
    apply (loadN_mapped 4 _ _ _ Hmag). exact Hi. }
  assert (Hsame : (forall f sf, In (FreeB f sf) L -> f + sf = a -> 16 <= sf) ->
                  load32 m' a = load32 m a /\ load64 m' (a + 8) = load64 m (a + 8)).
  { intros Hc. split; apply loadN_ext; intros i Hi; apply Hclear; auto;
      unfold within; simpl in Hi; lia. }
  assert (Hdec : (forall f sf, In (FreeB f sf) L -> f + sf = a -> 16 <= sf) \/
                 exists f sf, In (FreeB f sf) L /\ f + sf = a /\ sf < 16).
  { clear - L. induction L as [|b L IH]; [left; intros ? ? []|].
    destruct IH as [IH|(f & sf & Hf & Ha & Hsf)].
    - destruct b as [f sf|a' s' p'].
      + destruct (Z.eq_dec (f + sf) a) as [E|E].
        * destruct (Z_lt_le_dec sf 16).
          -- right. exists f, sf. split; [now left|auto].
          -- left. intros f' sf' [[= <- <-]|Hin] Ha; [assumption|eauto].
        * left. intros f' sf' [[= <- <-]|Hin] Ha; [contradiction|eauto].
      + left. intros f' sf' [Hd|Hin] Ha; [discriminate|eauto].
    - right. exists f, sf. split; [now right|auto]. }
  split.
  - destruct Hdec as [Hc|(f & sf & Hf & Ha & Hsf)].
    + destruct (Hsame Hc) as (E1 & E2).
      split; [assumption|]. split; [assumption|]. split; [assumption|].
      exists magic. rewrite E1, E2. auto.
    + destruct Hsafe as [Hpl|Hsl].
      * split; [assumption|]. split; [assumption|]. split; [assumption|].
        destruct Hmapped as (v & Hv). exists v. split; [exact Hv|].
        intros ->. exfalso.
        apply In_frees in Hf.
        destruct (lseg_In_node _ _ _ _ _ Hfl Hf) as (n & Hnode & Hnext).
        destruct Hnode as (Hf1 & Hf2 & Hfs & Hfn).
        unfold off_size, off_next in *. rewrite Z.add_0_r in Hfs.
        pose proof (tiles_positive _ _ _ _ Ht (proj1 (In_frees _ _ _) Hf)) as Hpos.
        cbn [blk_size] in Hpos.
        assert (Hn' : 0 <= n < 2 ^ 47 /\ magic_free n).
        { destruct Hnext as [->|(s' & Hs')].
          - split; [lia|apply magic_free_0].
          - apply In_frees in Hs'.
            pose proof (tiles_In _ _ _ _ Ht Hs') as Hr.
            pose proof (tiles_positive _ _ _ _ Ht Hs') as Hp'.
            cbn [blk_addr blk_size] in *. unfold TASK_SIZE in He.
            split; [lia|]. apply Hpl. lia. }
        destruct Hn' as (Hnr & Hnm). subst a.
        exact (overhang_not_magic _ _ _ _ _ Hb' Hfs Hfn ltac:(lia) Hnr Hnm Hv
                 eq_refl).
      * pose proof (short_before_used _ _ _ _ _ _ _ _ Ht Hsl Hf HU Ha). lia.
  - intros Hsl (Hi1 & Hi2).
    assert (Hc : forall f sf, In (FreeB f sf) L -> f + sf = a -> 16 <= sf).
    { intros f sf Hf Ha. exact (short_before_used _ _ _ _ _ _ _ _ Ht Hsl Hf HU Ha). }
    destruct (Hsame Hc) as (E1 & E2). split; congruence.
Qed.

End UsedBlocks.

(** * The layout after [Alloc] *)

Section AllocLayout.

Lemma frees_alloc_layout req p L :
  frees (alloc_layout req p L) = take_first_fit req (frees L).
Proof.
  induction L as [|[a s|a s q] L IH]; cbn [alloc_layout frees take_first_fit].
  - reflexivity.
  - destruct (s >=? req).
    + cbn [frees]. destruct (req <? s); reflexivity.
    + cbn [frees]. rewrite IH. reflexivity.
  - exact IH.
Qed.

Lemma alloc_layout_shape req p L1 : forall c cs L2,
  Forall (fun b => snd b < req) (frees L1) -> req <= cs ->
  alloc_layout req p (L1 ++ FreeB c cs :: L2) =
  L1 ++ UsedB c req p ::
    (if req <? cs then [FreeB (c + req) (cs - req)] else []) ++ L2.
Proof.
  induction L1 as [|[a s|a s q] L1 IH]; intros c cs L2 Hall Hle;
    cbn [app alloc_layout frees] in *.
  - destruct (Z.geb_spec cs req); [|lia]. destruct (req <? cs); reflexivity.
  - inversion Hall; subst. cbn [snd] in *.
    destruct (Z.geb_spec s req); [lia|]. rewrite IH by assumption. reflexivity.
  - rewrite IH by assumption. reflexivity.
Qed.

Lemma no_adjacent_free_alloc L1 c cs req p L2 :
  no_adjacent_free (L1 ++ FreeB c cs :: L2) ->
  no_adjacent_free
    (L1 ++ UsedB c req p ::
       (if req <? cs then [FreeB (c + req) (cs - req)] else []) ++ L2).
Proof.
  intros H.
  assert (H2 : no_adjacent_free (FreeB c cs :: L2))
    by (eapply no_adjacent_free_app_r; exact H).
  assert (Hres : no_adjacent_free
                   ((if req <? cs then [FreeB (c + req) (cs - req)] else []) ++ L2)).
  { destruct (req <? cs); cbn [app]; [|eapply no_adjacent_free_tail; exact H2].
    destruct L2 as [|[]]; cbn in *; tauto. }
  revert H. induction L1 as [|b L1 IH]; cbn [app]; intros H.
  - exact Hres.
  - pose proof (IH (no_adjacent_free_tail _ _ H)) as IH'.
    destruct b; destruct L1 as [|[] L1]; cbn [app] in *; cbn in H |- *; tauto.
Qed.

Lemma tiles_alloc L1 c cs req p L2 base e :
  0 < req <= cs ->
  tiles (L1 ++ FreeB c cs :: L2) base e ->
  tiles (L1 ++ UsedB c req p ::
           (if req <? cs then [FreeB (c + req) (cs - req)] else []) ++ L2) base e.
Proof.
  intros Hr Ht. apply tiles_app in Ht. destruct Ht as (mid & H1 & H2).
  apply tiles_app. exists mid. split; [exact H1|].
  cbn [tiles blk_addr blk_size] in *. destruct H2 as (Hc & Hs & H2).
  subst mid. split; [reflexivity|]. split; [lia|].
  destruct (Z.ltb_spec req cs); cbn [app tiles blk_addr blk_size].
  - split; [reflexivity|]. split; [lia|].
    replace (c + req + (cs - req)) with (c + cs) by lia. exact H2.
  - replace req with cs by lia. exact H2.
Qed.

End AllocLayout.

(** * [Alloc] on a well-formed allocator *)

Section AllocStep.

Lemma Inv_used_sized st L : Inv st L -> used_sized L.
Proof. intros I a s p H. now destruct (inv_used _ _ I _ _ _ H). Qed.

Lemma Inv_gapped st L : Inv st L -> gapped (frees L).
Proof.
  intros I.
  exact (proj1 (frees_gapped _ _ _ (inv_tiles _ _ I) (inv_apart _ _ I)
                  (Inv_used_sized _ _ I))).
Qed.

Lemma IsPowerOfTwo_pow2 k : 0 <= k < 64 -> IsPowerOfTwo (2 ^ k) = true.
Proof.
  intros Hk. apply IsPowerOfTwo_spec.
  - split; [apply Z.pow_nonneg; lia|apply Z.pow_lt_mono_r; lia].
  - exists k. split; [lia|reflexivity].
Qed.

Lemma last_map_snoc {A B} (f : A -> B) l x d :
  last (map f (l ++ [x])) d = f x.
Proof. rewrite map_app. cbn [map]. apply last_last. Qed.

Lemma list_snoc_cases {A} (l : list A) :
  l = [] \/ exists l' x, l = l' ++ [x].
Proof.
  destruct l as [|y l]; [now left|right].
  destruct (exists_last (l := y :: l)) as (l' & x & E); [discriminate|].
  eauto.
Qed.

(** No search comes back without a node when one fits. *)
Lemma Alloc_no_fit fuel size k st L :
  Inv st L -> 0 < size -> 0 <= k < 64 ->
  (List.length (frees L) < fuel)%nat ->
  fitting_node (req_space_of size (2 ^ k)) (frees L) = None ->
  Alloc fuel size (2 ^ k) st = Returned 0 st.
Proof.
  intros I Hsz Hk Hfuel Hfit. unfold Alloc.
  destruct (Z.leb_spec size 0); [lia|].
  assert (Hnz : 2 ^ k <> 0) by (pose proof (Z.pow_pos_nonneg 2 k); lia).
  destruct (Z.eqb_spec (2 ^ k) 0); [contradiction|].
  rewrite IsPowerOfTwo_pow2 by assumption. cbn [negb orb].
  rewrite (find_fit_spec _ _ _ _ _ _ (inv_flist _ _ I) Hfuel).
  pose proof (first_fit_fitting (req_space_of size (2 ^ k)) (frees L) None
                (fun a s => lseg_nonzero _ _ _ _ a s (inv_flist _ _ I))) as Hff.
  rewrite Hfit in Hff.
  destruct (first_fit _ None (frees L)) as [pv cu]. cbn [snd] in Hff. subst cu.
  reflexivity.
Qed.

End AllocStep.

Section Carve.

Variables (m : mem) (base len : Z).
Hypothesis Hbytes : byte_ok m.
Hypothesis Hmapped : mapped m base len.
Hypothesis Hbase : 0 < base.
Hypothesis Htop : base + len <= TASK_SIZE.

Lemma carve_at_fit d l1 c cs cn l2 size k :
  let req := req_space_of size (2 ^ k) in
  let prev := last (map (fun b => Some (fst b)) l1) None in
  let res := if req <? cs then [(c + req, cs - req)] else [] in
  0 < size -> 0 <= k < 64 -> size + 2 ^ k + 17 < 2 ^ 64 -> req <= cs ->
  gapped (l1 ++ (c, cs) :: l2) ->
  lseg m d l1 c -> node m c cs cn -> lseg m cn l2 0 ->
  base <= c -> c + cs + 16 <= base + len ->
  exists m' h' p,
    carve m req (2 ^ k) d prev c = Some (m', h', p) /\
    c + 17 <= p < c + 17 + 2 ^ k /\ p mod 2 ^ k = 0 /\
    lseg m' h' (l1 ++ res ++ l2) 0 /\
    header_intact m' c req /\
    load8 m' (p - 1) = Some ((p - c - 17) mod 256) /\
    changes_only (fun x => within c req x \/
                           (req < cs /\ within (c + req) 16 x) \/
                           (exists q qs, In (q, qs) l1 /\ within q 16 x)) m m'.
Proof.
  intros req prev res Hsz Hk Hov Hle Hg Hl1 Hc Hl2 Hbc Hce.
  unfold TASK_SIZE in Htop.
  assert (Hal : 0 < 2 ^ k) by (apply Z.pow_pos_nonneg; lia).
  assert (Hreq : req = size + sizeof_MemBlock + 2 ^ k + 1).
  { unfold req, req_space_of. apply wrap_small. unfold sizeof_MemBlock. lia. }
  assert (Hreq' : req = size + 2 ^ k + 17) by (unfold sizeof_MemBlock in Hreq; lia).
  (* the node before [c], if any *)
  assert (Hprev : forall q, prev = Some q ->
            q + 16 <= c /\ exists qs, node m q qs c /\ In (q, qs) l1).
  { intros q Hq. unfold prev in Hq.
    destruct (list_snoc_cases l1) as [->|(l1' & [q' qs] & ->)]; [discriminate|].
    rewrite last_map_snoc in Hq. cbn [fst] in Hq. injection Hq as ->.
    apply lseg_app in Hl1. destruct Hl1 as (mid & _ & (-> & n & Hn & <-)).
    pose proof (gapped_earlier _ _ _ _ Hg q qs
                  ltac:(apply in_or_app; right; now left)) as Hq.
    assert (0 < qs).
    { apply gapped_app_l in Hg. apply gapped_app_r in Hg.
      cbn [gapped] in Hg. tauto. }
    split; [lia|]. exists qs. split; [exact Hn|].
    apply in_or_app. right. now left. }
  destruct (unlink_node_spec m req d prev c cs cn Hbytes Hc ltac:(lia) ltac:(lia))
    as (m3 & h' & E3 & N3 & P3 & S3 & C3).
  { eapply mapped_sub; [exact Hmapped| |]; lia. }
  { intros q Hq. destruct (Hprev q Hq) as (H1 & qs & H2 & _). eauto. }
  assert (Hb3 : byte_ok m3) by (destruct C3 as (_ & B & _); auto).
  assert (Hm3 : mapped m3 c req).
  { eapply changes_only_mapped; [exact C3|].
    eapply mapped_sub; [exact Hmapped| |]; lia. }
  destruct (lay_out_block_spec m3 req size k c Hb3 Hk Hsz Hreq
              ltac:(lia) ltac:(lia) Hm3)
    as (m6 & p & E6 & Hp & Hpm & M6 & Z6 & B6 & C6).
  exists m6, h', p.
  split; [unfold carve; rewrite E3, E6; reflexivity|].
  split; [exact Hp|]. split; [exact Hpm|].
  pose proof (changes_only_trans _ _ _ _ _ C3 C6) as C.
  assert (Cp : changes_only
            (fun x => within c req x \/ (req < cs /\ within (c + req) 16 x) \/
                      (exists q, prev = Some q /\ within (q + 8) 8 x)) m m6).
  { eapply changes_only_weaken; [|exact C]. unfold within. cbv beta.
    intros x [[Hx|Hx]|[Hx|Hx]]; try (left; lia); tauto. }
  assert (Ctot : changes_only
            (fun x => within c req x \/ (req < cs /\ within (c + req) 16 x) \/
                      (exists q qs, In (q, qs) l1 /\ within q 16 x)) m m6).
  { eapply changes_only_weaken; [|exact Cp]. unfold within. cbv beta.
    intros x [Hx|[Hx|(q & Hq & Hx)]]; [tauto|tauto|].
    right; right. destruct (Hprev q Hq) as (_ & qs & _ & Hin).
    exists q, qs. split; [exact Hin|lia]. }
  split; [|split; [split; assumption|split; [exact B6|exact Ctot]]].
  (* the free list *)
  set (tgt := if req <? cs then c + req else cn) in *.
  assert (Htail : lseg m6 tgt (res ++ l2) 0).
  { assert (Hl2' : lseg m6 cn l2 0).
    { eapply lseg_frame; [exact Cp| |exact Hl2].
      intros a s Hin x Hx.
      pose proof (gapped_later _ _ _ (gapped_app_r _ _ Hg) a s Hin) as Ha.
      unfold within in *. intros [Hw|[(_ & Hw)|(q & Hq & Hw)]]; try lia.
      destruct (Hprev q Hq) as (Hqc & _). lia. }
    unfold tgt, res. destruct (Z.ltb_spec req cs) as [Hlt|Hge]; cbn [app lseg].
    - split; [reflexivity|]. exists cn. split; [|exact Hl2'].
      eapply node_frame; [exact C6| |exact (S3 Hlt)].
      unfold within. intros x Hx. lia.
    - exact Hl2'. }
  destruct (list_snoc_cases l1) as [->|(l1' & [q qs] & ->)].
  - cbn [app]. cbn [lseg] in Hl1. rewrite (N3 eq_refl). exact Htail.
  - assert (Hq : prev = Some q) by (unfold prev; now rewrite last_map_snoc).
    destruct (P3 q Hq) as (-> & qs' & Hn & Hn3).
    destruct (Hprev q Hq) as (Hqc & _).
    apply lseg_app in Hl1. destruct Hl1 as (mid & Hl1 & (-> & n & Hn' & <-)).
    assert (qs' = qs).
    { destruct Hn as (_ & _ & A & _), Hn' as (_ & _ & B & _). congruence. }
    subst qs'.
    rewrite <- app_assoc. apply lseg_app. exists q. split.
    + eapply lseg_frame; [exact Cp| |exact Hl1].
      intros a s Hin x Hx.
      rewrite <- app_assoc in Hg.
      pose proof (gapped_earlier _ _ _ _ Hg a s Hin) as Ha.
      assert (0 < s).
      { apply gapped_app_l in Hg. clear - Hg Hin.
        induction l1' as [|[b t] l IH]; [contradiction|].
        destruct Hin as [[= <- <-]|Hin]; [cbn [gapped] in Hg; tauto|].
        apply IH; [eapply gapped_tail; exact Hg|exact Hin]. }
      unfold within in *. intros [Hw|[(_ & Hw)|(q' & Hq' & Hw)]]; try lia.
      assert (q' = q) by congruence. subst q'. lia.
    + cbn [app lseg]. split; [reflexivity|]. exists tgt. split; [|exact Htail].
      eapply node_frame; [exact C6| |exact Hn3].
      unfold within. intros x Hx. lia.
Qed.

End Carve.

Section AllocFit.

Lemma tiles_split La b Lb a e :
  tiles (La ++ b :: Lb) a e ->
  (forall x, In x La -> blk_addr x + blk_size x <= blk_addr b) /\
  (forall x, In x Lb -> blk_addr b + blk_size b <= blk_addr x).
Proof.
  intros Ht. apply tiles_app in Ht. destruct Ht as (mid & Ha & Ht).
  cbn [tiles] in Ht. destruct Ht as (-> & _ & Ht). split; intros x Hx.
  - now destruct (tiles_In _ _ _ _ Ha Hx).
  - now destruct (tiles_In _ _ _ _ Ht Hx).
Qed.

Lemma tiles_disjoint L a e b1 b2 :
  tiles L a e -> In b1 L -> In b2 L ->
  b1 = b2 \/ blk_addr b1 + blk_size b1 <= blk_addr b2 \/
  blk_addr b2 + blk_size b2 <= blk_addr b1.
Proof.
  intros Ht H1 H2. destruct (in_split _ _ H1) as (La & Lb & ->).
  destruct (tiles_split _ _ _ _ _ Ht) as (Hbefore & Hafter).
  apply in_app_or in H2. destruct H2 as [H2|[H2|H2]]; auto.
Qed.

Lemma Alloc_fit fuel size k st L c cs :
  let req := req_space_of size (2 ^ k) in
  Inv st L -> 0 < size -> 0 <= k < 64 -> size + 2 ^ k + 17 < 2 ^ 64 ->
  (List.length (frees L) < fuel)%nat ->
  fitting_node req (frees L) = Some (c, cs) ->
  exists p st',
    Alloc fuel size (2 ^ k) st = Returned p st' /\
    c + 17 <= p < c + 17 + 2 ^ k /\ p mod 2 ^ k = 0 /\
    region_size_ (this st') = region_size_ (this st) /\
    mmap_start_ (this st') = mmap_start_ (this st) /\
    flist (heap st') (head_ (this st')) (frees (alloc_layout req p L)) /\
    header_intact (heap st') c req /\
    load8 (heap st') (p - 1) = Some ((p - c - 17) mod 256) /\
    changes_only
      (fun x => within c req x \/
                exists f sf, In (FreeB f sf) (alloc_layout req p L) /\
                             within f 16 x)
      (heap st) (heap st').
Proof.
  intros req I Hsz Hk Hov Hfuel Hfit.
  pose proof (first_fit_fitting req (frees L) None
                (fun a s => lseg_nonzero _ _ _ _ a s (inv_flist _ _ I))) as Hff.
  rewrite Hfit in Hff.
  destruct Hff as (E1 & Hc & Hcs & l1 & l2 & El & Hall & Hp & Ht).
  destruct (frees_split _ _ _ _ _ El) as (L1 & L2 & EL & <- & <-).
  pose proof (inv_flist _ _ I) as Hfl. unfold flist in Hfl. rewrite El in Hfl.
  apply lseg_app in Hfl. destruct Hfl as (mid & Hl1 & Hl2).
  cbn [lseg] in Hl2. destruct Hl2 as (-> & cn & Hn & Hl2).
  assert (Hin : In (FreeB c cs) L) by (rewrite EL; apply in_or_app; right; now left).
  pose proof (tiles_In _ _ _ _ (inv_tiles _ _ I) Hin) as Hr.
  cbn [blk_addr blk_size] in Hr. unfold sizeof_MemBlock in Hr.
  pose proof (Inv_gapped _ _ I) as Hg. rewrite El in Hg.
  destruct (carve_at_fit (heap st) _ _ (inv_bytes _ _ I) (inv_mapped _ _ I)
              (inv_base _ _ I) (inv_top _ _ I)
              (head_ (this st)) (frees L1) c cs cn (frees L2) size k
              Hsz Hk Hov Hcs Hg Hl1 Hn Hl2 ltac:(lia) ltac:(lia))
    as (m' & h' & p & Ec & Hpr & Hpm & Hfl' & Hint & Hshim & C).
  exists p, (set_head (set_heap st m') h').
  assert (Hshape := alloc_layout_shape req p L1 c cs L2 Hall Hcs).
  rewrite <- EL in Hshape.
  split.
  - unfold Alloc. destruct (Z.leb_spec size 0); [lia|].
    assert (Hnz : 2 ^ k <> 0) by (pose proof (Z.pow_pos_nonneg 2 k); lia).
    destruct (Z.eqb_spec (2 ^ k) 0); [contradiction|].
    rewrite IsPowerOfTwo_pow2 by assumption. cbn [negb orb].
    rewrite (find_fit_spec _ _ _ _ _ _ (inv_flist _ _ I) Hfuel).
    fold req. destruct (first_fit req None (frees L)) as [pv cu].
    cbn [fst snd] in E1, Hp. subst cu pv.
    destruct (Z.eqb_spec c 0); [contradiction|].
    fold req in Ec. rewrite Ec. reflexivity.
  - split; [exact Hpr|]. split; [exact Hpm|].
    split; [reflexivity|]. split; [reflexivity|].
    cbn [heap this set_head set_heap head_].
    split; [|split; [exact Hint|split; [exact Hshim|]]].
    + unfold flist. rewrite frees_alloc_layout, Ht. exact Hfl'.
    + eapply changes_only_weaken; [|exact C]. cbv beta.
      intros x [Hx|[(Hlt & Hx)|(q & qs & Hq & Hx)]]; [now left| |]; right.
      * exists (c + req), (cs - req). split; [|exact Hx].
        rewrite Hshape. apply in_or_app. right. right.
        destruct (Z.ltb_spec req cs); [|lia]. now left.
      * exists q, qs. split; [|exact Hx].
        rewrite Hshape. apply in_or_app. left. now apply In_frees.
Qed.

End AllocFit.

Section AllocInv.

Lemma fitting_node_split req l : forall c cs,
  fitting_node req l = Some (c, cs) ->
  exists l1 l2, l = l1 ++ (c, cs) :: l2 /\
                Forall (fun b => snd b < req) l1 /\ req <= cs.
Proof.
  induction l as [|[a s] l IH]; intros c cs H; cbn [fitting_node] in H;
    [discriminate|].
  destruct (Z.geb_spec s req).
  - injection H as -> ->. exists [], l. repeat split; [constructor|lia].
  - destruct (IH _ _ H) as (l1 & l2 & -> & Hall & Hle).
    exists ((a, s) :: l1), l2. repeat split; [|exact Hle].
    constructor; [cbn; lia|exact Hall].
Qed.

(** The layout after a successful [Alloc] is a layout again. *)
Lemma alloc_layout_fit req p L c cs base e :
  fitting_node req (frees L) = Some (c, cs) -> 0 < req ->
  tiles L base e -> no_adjacent_free L ->
  tiles (alloc_layout req p L) base e /\
  no_adjacent_free (alloc_layout req p L) /\
  In (UsedB c req p) (alloc_layout req p L) /\
  (forall a s q, In (UsedB a s q) (alloc_layout req p L) ->
       UsedB a s q = UsedB c req p \/ In (UsedB a s q) L) /\
  (forall a s q, In (UsedB a s q) L -> In (UsedB a s q) (alloc_layout req p L)).
Proof.
  intros Hfit Hreq Ht Hn.
  destruct (fitting_node_split _ _ _ _ Hfit) as (l1 & l2 & El & Hall & Hle).
  destruct (frees_split _ _ _ _ _ El) as (L1 & L2 & -> & <- & <-).
  rewrite (alloc_layout_shape req p L1 c cs L2 Hall Hle).
  split; [apply tiles_alloc; [lia|exact Ht]|].
  split; [apply no_adjacent_free_alloc; exact Hn|].
  split; [apply in_or_app; right; now left|]. split.
  - intros a s q Hin. apply in_app_or in Hin.
    destruct Hin as [Hin|[Hin|Hin]].
    + right. apply in_or_app. now left.
    + left. now symmetry.
    + right. apply in_or_app. right. right.
      apply in_app_or in Hin. destruct Hin as [Hin|Hin]; [|exact Hin].
      destruct (req <? cs); [|contradiction].
      destruct Hin as [Hin|[]]; discriminate.
  - intros a s q Hin. apply in_app_or in Hin. apply in_or_app.
    destruct Hin as [Hin|[Hin|Hin]]; [now left|discriminate|].
    right. right. apply in_or_app. now right.
Qed.

End AllocInv.

Section AllocStepInv.

(** [Alloc] that finds a node: the result, and the invariant afterwards. *)
Lemma Alloc_step fuel size k st L c cs :
  let req := req_space_of size (2 ^ k) in
  Inv st L -> 0 < size -> 0 <= k < 64 -> size + 2 ^ k + 17 < 2 ^ 64 ->
  (List.length (frees L) < fuel)%nat ->
  fitting_node req (frees L) = Some (c, cs) ->
  exists p st',
    Alloc fuel size (2 ^ k) st = Returned p st' /\
    c + 17 <= p < c + 17 + 2 ^ k /\ p mod 2 ^ k = 0 /\
    header_intact (heap st') c req /\
    load8 (heap st') (p - 1) = Some ((p - c - 17) mod 256) /\
    flist (heap st') (head_ (this st')) (take_first_fit req (frees L)) /\
    (short_safe st (alloc_layout req p L) -> Inv st' (alloc_layout req p L)) /\
    (short_only_last (alloc_layout req p L) ->
     forall a s q, In (UsedB a s q) L ->
       header_intact (heap st) a s -> header_intact (heap st') a s).
Proof.
  intros req I Hsz Hk Hov Hfuel Hfit.
  destruct (Alloc_fit fuel size k st L c cs I Hsz Hk Hov Hfuel Hfit)
    as (p & st' & EA & Hp & Hpm & Hrs & Hms & Hfl & Hint & Hshim & C).
  fold req in Hfl, Hint, C.
  assert (Hal : 0 < 2 ^ k) by (apply Z.pow_pos_nonneg; lia).
  assert (Hreq : req = size + 2 ^ k + 17).
  { unfold req, req_space_of. rewrite wrap_small; unfold sizeof_MemBlock; lia. }
  destruct (alloc_layout_fit req p L c cs _ _ Hfit ltac:(lia)
              (inv_tiles _ _ I) (inv_apart _ _ I))
    as (Ht' & Hn' & Hnew & Hold & Hkeep).
  set (L' := alloc_layout req p L) in *.
  assert (Hus' : used_sized L').
  { intros a s q Hin. destruct (Hold _ _ _ Hin) as [[= -> -> ->]|Hin'].
    - lia.
    - eapply Inv_used_sized; eassumption. }
  (* an old used block after the call *)
  assert (Hkept : forall a s q, In (UsedB a s q) L ->
            (short_safe st L' -> used_ok (heap st') a s q) /\
            (short_only_last L' -> header_intact (heap st) a s ->
             header_intact (heap st') a s)).
  { intros a s q Hin.
    assert (Hframe : forall x, within a s x ->
              (forall f sf, In (FreeB f sf) L' -> ~ within f 16 x) ->
              heap st' x = heap st x).
    { intros x Hx Hfree. destruct C as (_ & _ & U). apply U.
      intros [Hc|(f & sf & Hf & Hw)]; [|exact (Hfree f sf Hf Hw)].
      pose proof (Hkeep _ _ _ Hin) as Hin'.
      destruct (tiles_disjoint _ _ _ _ _ Ht' Hin' Hnew) as [E|Hd].
      - assert (Hfree' : In (FreeB c cs) L).
        { destruct (fitting_node_split _ _ _ _ Hfit) as (l1 & l2 & El & _).
          apply In_frees. rewrite El. apply in_or_app. right. now left. }
        rewrite E in Hin.
        pose proof (tiles_positive _ _ _ _ (inv_tiles _ _ I) Hfree') as Hpos.
        destruct (tiles_disjoint _ _ _ _ _ (inv_tiles _ _ I) Hin Hfree')
          as [E'|Hd]; [discriminate|].
        cbn [blk_addr blk_size] in *. lia.
      - unfold within in *. cbn [blk_addr blk_size] in Hd. lia. }
    assert (Hgen : short_safe st L' ->
              used_ok (heap st') a s q /\
              (short_only_last L' -> header_intact (heap st) a s ->
               header_intact (heap st') a s)).
    { intros Hsafe.
      apply (used_block_kept L' (heap st) (heap st') (head_ (this st'))
               (mmap_start_ (this st))
               (mmap_start_ (this st) + region_size_ (this st) - sizeof_MemBlock));
        try assumption.
      - exact (inv_base _ _ I).
      - pose proof (inv_top _ _ I). unfold sizeof_MemBlock. lia.
      - destruct C as (_ & B & _). apply B, (inv_bytes _ _ I).
      - now destruct C.
      - destruct Hsafe as [Hpl|Hsl]; [left|now right].
        intros n Hn. apply Hpl. unfold sizeof_MemBlock in Hn. lia.
      - now apply Hkeep.
      - exact (inv_used _ _ I _ _ _ Hin). }
    split.
    - intros Hsafe. now destruct (Hgen Hsafe).
    - intros Hsl. destruct (Hgen (or_intror Hsl)) as (_ & H). exact (H Hsl). }
  exists p, st'. split; [exact EA|]. split; [exact Hp|]. split; [exact Hpm|].
  split; [exact Hint|]. split; [exact Hshim|].
  split; [unfold L' in Hfl; rewrite frees_alloc_layout in Hfl; exact Hfl|].
  split.
  - intros Hsafe. constructor.
    + rewrite Hms. exact (inv_base _ _ I).
    + rewrite Hms, Hrs. exact (inv_top _ _ I).
    + rewrite Hms, Hrs. eapply changes_only_mapped; [exact C|exact (inv_mapped _ _ I)].
    + destruct C as (_ & B & _). apply B, (inv_bytes _ _ I).
    + rewrite Hms, Hrs. exact Ht'.
    + exact Hn'.
    + exact Hfl.
    + intros a s q Hin. destruct (Hold _ _ _ Hin) as [[= -> -> ->]|Hin'].
      * destruct Hint as (Hi1 & Hi2).
        split; [lia|]. split; [lia|]. split; [exact Hshim|].
        exists kMemMagicNum. auto.
      * now apply (Hkept _ _ _ Hin').
  - intros Hsl a s q Hin. now apply (Hkept _ _ _ Hin).
Qed.

End AllocStepInv.

(** * The invariant after construction *)

Section Initial.

Lemma mapped_zero_byte_ok m base len : byte_ok m -> byte_ok (mapped_zero m base len).
Proof.
  intros Hb a b. unfold mapped_zero. destruct (in_range base len a).
  - intros [= <-]. lia.
  - apply Hb.
Qed.

Lemma ctor_Inv N P base errno m obj m' :
  byte_ok m -> user_mem m -> 0 <= N -> 16 < round_region_size N P ->
  Malloc_ctor N P (Some base) errno m = Returned obj m' ->
  Inv (mkState obj m') [FreeB base (round_region_size N P - sizeof_MemBlock)] /\
  obj = mkMalloc (round_region_size N P) base base.
Proof.
  intros Hb Hu HN Hr Hc. set (r := round_region_size N P) in *.
  pose proof Hc as Hc0.
  unfold Malloc_ctor in Hc. fold r in Hc.
  destruct (mmap_anon P (Some base) r errno m) as [[head e1] m1] eqn:E.
  pose proof E as E'. apply mmap_anon_cases in E'.
  destruct E' as [[-> ->]|(Hch & Hlen & Hpos & Hal & Htop & ->)].
  - exfalso. rewrite (ctor_refused _ _ _ _ _ _ _ HN Hu E) in Hc0. discriminate.
  - injection Hch as <-. unfold TASK_SIZE in Htop.
    destruct (Z.eqb_spec base 0); [lia|].
    unfold padd, off_size, off_next, sizeof_MemBlock in *.
    rewrite Z.add_0_r, !wrap_small in Hc by lia.
    destruct (store64 (mapped_zero m base r) base (r - 16)) as [m2|] eqn:E2;
      [|discriminate].
    destruct (store64 m2 (base + 8) 0) as [m3|] eqn:E3; [|discriminate].
    injection Hc as <- <-. split; [|reflexivity].
    pose proof (storeN_changes _ _ _ _ _ E2) as C2.
    pose proof (storeN_changes _ _ _ _ _ E3) as C3.
    assert (Hb1 : byte_ok (mapped_zero m base r)) by now apply mapped_zero_byte_ok.
    assert (Hb2 : byte_ok m2) by (destruct C2 as (_ & B & _); auto).
    assert (Hb3 : byte_ok m3) by (destruct C3 as (_ & B & _); auto).
    constructor; cbn [this heap mmap_start_ region_size_ head_].
    + exact Hpos.
    + unfold TASK_SIZE. exact Htop.
    + eapply changes_only_mapped; [exact C3|].
      eapply changes_only_mapped; [exact C2|]. apply mapped_zero_mapped.
    + exact Hb3.
    + cbn [tiles blk_addr blk_size]. unfold sizeof_MemBlock.
      split; [reflexivity|]. split; lia.
    + exact I.
    + unfold flist. cbn [frees lseg]. split; [reflexivity|]. exists 0.
      split; [|reflexivity].
      unfold node, sizeof_MemBlock, off_size, off_next.
      split; [lia|]. split; [lia|]. rewrite Z.add_0_r. split.
      * unfold load64. rewrite (changes_only_load 8 _ _ _ _ C3).
        -- rewrite (loadN_storeN _ _ _ _ _ E2). f_equal. apply Z.mod_small.
           change (256 ^ Z.of_nat 8) with (2 ^ 64). lia.
        -- unfold within. simpl. intros; lia.
      * unfold load64. rewrite (loadN_storeN _ _ _ _ _ E3). reflexivity.
    + intros a s p [H|[]]. discriminate.
Qed.

End Initial.

Lemma example_alloc_returns :
  exists m, example_alloc = Returned (mkMalloc 4096 example_base example_base) m.
Proof.
  destruct (ctor_granted 4096 4096 example_base 0 empty_mem)
    as (m2 & m3 & _ & _ & E).
  - cbv. split; [discriminate|reflexivity].
  - reflexivity.
  - reflexivity.
  - cbv. discriminate.
  - exists m3. exact E.
Qed.

Lemma example_Inv : Inv example_state [FreeB example_base 4080].
Proof.
  destruct example_alloc_returns as (m & E).
  unfold example_state. rewrite E.
  refine (proj1 (ctor_Inv 4096 4096 example_base 0 empty_mem _ m _ _ _ _ E)).
  - intros a b H. discriminate.
  - intros a H. now elim H.
  - lia.
  - reflexivity.
Qed.

Lemma take_first_fit_none req l :
  Forall (fun b => snd b < req) l -> take_first_fit req l = l.
Proof.
  induction 1 as [|[a s] l Hs _ IH]; cbn [take_first_fit]; [reflexivity|].
  cbn [snd] in Hs. destruct (Z.geb_spec s req); [lia|]. now rewrite IH.
Qed.

(** * First fit *)

Lemma Alloc_first_fit (fuel : nat) (size k : Z) (st : state)
    (L : list block)
    (Hinv : Inv st L) (Hsize : 0 < size) (Hk : 0 <= k < 64)
    (Hfits : size + 2 ^ k + 17 < 2 ^ 64)
    (Hfuel : (List.length (frees L) < fuel)%nat) :
  let req_space := size + sizeof_MemBlock + 2 ^ k + 1 in
  req_space_of size (2 ^ k) = req_space /\
  exists p st',
    Alloc fuel size (2 ^ k) st = Returned p st' /\
    (p = 0 <-> Forall (fun node => snd node < req_space) (frees L)) /\
    (p = 0 -> st' = st) /\
    (p <> 0 ->
     exists before node_addr node_size after,
       frees L = before ++ (node_addr, node_size) :: after /\
       Forall (fun node => snd node < req_space) before /\
       req_space <= node_size /\
       flist (heap st') (head_ (this st'))
         (before ++
          (if req_space <? node_size
           then [(node_addr + req_space, node_size - req_space)] else [])
          ++ after)).
Proof.
  intros req.
  assert (Hal : 0 < 2 ^ k) by (apply Z.pow_pos_nonneg; lia).
  assert (Hreq : req_space_of size (2 ^ k) = req).
  { unfold req, req_space_of. apply wrap_small. unfold sizeof_MemBlock. lia. }
  split; [exact Hreq|].
  destruct (fitting_node req (frees L)) as [[c cs]|] eqn:Hfit.
  - rewrite <- Hreq in Hfit.
    destruct (Alloc_step fuel size k st L c cs Hinv Hsize Hk Hfits Hfuel Hfit)
      as (p & st' & EA & Hp & _ & _ & _ & Hfl & _).
    rewrite Hreq in Hfit, Hfl.
    pose proof (inv_flist _ _ Hinv) as Hl.
    destruct (fitting_node_split _ _ _ _ Hfit) as (l1 & l2 & El & Hall & Hle).
    assert (Hc : 0 < c).
    { assert (Hin : In (c, cs) (frees L))
        by (rewrite El; apply in_or_app; right; now left).
      apply In_frees in Hin.
      pose proof (tiles_In _ _ _ _ (inv_tiles _ _ Hinv) Hin) as Hr.
      pose proof (inv_base _ _ Hinv). cbn [blk_addr] in Hr. lia. }
    exists p, st'. split; [exact EA|]. split; [|split].
    + split; [lia|]. intros Hall'. apply fitting_node_None in Hall'. congruence.
    + lia.
    + intros _. exists l1, c, cs, l2. split; [exact El|].
      split; [exact Hall|]. split; [exact Hle|].
      pose proof (first_fit_fitting req (frees L) None
                    (fun a s => lseg_nonzero _ _ _ _ a s Hl)) as Hff.
      rewrite Hfit in Hff. destruct Hff as (_ & _ & _ & l1' & l2' & El' & Hall' & _ & Ht).
      assert (l1' = l1 /\ l2' = l2) as [-> ->].
      { clear - El El' Hall Hall' Hle. rewrite El in El'. clear El.
        revert l1' El' Hall'. induction Hall as [|[a s] l1 Hs Hall IH];
          intros l1' El' Hall'.
        - destruct l1' as [|[a' s'] l1']; cbn [app] in El'.
          + injection El' as <-. auto.
          + injection El' as <- <- _. inversion Hall'; subst. cbn in *. lia.
        - destruct l1' as [|[a' s'] l1']; cbn [app] in El'.
          + injection El' as -> -> _. cbn in Hs. lia.
          + injection El' as <- <- El'. inversion Hall'; subst.
            destruct (IH _ El' H2) as [-> ->]. auto. }
      rewrite Ht in Hfl. exact Hfl.
  - rewrite <- Hreq in Hfit.
    pose proof (Alloc_no_fit fuel size k st L Hinv Hsize Hk Hfuel Hfit) as EA.
    rewrite Hreq in Hfit.
    exists 0, st. split; [exact EA|]. split; [|split].
    + split; [intros _; now apply fitting_node_None|reflexivity].
    + reflexivity.
    + intros H. now elim H.
Qed.



(** * Alignment *)

Section Aligned.

Lemma std_align_aligned k size ptr space :
  0 <= k < 64 ->
  let '(ret, _, _) := std_align (2 ^ k) size ptr space in ret mod 2 ^ k = 0.
Proof.
  intros Hk. unfold std_align.
  assert (0 < 2 ^ k) by (apply Z.pow_pos_nonneg; lia).
  destruct (space <? size); [apply Z.mod_0_l; lia|].
  destruct (_ >? _); [apply Z.mod_0_l; lia|].
  now apply land_neg_pow2_aligned.
Qed.

Lemma lay_out_block_aligned m req k c m' p :
  0 <= k < 64 -> lay_out_block m req (2 ^ k) c = Some (m', p) ->
  p mod 2 ^ k = 0.
Proof.
  intros Hk. unfold lay_out_block.
  destruct (store64 _ _ _); [|discriminate].
  destruct (store32 _ _ _) as [m5|]; [|discriminate].
  destruct (load64 m5 _) as [hsz|]; [|discriminate].
  pose proof (std_align_aligned k (wrap (wrap (hsz - 1) - 2 ^ k))
                (padd (padd c sizeof_MemBlockHeader) 1) (wrap (hsz - 1)) Hk) as Ha.
  destruct (std_align _ _ _ _) as [[ret ptr'] space'].
  destruct (store8 _ _ _); [|discriminate].
  intros [= <- <-]. exact Ha.
Qed.

Lemma Alloc_aligned fuel size k st p st' :
  0 <= k < 64 -> Alloc fuel size (2 ^ k) st = Returned p st' ->
  p mod 2 ^ k = 0.
Proof.
  intros Hk. unfold Alloc.
  assert (0 < 2 ^ k) by (apply Z.pow_pos_nonneg; lia).
  destruct (size <=? 0); [discriminate|].
  destruct (_ || _); [discriminate|].
  destruct (find_fit _ _ _ _ _) as [[prev curr] ?| | |]; try discriminate.
  destruct (curr =? 0).
  - intros [= <- <-]. apply Z.mod_0_l. lia.
  - unfold carve.
    destruct (unlink_node _ _ _ _ _) as [[m3 nh]|]; [|discriminate].
    destruct (lay_out_block _ _ _ _) as [[m6 r]|] eqn:E; [|discriminate].
    intros [= <- <-]. eapply lay_out_block_aligned; eassumption.
Qed.

End Aligned.

(** C5.  Every pointer [Alloc(s, a)] returns for a power of two [a] is a
    multiple of [a]; and on a well-formed allocator [Alloc] does return,
    with a non-null pointer whenever a free node has room. *)
Theorem C5_alloc_returns_aligned_pointers (fuel : nat) (size k : Z) (st : state)
    (Hk : 0 <= k < 64) :
  (forall p st', Alloc fuel size (2 ^ k) st = Returned p st' -> p mod 2 ^ k = 0)
  /\ (forall L, Inv st L -> 0 < size -> size + 2 ^ k + 17 < 2 ^ 64 ->
        (List.length (frees L) < fuel)%nat ->
        exists p st',
          Alloc fuel size (2 ^ k) st = Returned p st' /\ p mod 2 ^ k = 0 /\
          (p = 0 <->
           Forall (fun node => snd node < size + sizeof_MemBlock + 2 ^ k + 1)
                  (frees L))).
Proof.
  split.
  - intros p st' H. eapply Alloc_aligned; eassumption.
  - intros L Hinv Hsize Hfits Hfuel.
    destruct (Alloc_first_fit fuel size k st L Hinv Hsize Hk Hfits Hfuel)
      as (_ & p & st' & EA & Hnull & _).
    exists p, st'. split; [exact EA|]. split; [|exact Hnull].
    eapply Alloc_aligned; eassumption.
Qed.

Lemma C5_witness :
  exists p st',
    Alloc 2 100 (2 ^ 7) example_state = Returned p st' /\ p mod 2 ^ 7 = 0.
Proof.
  destruct (C5_alloc_returns_aligned_pointers 2 100 7 example_state
              ltac:(lia)) as (_ & H).
  destruct (H [FreeB example_base 4080] example_Inv) as (p & st' & EA & Hp & _);
    try lia.
  - cbn. lia.
  - exists p, st'. auto.
Defined.

(** * The alignment count *)





(** * Merging, on lists and on layouts *)

Section Coalesce.

Lemma coalesce_r_head a s l :
  exists s' r, coalesce_r ((a, s) :: l) = (a, s') :: r.
Proof.
  cbn [coalesce_r]. destruct (coalesce_r l) as [|[a' s'] r]; [eauto|].
  destruct (a + s =? a'); eauto.
Qed.

Lemma coalesce_from_r l : forall c,
  coalesce_from c l = coalesce_r (c :: l).
Proof.
  induction l as [|[a s] l IH]; intros [c cs]; cbn [coalesce_from fst snd].
  - reflexivity.
  - rewrite !IH. clear IH.
    change (coalesce_r ((c, cs) :: (a, s) :: l)) with
      (match coalesce_r ((a, s) :: l) with
       | (a', s') :: r => if c + cs =? a' then (c, cs + s') :: r
                          else (c, cs) :: (a', s') :: r
       | [] => [(c, cs)]
       end).
    cbn [coalesce_r].
    destruct (coalesce_r l) as [|[a' s'] r];
      repeat match goal with
             | |- context [?x =? ?y] => destruct (Z.eqb_spec x y)
             end; try lia; try reflexivity.
    f_equal. f_equal. lia.
Qed.

Lemma coalesce_is_coalesce_r l : coalesce l = coalesce_r l.
Proof. destruct l as [|c l]; [reflexivity|]. apply coalesce_from_r. Qed.

Lemma fuse_head_used a s p L : fuse (UsedB a s p :: L) = UsedB a s p :: fuse L.
Proof. reflexivity. Qed.

(** The first block keeps its address and its kind. *)
Lemma fuse_head L :
  match L, fuse L with
  | [], [] => True
  | FreeB a _ :: _, FreeB a' _ :: _ => a = a'
  | UsedB a s p :: _, UsedB a' s' p' :: _ => a = a' /\ s = s' /\ p = p'
  | _, _ => False
  end.
Proof.
  destruct L as [|[a s|a s p] L]; cbn [fuse]; [exact I| |auto].
  destruct (fuse L) as [|[a' s'|a' s' p'] r]; reflexivity.
Qed.

Lemma frees_fuse L : forall a e,
  tiles L a e -> frees (fuse L) = coalesce_r (frees L).
Proof.
  induction L as [|[f sf|u su p] L IH]; intros a e Ht; cbn [fuse frees coalesce_r].
  - reflexivity.
  - cbn [tiles blk_addr blk_size] in Ht. destruct Ht as (-> & Hs & Ht).
    specialize (IH _ _ Ht). pose proof (fuse_head L) as Hh.
    destruct L as [|[g sg|v sv q] L].
    + cbn [fuse frees coalesce_r]. reflexivity.
    + cbn [tiles blk_addr blk_size] in Ht. destruct Ht as (<- & _).
      destruct (fuse (FreeB g sg :: L)) as [|[g' sg'|v' sv' q'] r];
        try contradiction.
      subst g'. rewrite <- IH. cbn [frees].
      now rewrite Z.eqb_refl.
    + destruct (fuse (UsedB v sv q :: L)) as [|[g' sg'|v' sv' q'] r] eqn:EF;
        try contradiction.
      rewrite <- IH. cbn [frees].
      destruct (frees r) as [|[a' s'] r'] eqn:Er; [reflexivity|].
      (* the next free node lies beyond the used block *)
      assert (Hbeyond : a + sf < a').
      { assert (Hin : In (a', s') (coalesce_r (frees (UsedB v sv q :: L)))).
        { rewrite <- IH. cbn [frees]. rewrite Er. now left. }
        clear - Hin Ht Hs.
        cbn [tiles blk_addr blk_size frees] in *.
        destruct Ht as (<- & Hsv & Ht).
        assert (Hge : forall l b x y, tiles l b e ->
                  In (x, y) (coalesce_r (frees l)) -> b <= x).
        { clear. induction l as [|[f sf|u su p] l IH]; intros b x y Ht Hin;
            cbn [frees coalesce_r] in Hin; [contradiction| |].
          - cbn [tiles blk_addr blk_size] in Ht. destruct Ht as (-> & Hs & Ht).
            destruct (coalesce_r (frees l)) as [|[a' s'] r].
            + destruct Hin as [[= <- <-]|[]]. lia.
            + assert (Hr : forall x' y', In (x', y') ((a', s') :: r) -> b + sf <= x').
              { intros x' y' H. apply (IH _ x' y' Ht). exact H. }
              destruct (b + sf =? a').
              * destruct Hin as [[= <- <-]|Hin]; [lia|].
                specialize (Hr x y (or_intror Hin)). lia.
              * destruct Hin as [[= <- <-]|Hin]; [lia|].
                specialize (Hr x y Hin). lia.
          - cbn [tiles blk_addr blk_size] in Ht. destruct Ht as (-> & Hs & Ht).
            specialize (IH _ _ _ Ht Hin). lia. }
        specialize (Hge _ _ _ _ Ht Hin). lia. }
      destruct (Z.eqb_spec (a + sf) a'); [lia|reflexivity].
  - cbn [tiles blk_addr blk_size] in Ht. destruct Ht as (_ & _ & Ht).
    exact (IH _ _ Ht).
Qed.

End Coalesce.

Section FuseLayout.

Lemma tiles_fuse L : forall a e, tiles L a e -> tiles (fuse L) a e.
Proof.
  induction L as [|[f sf|u su p] L IH]; intros a e Ht; cbn [fuse].
  - exact Ht.
  - cbn [tiles blk_addr blk_size] in Ht. destruct Ht as (-> & Hs & Ht).
    specialize (IH _ _ Ht). pose proof (fuse_head L) as Hh.
    destruct (fuse L) as [|[g sg|v sv q] r]; cbn [tiles blk_addr blk_size] in *.
    + split; [reflexivity|]. split; [assumption|]. exact IH.
    + destruct IH as (_ & Hsg & IH). split; [reflexivity|]. split; [lia|].
      destruct IH as (<- & IH') || idtac.
      replace (a + (sf + sg)) with (a + sf + sg) by lia. exact IH.
    + split; [reflexivity|]. split; [assumption|]. exact IH.
  - cbn [tiles blk_addr blk_size] in *. destruct Ht as (-> & Hs & Ht).
    split; [reflexivity|]. split; [assumption|]. apply IH. exact Ht.
Qed.

Lemma no_adjacent_free_fuse L : no_adjacent_free (fuse L).
Proof.
  induction L as [|[f sf|u su p] L IH]; cbn [fuse]; [exact I| |].
  - destruct (fuse L) as [|[g sg|v sv q] r]; [exact I| |exact IH].
    destruct r as [|[] r]; cbn in *; tauto.
  - destruct (fuse L) as [|[] r]; cbn in *; tauto.
Qed.

Lemma In_used_fuse L a s p : In (UsedB a s p) (fuse L) <-> In (UsedB a s p) L.
Proof.
  induction L as [|[f sf|u su q] L IH]; cbn [fuse]; [tauto| |].
  - destruct (fuse L) as [|[g sg|v sv r] l]; cbn [In] in *.
    + split; intros [H|H]; try discriminate; tauto.
    + split.
      * intros [H|H]; [discriminate|]. right. apply IH. now right.
      * intros [H|H]; [discriminate|]. apply IH in H.
        destruct H as [H|H]; [discriminate|]. now right.
    + split.
      * intros [H|H]; [discriminate|]. right. now apply IH.
      * intros [H|H]; [discriminate|]. right. now apply IH.
  - cbn [In]. rewrite IH. tauto.
Qed.

Lemma short_only_last_fuse L : forall a e,
  tiles L a e -> short_only_last L -> short_only_last (fuse L).
Proof.
  induction L as [|[f sf|u su p] L IH]; intros a e Ht Hs; cbn [fuse].
  - exact I.
  - cbn [tiles blk_addr blk_size] in Ht. destruct Ht as (-> & Hpos & Ht).
    cbn [short_only_last] in Hs. destruct Hs as (Hsf & Hs).
    specialize (IH _ _ Ht Hs).
    destruct (fuse L) as [|[g sg|v sv q] r] eqn:EF; cbn [short_only_last] in *.
    + split; [|exact I]. now right.
    + destruct IH as (Hsg & IH). split; [|exact IH].
      pose proof (tiles_fuse _ _ _ Ht) as Ht'. rewrite EF in Ht'.
      cbn [tiles blk_addr blk_size] in Ht'. unfold sizeof_MemBlock in *.
      destruct Hsg as [Hsg|Hsg]; [left; lia|now right].
    + split; [|exact IH]. destruct Hsf as [Hsf| ->]; [now left|discriminate].
  - cbn [short_only_last tiles] in *. destruct Ht as (_ & _ & Ht).
    exact (IH _ _ Ht Hs).
Qed.

(** [mark_free] finds the block of [p] when the earlier blocks hold other
    pointers. *)
Lemma mark_free_split L1 : forall a s p L2,
  (forall a' s' p', In (UsedB a' s' p') L1 -> p' <> p) ->
  mark_free p (L1 ++ UsedB a s p :: L2) = L1 ++ FreeB a s :: L2.
Proof.
  induction L1 as [|[f sf|u su q] L1 IH]; intros a s p L2 Hne; cbn [app mark_free].
  - now rewrite Z.eqb_refl.
  - rewrite IH; [reflexivity|]. intros a' s' p' H. eapply Hne. right. exact H.
  - destruct (Z.eqb_spec q p) as [->|_].
    + exfalso. eapply Hne; [left; reflexivity|reflexivity].
    + rewrite IH; [reflexivity|]. intros a' s' p' H. eapply Hne. right. exact H.
Qed.

Lemma insert_block_split b l1 : forall l2,
  (forall a s, In (a, s) l1 -> a < fst b + snd b) ->
  (forall a s, In (a, s) l2 -> fst b + snd b <= a) ->
  insert_block b (l1 ++ l2) = l1 ++ b :: l2.
Proof.
  induction l1 as [|[a s] l1 IH]; intros l2 H1 H2; cbn [app insert_block].
  - destruct l2 as [|[a s] l2]; [reflexivity|]. cbn [insert_block].
    destruct (Z.leb_spec (fst b + snd b) a) as [Hle|Hgt]; [reflexivity|].
    specialize (H2 a s (or_introl eq_refl)). lia.
  - destruct (Z.leb_spec (fst b + snd b) a) as [Hle|Hgt].
    + specialize (H1 a s (or_introl eq_refl)). lia.
    + rewrite IH; [reflexivity| |exact H2].
      intros a' s' Hin. eapply H1. right. exact Hin.
Qed.

(** Nodes of a gapped prefix remain nodes after merging. *)
Lemma coalesce_r_keeps_prefix l1 : forall R q qs,
  gapped l1 -> In (q, qs) l1 -> exists qs', In (q, qs') (coalesce_r (l1 ++ R)).
Proof.
  induction l1 as [|[c cs] l1 IH]; intros R q qs Hg Hin; [contradiction|].
  destruct Hin as [[= -> ->]|Hin].
  - cbn [app]. destruct (coalesce_r_head q qs (l1 ++ R)) as (s' & r & ->).
    exists s'. now left.
  - destruct (IH R q qs (gapped_tail _ _ Hg) Hin) as (qs' & Hq).
    cbn [app coalesce_r].
    destruct l1 as [|[a s] l1]; [contradiction|].
    cbn [gapped] in Hg. destruct Hg as (Hcs & Hgap & _).
    destruct (coalesce_r_head a s (l1 ++ R)) as (s' & r & E).
    cbn [app] in Hq |- *. rewrite E in Hq |- *.
    destruct (Z.eqb_spec (c + cs) a); [lia|].
    exists qs'. now right.
Qed.

End FuseLayout.

(** * [InsertFreeMemBlock] on a list in memory *)

Section InsertLoop.

Variables (blk bs : Z).
Hypothesis blk_pos : 0 < blk.
Hypothesis blk_end : blk + bs < 2 ^ 64.
Hypothesis bs_pos : 0 < bs.

Lemma recs_apart_tail b l : recs_apart (b :: l) -> recs_apart l.
Proof. destruct b. cbn [recs_apart]. tauto. Qed.

Lemma insert_loop_spec l : forall fuel m d prev curr,
  byte_ok m -> lseg m curr l 0 -> recs_apart l ->
  (List.length l < fuel)%nat ->
  node m blk bs 0 ->
  (forall a s, In (a, s) l -> a + 16 <= blk \/ blk + 16 <= a) ->
  (prev = None -> d = curr) ->
  (forall q, prev = Some q ->
     (q + 16 <= blk \/ blk + 16 <= q) /\
     (forall a s, In (a, s) l -> q + 16 <= a) /\
     exists qs, node m q qs curr) ->
  exists m' d',
    insert_loop fuel m blk (blk + bs) d prev curr = Returned d' m' /\
    (prev = None -> lseg m' d' (insert_block (blk, bs) l) 0) /\
    (forall q, prev = Some q ->
       d' = d /\ exists qs n', node m q qs curr /\ node m' q qs n' /\
                               lseg m' n' (insert_block (blk, bs) l) 0) /\
    changes_only (fun x => within (blk + 8) 8 x \/
                           (exists q, prev = Some q /\ within (q + 8) 8 x) \/
                           (exists a s, In (a, s) l /\ a < blk + bs /\
                                        within (a + 8) 8 x)) m m'.
Proof.
  induction l as [|[a s] l IH]; intros fuel m d prev curr Hb Hl Hra Hfuel Hblk
    Hsep Hd Hprev;
    (destruct fuel as [|fuel]; [simpl in Hfuel; lia|]); cbn [insert_loop].
  - (* the end of the list: append *)
    cbn [lseg] in Hl. subst curr. cbn [Z.eqb].
    destruct (set_prev_next_spec m d prev blk 0 Hb ltac:(lia))
      as (m1 & d1 & E1 & N1 & P1 & C1).
    { intros q Hq. now destruct (Hprev q Hq) as (_ & _ & H). }
    rewrite E1.
    pose proof Hblk as (_ & Hb2 & Hbs & Hbn).
    unfold sizeof_MemBlock, off_size, off_next in *. rewrite Z.add_0_r in Hbs.
    assert (Hblk1 : node m1 blk bs 0).
    { eapply node_frame; [exact C1| |exact Hblk].
      intros x Hx (q & Hq & Hw). destruct (Hprev q Hq) as (Hqb & _).
      unfold within in *. lia. }
    destruct (store_mapped 8 m1 (blk + 8) 0) as (m2 & E2 & L2 & C2).
    { eapply mapped_sub; [exact (node_mapped _ _ _ _ Hblk1)| |]; simpl; lia. }
    unfold padd, off_next. rewrite (wrap_small (blk + 8)) by lia.
    unfold store64. rewrite E2.
    exists m2, d1. split; [reflexivity|].
    assert (Hblk2 : node m2 blk bs 0).
    { destruct Hblk1 as (? & ? & Hs1 & _).
      unfold node, sizeof_MemBlock, off_size, off_next in *.
      repeat (split; [assumption|]). split.
      - unfold load64 in *. rewrite (changes_only_load 8 _ _ _ _ C2); [exact Hs1|].
        unfold within. simpl. intros; lia.
      - unfold load64. rewrite L2. reflexivity. }
    cbn [insert_block lseg]. split; [|split].
    + intros Hn. destruct (N1 Hn) as (-> & _). split; [reflexivity|].
      exists 0. auto.
    + intros q Hq. destruct (P1 q Hq) as (-> & qs & Hq0 & Hq1).
      split; [reflexivity|]. exists qs, blk. split; [exact Hq0|]. split.
      * eapply node_frame; [exact C2| |exact Hq1].
        destruct (Hprev q Hq) as (Hqb & _). unfold within. intros x Hx. lia.
      * split; [reflexivity|]. exists 0. auto.
    + eapply changes_only_weaken; [|exact (changes_only_trans _ _ _ _ _ C1 C2)].
      cbv beta. change (Z.of_nat 8) with 8. tauto.
  - cbn [lseg] in Hl. destruct Hl as (-> & n & Hn & Hl).
    pose proof Hn as (Ha1 & Ha2 & Has & Han).
    unfold sizeof_MemBlock, off_size, off_next in *.
    destruct (Z.eqb_spec a 0); [lia|].
    cbn [insert_block fst snd].
    pose proof Hblk as (_ & Hb2 & Hbs & Hbn). rewrite Z.add_0_r in Hbs.
    destruct (Z.leb_spec (blk + bs) a) as [Hle|Hgt].
    + (* insert block before curr *)
      destruct (store_mapped 8 m (blk + 8) a) as (m1 & E1 & L1 & C1).
      { eapply mapped_sub; [exact (node_mapped _ _ _ _ Hblk)| |]; simpl; lia. }
      unfold padd, off_next. rewrite (wrap_small (blk + 8)) by lia.
      unfold store64. rewrite E1.
      assert (Hb1 : byte_ok m1) by (destruct C1 as (_ & B & _); auto).
      destruct (set_prev_next_spec m1 d prev blk a Hb1 ltac:(lia))
        as (m2 & d2 & E2 & N2 & P2 & C2).
      { intros q Hq. destruct (Hprev q Hq) as (Hqb & _ & qs & Hq0).
        exists qs. eapply node_frame; [exact C1| |exact Hq0].
        unfold within. simpl. intros x Hx. lia. }
      rewrite E2. exists m2, d2. split; [reflexivity|].
      pose proof (changes_only_trans _ _ _ _ _ C1 C2) as C.
      assert (Hrest : lseg m2 a ((a, s) :: l) 0).
      { eapply lseg_frame; [exact C| |cbn [lseg]; eauto].
        intros a' s' Hin x Hx [Hw|(q & Hq & Hw)]; unfold within in *; simpl in Hw.
        - destruct (Hsep a' s' Hin); lia.
        - destruct (Hprev q Hq) as (_ & Hql & _). specialize (Hql a' s' Hin). lia. }
      assert (Hblk2 : node m2 blk bs a).
      { unfold node, sizeof_MemBlock, off_size, off_next.
        split; [lia|]. split; [lia|]. rewrite Z.add_0_r. unfold load64. split.
        - rewrite (changes_only_load 8 _ _ _ _ C); [exact Hbs|].
          intros x Hx [Hw|(q & Hq & Hw)]; unfold within in *; simpl in Hx, Hw;
            [lia|]. destruct (Hprev q Hq) as (Hqb & _). lia.
        - rewrite (changes_only_load 8 _ _ _ _ C2).
          + rewrite L1. f_equal. apply Z.mod_small.
            change (256 ^ Z.of_nat 8) with (2 ^ 64). lia.
          + intros x Hx (q & Hq & Hw). destruct (Hprev q Hq) as (Hqb & _).
            unfold within in *. simpl in Hx. lia. }
      split; [|split].
      * intros Hnone. destruct (N2 Hnone) as (-> & _).
        cbn [lseg]. split; [reflexivity|]. exists a. auto.
      * intros q Hq. destruct (P2 q Hq) as (-> & qs & Hq1 & Hq2).
        destruct (Hprev q Hq) as (_ & _ & qs' & Hq0).
        assert (qs' = qs).
        { assert (Hq1' : node m1 q qs' a).
          { eapply node_frame; [exact C1| |exact Hq0].
            destruct (Hprev q Hq) as (Hqb & _).
            unfold within. simpl. intros x Hx. lia. }
          destruct Hq1 as (_ & _ & A & _), Hq1' as (_ & _ & B & _).
          unfold off_size in *. congruence. }
        subst qs'. split; [reflexivity|]. exists qs, blk.
        split; [exact Hq0|]. split; [exact Hq2|].
        cbn [lseg]. split; [reflexivity|]. exists a. auto.
      * eapply changes_only_weaken; [|exact C]. cbv beta.
        change (Z.of_nat 8) with 8. tauto.
    + (* walk on *)
      unfold padd, off_next. rewrite (wrap_small (a + 8)) by lia. rewrite Han.
      destruct (IH fuel m d (Some a) n Hb Hl (recs_apart_tail _ _ Hra)
                  ltac:(simpl in Hfuel; lia) Hblk)
        as (m' & d' & E & _ & P & C).
      { intros a' s' Hin. apply (Hsep a' s'). now right. }
      { discriminate. }
      { intros q [= <-]. split; [apply (Hsep a s); now left|]. split; [|eauto].
        cbn [recs_apart] in Hra. unfold sizeof_MemBlock in Hra.
        intros a' s' Hin. now apply (proj1 Hra a' s'). }
      rewrite E. exists m', d'. split; [reflexivity|].
      destruct (P a eq_refl) as (-> & s0 & n' & Hn0 & Hn' & Hl').
      assert (s0 = s).
      { destruct Hn0 as (_ & _ & A & _). unfold off_size in *. congruence. }
      subst s0.
      assert (Hnew : lseg m' a ((a, s) :: insert_block (blk, bs) l) 0).
      { cbn [lseg]. split; [reflexivity|]. eauto. }
      split; [|split].
      * intros Hnone. rewrite (Hd Hnone). exact Hnew.
      * intros q Hq. split; [reflexivity|].
        destruct (Hprev q Hq) as (Hqb & Hql & qs & Hq0).
        exists qs, a. split; [exact Hq0|]. split; [|exact Hnew].
        eapply node_frame; [exact C| |exact Hq0].
        intros x Hx [Hw|[(q' & [= <-] & Hw)|(a' & s' & Hin & _ & Hw)]];
          unfold within in *.
        -- lia.
        -- specialize (Hql a s (or_introl eq_refl)). lia.
        -- specialize (Hql a' s' (or_intror Hin)). lia.
      * eapply changes_only_weaken; [|exact C]. cbv beta.
        intros x [Hw|[(q' & [= <-] & Hw)|(a' & s' & Hin & Hlt & Hw)]].
        -- now left.
        -- right. right. exists a, s. split; [now left|]. split; [lia|exact Hw].
        -- right. right. exists a', s'. split; [now right|]. split; assumption.
Qed.

End InsertLoop.

(** * [MergeFreeBlocks] on a list in memory *)

Section MergeLoop.

Lemma coalesce_from_head l : forall c,
  exists s' r, coalesce_from c l = (fst c, s') :: r.
Proof.
  induction l as [|[a s] l IH]; intros [c cs]; cbn [coalesce_from fst snd].
  - eauto.
  - destruct (c + cs =? a); [apply (IH (c, cs + s))|eauto].
Qed.

Lemma coalesce_from_addrs l : forall c a s,
  In (a, s) (coalesce_from c l) -> a = fst c \/ exists s0, In (a, s0) l.
Proof.
  induction l as [|[b t] l IH]; intros [c cs] a s Hin;
    cbn [coalesce_from fst snd] in Hin.
  - destruct Hin as [[= <- <-]|[]]. now left.
  - destruct (c + cs =? b).
    + destruct (IH _ _ _ Hin) as [->|(s0 & H)]; [now left|].
      right. exists s0. now right.
    + destruct Hin as [[= <- <-]|Hin]; [now left|].
      destruct (IH _ _ _ Hin) as [->|(s0 & H)]; right.
      * exists t. now left.
      * exists s0. now right.
Qed.

Variable top : Z.
Hypothesis top_fits : top < 2 ^ 64.

Lemma merge_loop_spec l : forall fuel m c cs,
  byte_ok m -> lseg m c ((c, cs) :: l) 0 -> recs_apart ((c, cs) :: l) ->
  (forall a s, In (a, s) ((c, cs) :: l) -> 0 < s /\ a + s <= top) ->
  (List.length l < fuel)%nat ->
  exists m',
    merge_loop fuel m c = Returned tt m' /\
    lseg m' c (coalesce_from (c, cs) l) 0 /\
    changes_only (fun x => exists a s, In (a, s) (coalesce_from (c, cs) l) /\
                                       within a 16 x) m m'.
Proof.
  induction l as [|[n ns] l IH]; intros fuel m c cs Hb Hl Hra Hsz Hfuel;
    (destruct fuel as [|fuel]; [simpl in Hfuel; lia|]); cbn [merge_loop];
    cbn [lseg] in Hl; destruct Hl as (_ & nx & Hc & Hl);
    pose proof Hc as (Hc1 & Hc2 & Hcs & Hcn);
    unfold sizeof_MemBlock, off_size, off_next in *;
    rewrite Z.add_0_r in Hcs;
    unfold padd, off_size, off_next;
    rewrite (wrap_small (c + 8)) by lia; rewrite Hcn.
  - subst nx. cbn [Z.eqb]. exists m. split; [reflexivity|].
    split; [|apply changes_only_refl].
    cbn [coalesce_from lseg]. split; [reflexivity|]. exists 0. auto.
  - destruct Hl as (-> & nn & Hn & Hl).
    pose proof Hn as (Hn1 & Hn2 & Hns & Hnn).
    unfold sizeof_MemBlock, off_size, off_next in *. rewrite Z.add_0_r in Hns.
    destruct (Z.eqb_spec n 0); [lia|].
    rewrite (wrap_small (c + 0)), Z.add_0_r by lia. rewrite Hcs.
    destruct (Hsz c cs (or_introl eq_refl)) as (Hcs0 & Hce).
    destruct (Hsz n ns (or_intror (or_introl eq_refl))) as (Hns0 & Hne).
    cbn [recs_apart] in Hra. destruct Hra as (Hca & Hna & Hra).
    unfold sizeof_MemBlock in *.
    pose proof (Hca n ns (or_introl eq_refl)) as Hcn16.
    rewrite (wrap_small (c + cs)) by lia.
    cbn [coalesce_from fst snd].
    destruct (Z.eqb_spec (c + cs) n) as [Eadj|Eadj].
    + (* current and next block are adjacent *)
      rewrite (wrap_small (n + 8)), (wrap_small (n + 0)), Z.add_0_r by lia.
      rewrite Hnn.
      pose proof (load64_range _ _ _ Hb Hnn) as Hnnr.
      destruct (store_mapped 8 m (c + 8) nn) as (m1 & E1 & L1 & C1).
      { eapply mapped_sub; [exact (node_mapped _ _ _ _ Hc)| |]; simpl; lia. }
      unfold store64. rewrite E1.
      assert (Hcs1 : load64 m1 c = Some cs).
      { unfold load64. rewrite (changes_only_load 8 _ _ _ _ C1); [exact Hcs|].
        unfold within. simpl. intros; lia. }
      assert (Hns1 : load64 m1 n = Some ns).
      { unfold load64. rewrite (changes_only_load 8 _ _ _ _ C1); [exact Hns|].
        unfold within. simpl. intros; lia. }
      rewrite Hcs1, Hns1. rewrite (wrap_small (cs + ns)) by lia.
      destruct (store_mapped 8 m1 c (cs + ns)) as (m2 & E2 & L2 & C2).
      { eapply changes_only_mapped; [exact C1|].
        eapply mapped_sub; [exact (node_mapped _ _ _ _ Hc)| |]; simpl; lia. }
      rewrite E2.
      pose proof (changes_only_trans _ _ _ _ _ C1 C2) as C12.
      assert (Hb2 : byte_ok m2) by (destruct C12 as (_ & B & _); auto).
      assert (Hl2 : lseg m2 c ((c, cs + ns) :: l) 0).
      { cbn [lseg]. split; [reflexivity|]. exists nn. split.
        - unfold node, sizeof_MemBlock, off_size, off_next.
          split; [lia|]. split; [lia|]. rewrite Z.add_0_r. unfold load64. split.
          + rewrite L2. f_equal. apply Z.mod_small.
            change (256 ^ Z.of_nat 8) with (2 ^ 64). lia.
          + rewrite (changes_only_load 8 _ _ _ _ C2).
            * rewrite L1. f_equal. apply Z.mod_small.
              change (256 ^ Z.of_nat 8) with (2 ^ 64). lia.
            * unfold within. simpl. intros; lia.
        - eapply lseg_frame; [exact C12| |exact Hl].
          intros a' s' Hin x Hx. specialize (Hca a' s' (or_intror Hin)).
          unfold within in *. simpl. lia. }
      destruct (IH fuel m2 c (cs + ns) Hb2 Hl2) as (m' & E & Hl' & C').
      { cbn [recs_apart]. unfold sizeof_MemBlock. split; [|exact Hra].
        intros a' s' Hin. apply (Hca a' s'). now right. }
      { intros a' s' [[= <- <-]|Hin]; [lia|]. apply Hsz. right. now right. }
      { simpl in Hfuel. lia. }
      exists m'. split; [exact E|]. split; [exact Hl'|].
      eapply changes_only_weaken; [|exact (changes_only_trans _ _ _ _ _ C12 C')].
      cbv beta. intros x [Hw|Hw]; [|exact Hw].
      destruct (coalesce_from_head l (c, cs + ns)) as (s' & r & Er).
      exists c, s'. rewrite Er. split; [now left|].
      unfold within in *. simpl in Hw. lia.
    + destruct (IH fuel m n ns Hb) as (m' & E & Hl' & C').
      { cbn [lseg]. split; [reflexivity|]. eauto. }
      { cbn [recs_apart]. auto. }
      { intros a' s' Hin. apply Hsz. now right. }
      { simpl in Hfuel. lia. }
      exists m'. split; [exact E|]. split.
      * cbn [lseg]. split; [reflexivity|]. exists n. split; [|exact Hl'].
        eapply node_frame; [exact C'| |exact Hc].
        intros x Hx (a' & s' & Hin & Hw).
        apply coalesce_from_addrs in Hin. cbn [fst] in Hin.
        unfold within in *.
        destruct Hin as [->|(s0 & Hin)]; [lia|].
        specialize (Hca a' s0 (or_intror Hin)). lia.
      * eapply changes_only_weaken; [|exact C']. cbv beta.
        intros x (a' & s' & Hin & Hw). exists a', s'. split; [now right|exact Hw].
Qed.

End MergeLoop.

(** * [Free] on a well-formed allocator *)

Section FreeList.

Lemma gapped_recs_apart l : gapped l -> recs_apart l.
Proof.
  induction l as [|[a s] l IH]; intros Hg; cbn [recs_apart]; [exact I|].
  split; [|apply IH; eapply gapped_tail; exact Hg].
  intros a' s' Hin. pose proof (gapped_later _ _ _ Hg a' s' Hin).
  cbn [gapped] in Hg. unfold sizeof_MemBlock. lia.
Qed.

Lemma recs_apart_insert l1 : forall b l2,
  recs_apart l1 -> recs_apart l2 ->
  (forall x y, In (x, y) l1 -> x + 16 <= fst b) ->
  (forall x y x' y', In (x, y) l1 -> In (x', y') l2 -> x + 16 <= x') ->
  (forall x y, In (x, y) l2 -> fst b + 16 <= x) ->
  recs_apart (l1 ++ b :: l2).
Proof.
  induction l1 as [|[a s] l1 IH]; intros [b bs] l2 H1 H2 Hb H12 Hb2;
    cbn [app recs_apart fst] in *; unfold sizeof_MemBlock in *.
  - split; [exact Hb2|exact H2].
  - destruct H1 as (Ha & H1). split.
    + intros a' s' Hin. apply in_app_or in Hin.
      destruct Hin as [Hin|[[= <- <-]|Hin]].
      * now apply (Ha a' s').
      * apply (Hb a s). now left.
      * apply (H12 a s a' s'); [now left|exact Hin].
    + apply (IH (b, bs)); auto.
      * intros x y Hin. apply (Hb x y). now right.
      * intros x y x' y' Hin Hin'. apply (H12 x y x' y'); [now right|exact Hin'].
Qed.

(** The header part of [Free]: the block's record becomes a node. *)
Lemma Free_header m p a s :
  byte_ok m -> used_ok m a s p -> p - a - 17 <= 255 ->
  load32 m a = Some kMemMagicNum ->
  0 < a -> a + s < 2 ^ 64 -> mapped m a 16 ->
  exists m2,
    node m2 a s 0 /\ changes_only (within a 16) m m2 /\
    forall fuel st, heap st = m ->
      Free fuel p st =
      obind (InsertFreeMemBlock fuel a (set_heap st m2))
            (fun _ st' => MergeFreeBlocks fuel st').
Proof.
  intros Hb (Hs & Hp & Hshim & magic & Hmag & Hsz) Hpad Hm Ha Has Hmap.
  rewrite Hm in Hmag. injection Hmag as <-. specialize (Hsz eq_refl).
  destruct (store_mapped 8 m a s) as (m1 & E1 & L1 & C1).
  { eapply mapped_sub; [exact Hmap| |]; simpl; lia. }
  destruct (store_mapped 8 m1 (a + 8) 0) as (m2 & E2 & L2 & C2).
  { eapply changes_only_mapped; [exact C1|].
    eapply mapped_sub; [exact Hmap| |]; simpl; lia. }
  exists m2. split; [|split].
  - unfold node, sizeof_MemBlock, off_size, off_next.
    split; [lia|]. split; [lia|]. rewrite Z.add_0_r. unfold load64. split.
    + rewrite (changes_only_load 8 _ _ _ _ C2).
      * rewrite L1. f_equal. apply Z.mod_small.
        change (256 ^ Z.of_nat 8) with (2 ^ 64). lia.
      * unfold within. simpl. intros; lia.
    + rewrite L2. reflexivity.
  - eapply changes_only_weaken; [|exact (changes_only_trans _ _ _ _ _ C1 C2)].
    unfold within. simpl. intros x Hx. lia.
  - intros fuel st Hst. unfold Free. rewrite Hst.
    destruct (Z.eqb_spec p 0); [lia|].
    unfold padd. rewrite (wrap_small (p + -1)) by lia.
    replace (p + -1) with (p - 1) by lia. rewrite Hshim.
    rewrite (Z.mod_small (p - a - 17) 256) by lia.
    unfold sizeof_MemBlockHeader, off_magic, off_hsize, off_size, off_next.
    replace (p - 16 - (p - a - 17) - 1) with a by lia.
    rewrite (wrap_small a) by lia. rewrite Z.add_0_r, (wrap_small a) by lia.
    rewrite Hm. change (kMemMagicNum =? kMemMagicNum) with true. cbn [negb].
    rewrite (wrap_small (a + 8)) by lia. rewrite Hsz.
    replace (s - 16 + 16) with s by lia. rewrite (wrap_small s) by lia.
    unfold store64. rewrite E1, E2. reflexivity.
Qed.

End FreeList.

Section FreeMemory.

Lemma recs_apart_app_inv l1 : forall l2,
  recs_apart (l1 ++ l2) ->
  recs_apart l1 /\ recs_apart l2 /\
  forall x y x' y', In (x, y) l1 -> In (x', y') l2 -> x + 16 <= x'.
Proof.
  induction l1 as [|[a s] l1 IH]; intros l2 H; cbn [app recs_apart] in *.
  - split; [exact I|]. split; [exact H|]. intros x y x' y' [].
  - destruct H as (Ha & H). destruct (IH _ H) as (H1 & H2 & H12).
    unfold sizeof_MemBlock in *. split; [|split; [exact H2|]].
    + split; [|exact H1]. intros a' s' Hin. apply (Ha a' s').
      apply in_or_app. now left.
    + intros x y x' y' [[= <- <-]|Hin] Hin'.
      * apply (Ha x' y'). apply in_or_app. now right.
      * now apply (H12 x y x' y').
Qed.

Lemma In_insert_block b l x : In x (insert_block b l) <-> x = b \/ In x l.
Proof.
  induction l as [|[a s] l IH]; cbn [insert_block In].
  - intuition congruence.
  - destruct (fst b + snd b <=? a); cbn [In]; [intuition congruence|].
    rewrite IH. tauto.
Qed.

Lemma length_insert_block b l :
  List.length (insert_block b l) = S (List.length l).
Proof.
  induction l as [|[x y] r IH]; [reflexivity|]. cbn [insert_block].
  destruct (_ <=? _); cbn [List.length]; [reflexivity|]. now rewrite IH.
Qed.

(** A free block never reaches into the header of a used block whose
    predecessor is long enough. *)
Lemma recs_apart_distinct l : forall x sx y sy,
  recs_apart l -> In (x, sx) l -> In (y, sy) l -> x <> y ->
  x + 16 <= y \/ y + 16 <= x.
Proof.
  induction l as [|[a s] l IH]; intros x sx y sy Hra Hx Hy Hne; [contradiction|].
  cbn [recs_apart] in Hra. destruct Hra as (Hhd & Hra). unfold sizeof_MemBlock in Hhd.
  destruct Hx as [[= <- <-]|Hx], Hy as [[= <- <-]|Hy].
  - contradiction.
  - left. exact (Hhd _ _ Hy).
  - right. exact (Hhd _ _ Hx).
  - exact (IH _ _ _ _ Hra Hx Hy Hne).
Qed.

Lemma free_records_clear st L a s p :
  Inv st L -> In (UsedB a s p) L ->
  (forall f sf, In (FreeB f sf) L -> f + sf = a -> 16 <= sf) ->
  forall f sf, In (f, sf) (frees L) ->
    (f + sf <= a /\ f + 16 <= a) \/ a + s <= f.
Proof.
  intros I HU Hlong f sf Hin. apply In_frees in Hin.
  pose proof (tiles_positive _ _ _ _ (inv_tiles _ _ I) Hin) as Hpos.
  pose proof (tiles_positive _ _ _ _ (inv_tiles _ _ I) HU) as Hpos'.
  destruct (tiles_disjoint _ _ _ _ _ (inv_tiles _ _ I) Hin HU) as [E|[Hd|Hd]];
    [discriminate| |]; cbn [blk_addr blk_size] in *; [|now right].
  left. split; [exact Hd|].
  destruct (Z_le_gt_dec (f + 16) a) as [|Hgt]; [assumption|exfalso].
  destruct (free_record_reach _ _ _ _ _ _ _ _ a (inv_tiles _ _ I)
              (inv_apart _ _ I) (Inv_used_sized _ _ I) Hin HU)
    as (E & Hshort & _); unfold within; try lia.
  specialize (Hlong f sf Hin E). lia.
Qed.

End FreeMemory.

Section FreeCall.

Lemma Free_list fuel p st L a s :
  Inv st L -> In (UsedB a s p) L -> p - a - 17 <= 255 ->
  load32 (heap st) a = Some kMemMagicNum ->
  (forall f sf, In (FreeB f sf) L -> f + sf = a -> 16 <= sf) ->
  (S (List.length (frees L)) < fuel)%nat ->
  exists st',
    Free fuel p st = Returned tt st' /\
    region_size_ (this st') = region_size_ (this st) /\
    mmap_start_ (this st') = mmap_start_ (this st) /\
    flist (heap st') (head_ (this st'))
      (coalesce (insert_block (a, s) (frees L))) /\
    changes_only
      (fun x => within a 16 x \/
                (exists f sf, In (f, sf) (frees L) /\ f < a + s /\ within f 16 x) \/
                (exists f sf, In (f, sf) (coalesce (insert_block (a, s) (frees L)))
                              /\ within f 16 x))
      (heap st) (heap st') /\
    exists v, load64 (heap st') a = Some v /\
              (v = s \/ In (a, v) (coalesce (insert_block (a, s) (frees L)))).
Proof.
  intros I HU Hpad Hmag Hlong Hfuel.
  pose proof (inv_used _ _ I _ _ _ HU) as Hok.
  pose proof Hok as (Hs & Hp & _).
  pose proof (tiles_In _ _ _ _ (inv_tiles _ _ I) HU) as Hr.
  pose proof (inv_base _ _ I) as Hbase. pose proof (inv_top _ _ I) as Htop.
  cbn [blk_addr blk_size] in Hr. unfold TASK_SIZE, sizeof_MemBlock in *.
  set (top := mmap_start_ (this st) + region_size_ (this st) - 16) in *.
  pose proof (free_records_clear _ _ _ _ _ I HU Hlong) as Hclear.
  destruct (Free_header (heap st) p a s (inv_bytes _ _ I) Hok Hpad Hmag)
    as (m2 & Hnode & Ch & EF); try lia.
  { eapply mapped_sub; [exact (inv_mapped _ _ I)| |]; lia. }
  rewrite (EF fuel st eq_refl). clear EF.
  assert (Hb2 : byte_ok m2) by (destruct Ch as (_ & B & _); apply B, I).
  assert (Hl2 : lseg m2 (head_ (this st)) (frees L) 0).
  { eapply lseg_frame; [exact Ch| |exact (inv_flist _ _ I)].
    intros f sf Hin x Hx Hw. unfold within in *.
    destruct (Hclear f sf Hin); lia. }
  pose proof (gapped_recs_apart _ (Inv_gapped _ _ I)) as Hra.
  (* the insertion *)
  destruct (insert_loop_spec a s ltac:(lia) ltac:(lia) ltac:(lia) (frees L) fuel m2
              (head_ (this st)) None (head_ (this st)) Hb2 Hl2 Hra
              ltac:(lia) Hnode)
    as (m3 & d' & Ei & Hli & _ & Ci).
  { intros f sf Hin. destruct (Hclear f sf Hin); lia. }
  { reflexivity. }
  { discriminate. }
  specialize (Hli eq_refl).
  unfold InsertFreeMemBlock, obind. cbn [heap set_heap this head_].
  destruct Hnode as (_ & _ & Hsz2 & _). unfold padd.
  rewrite (wrap_small (a + off_size)) by (unfold off_size; lia).
  rewrite Hsz2. rewrite (wrap_small (a + s)) by lia. rewrite Ei.
  (* the list after insertion *)
  set (li := insert_block (a, s) (frees L)) in *.
  assert (Hin_li : forall x y, In (x, y) li ->
            (x, y) = (a, s) \/ In (x, y) (frees L)).
  { intros x y H. now apply In_insert_block in H. }
  assert (Hsz_li : forall x y, In (x, y) li -> 0 < y /\ x + y <= top).
  { intros x y H. destruct (Hin_li x y H) as [[= -> ->]|Hf]; [lia|].
    apply In_frees in Hf.
    pose proof (tiles_In _ _ _ _ (inv_tiles _ _ I) Hf) as Hr'.
    pose proof (tiles_positive _ _ _ _ (inv_tiles _ _ I) Hf).
    cbn [blk_addr blk_size] in *. unfold sizeof_MemBlock in Hr'. fold top in Hr'.
    lia. }
  assert (Hra_li : recs_apart li).
  { destruct (in_split _ _ HU) as (L1 & L2 & EL).
    pose proof (inv_tiles _ _ I) as Ht. rewrite EL in Ht.
    destruct (tiles_split _ _ _ _ _ Ht) as (Hbef & Haft).
    assert (E1 : forall x y, In (x, y) (frees L1) -> x + y <= a).
    { intros x y H. apply In_frees in H. exact (Hbef _ H). }
    assert (E2 : forall x y, In (x, y) (frees L2) -> a + s <= x).
    { intros x y H. apply In_frees in H. exact (Haft _ H). }
    unfold li. rewrite EL, frees_app. cbn [frees].
    rewrite EL, frees_app in Hra, Hclear. cbn [frees] in Hra, Hclear.
    assert (Hpos : forall x y, In (x, y) (frees L1) -> 0 < y).
    { intros x y H. apply In_frees in H.
      apply (tiles_positive _ _ _ _ Ht (in_or_app _ _ _ (or_introl H))). }
    rewrite insert_block_split.
    - destruct (recs_apart_app_inv _ _ Hra) as (R1 & R2 & R12).
      apply recs_apart_insert; auto; cbn [fst].
      + intros x y H. specialize (E1 x y H). specialize (Hpos x y H).
        destruct (Hclear x y (in_or_app _ _ _ (or_introl H))); lia.
      + intros x y H. specialize (E2 x y H). lia.
    - cbn [fst snd]. intros x y H. specialize (E1 x y H). specialize (Hpos x y H). lia.
    - cbn [fst snd]. exact E2. }
  destruct li as [|[c cs] l] eqn:Eli.
  { exfalso. assert (H : In (a, s) li) by (apply In_insert_block; now left).
    rewrite Eli in H. contradiction. }
  pose proof Hli as Hli'. cbn [lseg] in Hli'. destruct Hli' as (-> & n & (Hc & _) & _).
  assert (Hb3 : byte_ok m3) by (destruct Ci as (_ & B & _); auto).
  assert (Hlen : (List.length l < fuel)%nat).
  { assert (List.length ((c, cs) :: l) = S (List.length (frees L))).
    { rewrite <- Eli. apply length_insert_block. }
    cbn [List.length] in *. lia. }
  destruct (merge_loop_spec top ltac:(lia) l fuel m3 c cs Hb3 Hli Hra_li Hsz_li Hlen)
    as (m4 & Em & Hlm & Cm).
  unfold MergeFreeBlocks. cbn [heap set_heap set_head this head_].
  destruct (Z.eqb_spec c 0); [lia|]. rewrite Em.
  eexists. split; [reflexivity|]. cbn [heap set_heap set_head this head_
    region_size_ mmap_start_].
  split; [reflexivity|]. split; [reflexivity|]. split; [exact Hlm|]. split.
  { eapply changes_only_weaken;
      [|exact (changes_only_trans _ _ _ _ _
                 (changes_only_trans _ _ _ _ _ Ch Ci) Cm)].
    cbv beta. unfold within. cbn [coalesce].
    intros x [[Hx|[Hx|[(q & Hq & _)|(f & sf & Hf & Hlt & Hx)]]]|Hx].
    - now left.
    - left. lia.
    - discriminate.
    - right. left. exists f, sf. repeat split; try assumption; lia.
    - right. right. exact Hx. }
  (* the size field of the freed block afterwards *)
  cbn [coalesce].
  assert (Hdec : (exists v, In (a, v) (coalesce_from (c, cs) l)) \/
                 (forall v, ~ In (a, v) (coalesce_from (c, cs) l))).
  { generalize (coalesce_from (c, cs) l). intros F.
    induction F as [|[x y] F IH].
    - right. intros v [].
    - destruct (Z.eq_dec x a) as [->|Hne]; [left; exists y; now left|].
      destruct IH as [(v & Hv)|Hno]; [left; exists v; now right|].
      right. intros v [[= E _]|Hv]; [contradiction|exact (Hno v Hv)]. }
  destruct Hdec as [(v & Hv)|Hno].
  - destruct (lseg_In_node _ _ _ _ _ Hlm Hv) as (n' & (_ & _ & Hl & _) & _).
    exists v. unfold off_size in Hl. rewrite Z.add_0_r in Hl.
    split; [exact Hl|now right].
  - exists s. split; [|now left].
    assert (Ha_li : In (a, s) li) by (apply In_insert_block; now left).
    rewrite Eli in Ha_li.
    unfold load64 in *.
    rewrite (changes_only_load 8 _ _ _ _ Cm), (changes_only_load 8 _ _ _ _ Ci).
    + unfold off_size in Hsz2. rewrite Z.add_0_r in Hsz2. exact Hsz2.
    + unfold within. simpl. intros x Hx [Hw|[(q & Hq & _)|(f & sf & Hf & Hlt & Hw)]].
      * lia.
      * discriminate.
      * destruct (Hclear f sf Hf); lia.
    + unfold within. simpl. intros x Hx (a' & s' & Hin' & Hw).
      assert (Hne : a' <> a) by (intros ->; exact (Hno s' Hin')).
      assert (Hin_l : exists s0, In (a', s0) ((c, cs) :: l)).
      { destruct (coalesce_from_addrs _ _ _ _ Hin') as [E|(s0 & H0)].
        - exists cs. left. cbn [fst] in E. now rewrite E.
        - exists s0. now right. }
      destruct Hin_l as (s0 & Hin0).
      destruct (recs_apart_distinct _ _ _ _ _ Hra_li Hin0 Ha_li Hne); lia.
Qed.

End FreeCall.

Section FreeStep.

Lemma tiles_retag L1 b b' L2 base e :
  blk_addr b' = blk_addr b -> blk_size b' = blk_size b ->
  tiles (L1 ++ b :: L2) base e -> tiles (L1 ++ b' :: L2) base e.
Proof.
  intros Ha Hs Ht. apply tiles_app in Ht. destruct Ht as (mid & H1 & H2).
  apply tiles_app. exists mid. split; [exact H1|].
  cbn [tiles] in *. rewrite Ha, Hs. exact H2.
Qed.

(** The layout after [Free] of the block [(a, s, p)]. *)
Lemma free_layout_facts st L a s p :
  Inv st L -> In (UsedB a s p) L ->
  let L' := free_layout p L in
  tiles L' (mmap_start_ (this st))
    (mmap_start_ (this st) + region_size_ (this st) - sizeof_MemBlock) /\
  no_adjacent_free L' /\
  frees L' = coalesce (insert_block (a, s) (frees L)) /\
  (forall a' s' q, In (UsedB a' s' q) L' ->
     In (UsedB a' s' q) L /\ (a' + s' <= a \/ a + s <= a')) /\
  (forall f sf, In (f, sf) (frees L) -> f < a + s ->
     exists sf', In (FreeB f sf') L') /\
  (short_only_last L -> short_only_last L').
Proof.
  intros I HU L'.
  pose proof (inv_used _ _ I _ _ _ HU) as (Hs & Hp & _).
  destruct (in_split _ _ HU) as (L1 & L2 & EL).
  pose proof (inv_tiles _ _ I) as Ht. rewrite EL in Ht.
  destruct (tiles_split _ _ _ _ _ Ht) as (Hbef & Haft).
  cbn [blk_addr blk_size] in Hbef, Haft.
  assert (Hmark : mark_free p L = L1 ++ FreeB a s :: L2).
  { rewrite EL. apply mark_free_split. intros a' s' p' Hin ->.
    pose proof (Hbef _ Hin) as Hb. cbn [blk_addr blk_size] in Hb.
    assert (Hin' : In (UsedB a' s' p) L)
      by (rewrite EL; apply in_or_app; now left).
    pose proof (inv_used _ _ I _ _ _ Hin') as (_ & Hp' & _). lia. }
  assert (Htm : tiles (mark_free p L) (mmap_start_ (this st))
                  (mmap_start_ (this st) + region_size_ (this st) - sizeof_MemBlock)).
  { rewrite Hmark. eapply tiles_retag; [| |exact Ht]; reflexivity. }
  assert (Hfm : frees (mark_free p L) = insert_block (a, s) (frees L)).
  { rewrite Hmark, EL, !frees_app. cbn [frees]. symmetry.
    apply insert_block_split; cbn [fst snd].
    - intros x y H. apply In_frees in H. pose proof (Hbef _ H) as Hb.
      pose proof (tiles_positive _ _ _ _ Ht (in_or_app _ _ _ (or_introl H))).
      cbn [blk_addr blk_size] in *. lia.
    - intros x y H. apply In_frees in H. exact (Haft _ H). }
  unfold L', free_layout.
  split; [apply tiles_fuse; exact Htm|].
  split; [apply no_adjacent_free_fuse|].
  split; [rewrite (frees_fuse _ _ _ Htm), Hfm; symmetry;
          apply coalesce_is_coalesce_r|].
  split; [|split].
  - intros a' s' q Hin. apply (proj1 (In_used_fuse _ _ _ _)) in Hin.
    rewrite Hmark in Hin.
    apply in_app_or in Hin. destruct Hin as [Hin|[Hin|Hin]]; [|discriminate|].
    + split; [rewrite EL; apply in_or_app; now left|].
      left. exact (Hbef _ Hin).
    + split; [rewrite EL; apply in_or_app; right; now right|].
      right. exact (Haft _ Hin).
  - intros f sf Hin Hlt.
    assert (Hin1 : In (f, sf) (frees L1)).
    { rewrite EL, frees_app in Hin. cbn [frees] in Hin.
      apply in_app_or in Hin. destruct Hin as [Hin|Hin]; [exact Hin|].
      apply In_frees in Hin. pose proof (Haft _ Hin) as Ha.
      cbn [blk_addr] in Ha. lia. }
    assert (Hg1 : gapped (frees L1)).
    { pose proof (Inv_gapped _ _ I) as Hg. rewrite EL, frees_app in Hg.
      eapply gapped_app_l. exact Hg. }
    destruct (coalesce_r_keeps_prefix _ ((a, s) :: frees L2) f sf Hg1 Hin1)
      as (sf' & Hin').
    exists sf'. apply In_frees. rewrite (frees_fuse _ _ _ Htm), Hmark, frees_app.
    exact Hin'.
  - intros Hsl. eapply short_only_last_fuse; [exact Htm|].
    rewrite Hmark. rewrite EL in Hsl. clear - Hsl Hs.
    induction L1 as [|[f sf|u su q] L1 IH]; cbn [app short_only_last] in *.
    + split; [|exact Hsl]. left. unfold sizeof_MemBlock. lia.
    + destruct Hsl as ([Hsf|Hnil] & Hsl).
      * split; [now left|]. now apply IH.
      * destruct L1; discriminate.
    + now apply IH.
Qed.

End FreeStep.

Section FreeStepInv.

(** [Free] of a live pointer whose header is intact. *)
Lemma Free_step fuel p st L a s :
  Inv st L -> In (UsedB a s p) L -> p - a - 17 <= 255 ->
  load32 (heap st) a = Some kMemMagicNum ->
  (forall f sf, In (FreeB f sf) L -> f + sf = a -> 16 <= sf) ->
  (S (List.length (frees L)) < fuel)%nat ->
  exists st',
    Free fuel p st = Returned tt st' /\
    region_size_ (this st') = region_size_ (this st) /\
    mmap_start_ (this st') = mmap_start_ (this st) /\
    (short_safe st (free_layout p L) -> Inv st' (free_layout p L)) /\
    (short_only_last (free_layout p L) ->
     forall a' s' q, In (UsedB a' s' q) (free_layout p L) ->
       header_intact (heap st) a' s' -> header_intact (heap st') a' s').
Proof.
  intros I HU Hpad Hmag Hlong Hfuel.
  destruct (Free_list fuel p st L a s I HU Hpad Hmag Hlong Hfuel)
    as (st' & EF & Hrs & Hms & Hfl & C & _).
  destruct (free_layout_facts st L a s p I HU)
    as (Ht' & Hn' & Hfr & Hused & Hkeep & _).
  set (L' := free_layout p L) in *.
  rewrite <- Hfr in Hfl, C.
  assert (Hus' : used_sized L').
  { intros a' s' q Hin. destruct (Hused _ _ _ Hin) as (Hin' & _).
    eapply Inv_used_sized; eassumption. }
  assert (Hkept : forall a' s' q, In (UsedB a' s' q) L' -> short_safe st L' ->
            used_ok (heap st') a' s' q /\
            (short_only_last L' -> header_intact (heap st) a' s' ->
             header_intact (heap st') a' s')).
  { intros a' s' q Hin Hsafe. destruct (Hused _ _ _ Hin) as (Hin' & Hdis).
    apply (used_block_kept L' (heap st) (heap st') (head_ (this st'))
             (mmap_start_ (this st))
             (mmap_start_ (this st) + region_size_ (this st) - sizeof_MemBlock));
      try assumption.
    - exact (inv_base _ _ I).
    - pose proof (inv_top _ _ I). unfold sizeof_MemBlock. lia.
    - destruct C as (_ & B & _). apply B, (inv_bytes _ _ I).
    - now destruct C.
    - destruct Hsafe as [Hpl|Hsl]; [left|now right].
      intros n Hn. apply Hpl. unfold sizeof_MemBlock in Hn. lia.
    - exact (inv_used _ _ I _ _ _ Hin').
    - intros x Hx Hfree. destruct C as (_ & _ & U). apply U.
      pose proof (inv_used _ _ I _ _ _ HU) as (Hs & _).
      unfold within in *.
      intros [Hw|[(f & sf & Hf & Hlt & Hw)|(f & sf & Hf & Hw)]].
      + lia.
      + destruct (Hkeep f sf Hf Hlt) as (sf' & Hf').
        exact (Hfree f sf' Hf' Hw).
      + apply In_frees in Hf. exact (Hfree f sf Hf Hw). }
  exists st'. split; [exact EF|]. split; [exact Hrs|]. split; [exact Hms|].
  split.
  - intros Hsafe. constructor.
    + rewrite Hms. exact (inv_base _ _ I).
    + rewrite Hms, Hrs. exact (inv_top _ _ I).
    + rewrite Hms, Hrs.
      eapply changes_only_mapped; [exact C|exact (inv_mapped _ _ I)].
    + destruct C as (_ & B & _). apply B, (inv_bytes _ _ I).
    + rewrite Hms, Hrs. exact Ht'.
    + exact Hn'.
    + exact Hfl.
    + intros a' s' q Hin. now apply (Hkept _ _ _ Hin Hsafe).
  - intros Hsl a' s' q Hin.
    destruct (Hkept _ _ _ Hin (or_intror Hsl)) as (_ & H). exact (H Hsl).
Qed.

(** [Free] of a live pointer whose header lost its magic number throws. *)
Lemma Free_damaged fuel p st L a s :
  Inv st L -> In (UsedB a s p) L -> p - a - 17 <= 255 ->
  load32 (heap st) a <> Some kMemMagicNum ->
  Free fuel p st = Thrown (runtime_error "invalid mem block magic number") st.
Proof.
  intros I HU Hpad Hmag.
  pose proof (inv_used _ _ I _ _ _ HU) as (Hs & Hp & Hshim & magic & Hm & _).
  pose proof (tiles_In _ _ _ _ (inv_tiles _ _ I) HU) as Hr.
  pose proof (inv_base _ _ I) as Hbase. pose proof (inv_top _ _ I) as Htop.
  cbn [blk_addr blk_size] in Hr. unfold TASK_SIZE, sizeof_MemBlock in *.
  unfold Free. destruct (Z.eqb_spec p 0); [lia|].
  unfold padd. rewrite (wrap_small (p + -1)) by lia.
  replace (p + -1) with (p - 1) by lia. rewrite Hshim.
  rewrite (Z.mod_small (p - a - 17) 256) by lia.
  unfold sizeof_MemBlockHeader, off_magic.
  replace (p - 16 - (p - a - 17) - 1) with a by lia.
  rewrite (wrap_small a) by lia. rewrite Z.add_0_r, (wrap_small a) by lia.
  rewrite Hm. destruct (Z.eqb_spec magic kMemMagicNum) as [->|_];
    [contradiction|reflexivity].
Qed.

End FreeStepInv.


(** * [InsertFreeMemBlock] as a whole *)

Section InsertCall.

(** Where [insert_block] puts the block: after the nodes that start below
    its end, before the first node that does not. *)
Lemma insert_block_position b l :
  exists l1 l2,
    l = l1 ++ l2 /\ insert_block b l = l1 ++ b :: l2 /\
    Forall (fun n => fst n < fst b + snd b) l1 /\
    match l2 with
    | [] => True
    | (a, _) :: _ => fst b + snd b <= a
    end.
Proof.
  induction l as [|[a s] l IH]; cbn [insert_block].
  - exists [], []. repeat split. constructor.
  - destruct (Z.leb_spec (fst b + snd b) a) as [Hle|Hlt].
    + exists [], ((a, s) :: l). repeat split; [constructor|exact Hle].
    + destruct IH as (l1 & l2 & E & Ei & Hall & Hhd).
      exists ((a, s) :: l1), l2. rewrite Ei. cbn [app].
      repeat split; [now rewrite E| |exact Hhd].
      constructor; [exact Hlt|exact Hall].
Qed.

Lemma InsertFreeMemBlock_splices fuel blk bs st l :
  byte_ok (heap st) ->
  flist (heap st) (head_ (this st)) l -> recs_apart l ->
  (List.length l < fuel)%nat ->
  0 < blk -> 0 < bs -> blk + bs < 2 ^ 64 ->
  node (heap st) blk bs 0 ->
  (forall a s, In (a, s) l -> a + 16 <= blk \/ blk + 16 <= a) ->
  exists st',
    InsertFreeMemBlock fuel blk st = Returned tt st' /\
    flist (heap st') (head_ (this st')) (insert_block (blk, bs) l) /\
    byte_ok (heap st').
Proof.
  intros Hb Hl Hra Hfuel Hblk Hbs Hend Hnode Hsep.
  destruct (insert_loop_spec blk bs Hblk Hend Hbs l fuel (heap st)
              (head_ (this st)) None (head_ (this st)) Hb Hl Hra Hfuel Hnode Hsep)
    as (m' & d' & Ei & Hli & _ & (_ & Hb' & _)).
  { reflexivity. }
  { discriminate. }
  unfold InsertFreeMemBlock, padd.
  destruct Hnode as (_ & _ & Hsz & _). unfold off_size in *.
  rewrite (wrap_small (blk + 0)) by lia. rewrite Hsz.
  rewrite (wrap_small (blk + bs)) by lia. rewrite Ei.
  eexists. split; [reflexivity|]. cbn [heap set_heap set_head this head_].
  split; [exact (Hli eq_refl)|exact (Hb' Hb)].
Qed.

End InsertCall.

(** * Sequences of calls *)

Section Calls.

Lemma gapped_ascending l : gapped l -> ascending_apart l.
Proof.
  induction l as [|[a s] l IH]; [trivial|].
  cbn [gapped ascending_apart]. intros (Hs & Hn & Hg).
  split; [|exact (IH Hg)]. destruct l as [|[a' s'] l]; [trivial|lia].
Qed.

Lemma tiles_length L : forall a e,
  tiles L a e -> Z.of_nat (List.length L) <= e - a.
Proof.
  induction L as [|b L IH]; intros a e; cbn [tiles List.length].
  - intros ->. lia.
  - intros (_ & Hp & Ht). specialize (IH _ _ Ht). lia.
Qed.

Lemma length_frees L : (List.length (frees L) <= List.length L)%nat.
Proof.
  induction L as [|[a s|a s p] L IH]; cbn [frees List.length]; lia.
Qed.

Lemma Inv_fuel st L fuel :
  Inv st L -> (Z.to_nat (region_size_ (this st)) <= fuel)%nat ->
  (S (List.length (frees L)) < fuel)%nat.
Proof.
  intros I Hf. pose proof (tiles_length _ _ _ (inv_tiles _ _ I)) as Hl.
  pose proof (length_frees L). unfold sizeof_MemBlock in Hl. lia.
Qed.

Lemma In_used_mark_free p L a s q :
  In (UsedB a s q) L -> q <> p -> In (UsedB a s q) (mark_free p L).
Proof.
  intros Hin Hq. induction L as [|[b t|b t r] L IH]; [contradiction| |];
    cbn [mark_free].
  - destruct Hin as [Hin|Hin]; [discriminate|]. right. now apply IH.
  - destruct (Z.eqb_spec r p) as [->|Hr].
    + destruct Hin as [Hin|Hin]; [injection Hin as -> -> ->; contradiction|].
      now right.
    + destruct Hin as [Hin|Hin]; [now left|]. right. now apply IH.
Qed.

Lemma In_used_free_layout p L a s q :
  In (UsedB a s q) L -> q <> p -> In (UsedB a s q) (free_layout p L).
Proof.
  intros Hin Hq. unfold free_layout.
  apply (proj2 (In_used_fuse _ _ _ _)). now apply In_used_mark_free.
Qed.

End Calls.


(** * Calls on a region that avoids the magic pattern *)

Section PlacedCalls.

Lemma Alloc_returned_size fuel size alignment st p st' :
  Alloc fuel size alignment st = Returned p st' -> 0 < size.
Proof.
  unfold Alloc. destruct (Z.leb_spec size 0); [discriminate|]. intros _. lia.
Qed.

Lemma Alloc_call fuel size k st L held p st' :
  placement_ok (mmap_start_ (this st)) (region_size_ (this st)) ->
  Inv st L -> holds L held ->
  0 <= k < 64 -> size + 2 ^ k + 17 < 2 ^ 64 ->
  (List.length (frees L) < fuel)%nat ->
  Alloc fuel size (2 ^ k) st = Returned p st' ->
  exists L', Inv st' L' /\
             holds L' (if (p =? 0) || (8 <? k) then held else p :: held).
Proof.
  intros Hpl I Hh Hk Hov Hfuel EA.
  pose proof (Alloc_returned_size _ _ _ _ _ _ EA) as Hsz.
  set (req := req_space_of size (2 ^ k)).
  assert (Hal : 0 < 2 ^ k) by (apply Z.pow_pos_nonneg; lia).
  assert (Hreq : req = size + 2 ^ k + 17).
  { unfold req, req_space_of. rewrite wrap_small; unfold sizeof_MemBlock; lia. }
  destruct (fitting_node req (frees L)) as [[c cs]|] eqn:Efit.
  - destruct (Alloc_step fuel size k st L c cs I Hsz Hk Hov Hfuel Efit)
      as (p1 & st1 & E1 & Hp & _ & _ & _ & _ & HI & _).
    rewrite E1 in EA. injection EA as -> ->. fold req in HI.
    destruct (alloc_layout_fit req p L c cs _ _ Efit ltac:(lia)
                (inv_tiles _ _ I) (inv_apart _ _ I))
      as (_ & _ & Hnew & _ & Hkeep).
    exists (alloc_layout req p L). split; [apply HI; now left|].
    assert (Hold : holds (alloc_layout req p L) held).
    { intros q Hq. destruct (Hh q Hq) as (a & s & Hin & Hpad).
      exists a, s. split; [now apply Hkeep|exact Hpad]. }
    destruct ((p =? 0) || (8 <? k)) eqn:Ec; [exact Hold|].
    apply orb_false_iff in Ec. destruct Ec as (_ & Ek).
    apply Z.ltb_ge in Ek.
    intros q [<-|Hq]; [|now apply Hold].
    exists c, req. split; [exact Hnew|].
    assert (2 ^ k <= 2 ^ 8) by (apply Z.pow_le_mono_r; lia).
    change (2 ^ 8) with 256 in *. lia.
  - pose proof (Alloc_no_fit fuel size k st L I Hsz Hk Hfuel Efit) as E0.
    rewrite E0 in EA. injection EA as <- <-.
    exists L. split; [exact I|]. exact Hh.
Qed.

(** On such a region the block before a used block whose magic number
    is in place is not a short free block. *)
Lemma placed_long st L a s p :
  placement_ok (mmap_start_ (this st)) (region_size_ (this st)) ->
  Inv st L -> In (UsedB a s p) L ->
  load32 (heap st) a = Some kMemMagicNum ->
  forall f sf, In (FreeB f sf) L -> f + sf = a -> 16 <= sf.
Proof.
  intros Hpl I HU Hmag f sf Hf Ha.
  destruct (Z.le_gt_cases 16 sf) as [|Hshort]; [assumption|exfalso].
  pose proof (tiles_positive _ _ _ _ (inv_tiles _ _ I) Hf) as Hpos.
  cbn [blk_size] in Hpos.
  destruct (lseg_In_node _ _ _ _ _ (inv_flist _ _ I) (proj2 (In_frees _ _ _) Hf))
    as (n & (_ & _ & Hsz & Hnx) & Hn).
  unfold off_size, off_next in *. rewrite Z.add_0_r in Hsz.
  pose proof (inv_base _ _ I) as Hbase. pose proof (inv_top _ _ I) as Htop.
  unfold TASK_SIZE in Htop.
  assert (Hrange : 0 <= n < 2 ^ 47 /\ magic_free n).
  { destruct Hn as [->|(s' & Hin)].
    - split; [lia|apply magic_free_0].
    - apply In_frees in Hin.
      pose proof (tiles_In _ _ _ _ (inv_tiles _ _ I) Hin) as Hr.
      pose proof (tiles_positive _ _ _ _ (inv_tiles _ _ I) Hin) as Hp'.
      cbn [blk_addr blk_size] in Hr, Hp'. unfold sizeof_MemBlock in Hr.
      split; [lia|]. apply Hpl. lia. }
  destruct Hrange as (Hr & Hmf).
  refine (overhang_not_magic (heap st) f sf n kMemMagicNum (inv_bytes _ _ I)
            Hsz Hnx ltac:(lia) Hr Hmf _ eq_refl).
  rewrite Ha. exact Hmag.
Qed.

Lemma Free_call fuel p st L held st' :
  placement_ok (mmap_start_ (this st)) (region_size_ (this st)) ->
  Inv st L -> holds L held -> In p held ->
  (S (List.length (frees L)) < fuel)%nat ->
  Free fuel p st = Returned tt st' ->
  exists L', Inv st' L' /\ holds L' (remove Z.eq_dec p held).
Proof.
  intros Hpl I Hh Hp Hfuel EF.
  destruct (Hh p Hp) as (a & s & HU & Hpad).
  assert (Hmag : load32 (heap st) a = Some kMemMagicNum).
  { assert (D : {load32 (heap st) a = Some kMemMagicNum} +
                {load32 (heap st) a <> Some kMemMagicNum})
      by (decide equality; apply Z.eq_dec).
    destruct D as [E|E]; [exact E|].
    rewrite (Free_damaged fuel p st L a s I HU Hpad E) in EF. discriminate. }
  destruct (Free_step fuel p st L a s I HU Hpad Hmag
              (placed_long st L a s p Hpl I HU Hmag) Hfuel)
    as (st1 & E1 & _ & _ & HI & _).
  rewrite E1 in EF. injection EF as ->.
  exists (free_layout p L). split; [apply HI; now left|].
  intros q Hq. apply in_remove in Hq. destruct Hq as (Hq & Hne).
  destruct (Hh q Hq) as (a' & s' & Hin & Hpad').
  exists a', s'. split; [now apply In_used_free_layout|exact Hpad'].
Qed.

End PlacedCalls.


(** * The invariant along a sequence of calls *)

Section Runs.

Variable fuel : nat.

Lemma client_step_Inv st held x st' held' L :
  placement_ok (mmap_start_ (this st)) (region_size_ (this st)) ->
  (Z.to_nat (region_size_ (this st)) <= fuel)%nat ->
  Inv st L -> holds L held ->
  client_step fuel (st, held) x (st', held') ->
  region_size_ (this st') = region_size_ (this st) /\
  mmap_start_ (this st') = mmap_start_ (this st) /\
  exists L', Inv st' L' /\ holds L' held'.
Proof.
  intros Hpl Hfuel I Hh Hstep.
  pose proof (Inv_fuel _ _ _ I Hfuel) as Hf.
  inversion Hstep as [? ? size k p ? Hk Hov EA|? ? size k e ? EA
                     |? ? p ? Hin EF|? ? p e ? EF]; subst.
  - destruct (Alloc_keeps_region _ _ _ _ _ _ EA) as (R1 & R2 & _).
    split; [exact R1|]. split; [exact R2|].
    eapply Alloc_call; try eassumption. lia.
  - destruct (Alloc_thrown _ _ _ _ _ _ EA) as [-> _]. eauto.
  - destruct (Free_keeps_region _ _ _ _ _ EF) as (R1 & R2 & _).
    split; [exact R1|]. split; [exact R2|].
    eapply Free_call; eassumption.
  - destruct (Free_thrown _ _ _ _ _ EF) as [-> _]. eauto.
Qed.

Lemma client_run_Inv c1 xs c3 :
  client_run fuel c1 xs c3 ->
  forall L,
    placement_ok (mmap_start_ (this (fst c1))) (region_size_ (this (fst c1))) ->
    (Z.to_nat (region_size_ (this (fst c1))) <= fuel)%nat ->
    Inv (fst c1) L -> holds L (snd c1) ->
    region_size_ (this (fst c3)) = region_size_ (this (fst c1)) /\
    mmap_start_ (this (fst c3)) = mmap_start_ (this (fst c1)) /\
    exists L', Inv (fst c3) L' /\ holds L' (snd c3).
Proof.
  induction 1 as [c|[st held] x [st2 held2] xs c3 Hstep Hrun IH];
    intros L Hpl Hfuel I Hh.
  - eauto.
  - cbn [fst snd] in *.
    destruct (client_step_Inv _ _ _ _ _ _ Hpl Hfuel I Hh Hstep)
      as (R1 & R2 & L2 & I2 & Hh2).
    rewrite <- R1, <- R2 in Hpl. rewrite <- R1 in Hfuel.
    destruct (IH L2 Hpl Hfuel I2 Hh2) as (R1' & R2' & L3 & I3 & Hh3).
    split; [congruence|]. split; [congruence|]. eauto.
Qed.

(** A call that meets [call_ok] returns or throws. *)
Lemma client_step_total st held x L :
  placement_ok (mmap_start_ (this st)) (region_size_ (this st)) ->
  (Z.to_nat (region_size_ (this st)) <= fuel)%nat ->
  Inv st L -> holds L held -> call_ok held x ->
  exists c, client_step fuel (st, held) x c.
Proof.
  intros Hpl Hfuel I Hh Hok.
  pose proof (Inv_fuel _ _ _ I Hfuel) as Hf.
  destruct x as [size k|p]; cbn [call_ok] in Hok.
  - destruct Hok as (Hk & Hov).
    destruct (Alloc fuel size (2 ^ k) st) as [p st'|e st'| |] eqn:EA.
    + eexists. eapply step_Alloc; eassumption.
    + eexists. eapply step_Alloc_throws; eassumption.
    + exfalso. destruct (Z.le_gt_cases size 0) as [Hs|Hs].
      * unfold Alloc in EA. destruct (Z.leb_spec size 0); [discriminate|lia].
      * destruct (fitting_node (req_space_of size (2 ^ k)) (frees L))
          as [[c cs]|] eqn:Efit.
        -- destruct (Alloc_step fuel size k st L c cs I Hs Hk Hov ltac:(lia) Efit)
             as (p1 & st1 & E1 & _). congruence.
        -- pose proof (Alloc_no_fit fuel size k st L I Hs Hk ltac:(lia) Efit).
           congruence.
    + exfalso. destruct (Z.le_gt_cases size 0) as [Hs|Hs].
      * unfold Alloc in EA. destruct (Z.leb_spec size 0); [discriminate|lia].
      * destruct (fitting_node (req_space_of size (2 ^ k)) (frees L))
          as [[c cs]|] eqn:Efit.
        -- destruct (Alloc_step fuel size k st L c cs I Hs Hk Hov ltac:(lia) Efit)
             as (p1 & st1 & E1 & _). congruence.
        -- pose proof (Alloc_no_fit fuel size k st L I Hs Hk ltac:(lia) Efit).
           congruence.
  - destruct (Hh p Hok) as (a & s & HU & Hpad).
    assert (D : {load32 (heap st) a = Some kMemMagicNum} +
                {load32 (heap st) a <> Some kMemMagicNum})
      by (decide equality; apply Z.eq_dec).
    destruct D as [Hmag|Hmag].
    + destruct (Free_step fuel p st L a s I HU Hpad Hmag
                  (placed_long st L a s p Hpl I HU Hmag) Hf)
        as (st1 & E1 & _).
      eexists. eapply step_Free; eassumption.
    + pose proof (Free_damaged fuel p st L a s I HU Hpad Hmag) as E1.
      eexists. eapply step_Free_throws; eassumption.
Qed.

End Runs.


(** * The free list stays in address order *)

Lemma example_placement : placement_ok example_base 4096.
Proof.
  intros n Hn. unfold magic_free, example_base, kMemMagicNum in *.
  assert (E1 : n mod 2 ^ 32 = n - 139637976727552).
  { symmetry. apply (Z.mod_unique_pos _ _ 32512); lia. }
  assert (E2 : n / 256 = 545460846592 + (n - 139637976727552) / 256).
  { replace n with ((n - 139637976727552) + 545460846592 * 256) at 1 by lia.
    rewrite Z.div_add by lia. lia. }
  assert (H3 : 0 <= (n - 139637976727552) / 256 < 16).
  { split; [apply Z.div_pos; lia|apply Z.div_lt_upper_bound; lia]. }
  assert (E4 : (n / 256) mod 2 ^ 32 = (n - 139637976727552) / 256).
  { rewrite E2. symmetry. apply (Z.mod_unique_pos _ _ 127); lia. }
  rewrite E1, E4. lia.
Qed.

Lemma example_alloc_free :
  match Alloc 4097 101 (2 ^ 3) example_state with
  | Returned p st1 =>
      p = example_base + 24 /\
      match Free 4097 p st1 with
      | Returned _ _ => True
      | _ => False
      end
  | _ => False
  end.
Proof. vm_compute. split; [reflexivity|exact I]. Qed.

Lemma example_state_eq :
  exists m,
    example_alloc = Returned (mkMalloc 4096 example_base example_base) m /\
    example_state = mkState (mkMalloc 4096 example_base example_base) m.
Proof.
  destruct example_alloc_returns as (m & E). exists m. split; [exact E|].
  unfold example_state. now rewrite E.
Qed.

Lemma example_calls :
  exists st,
    client_run 4097 (example_state, [])
      [call_Alloc 101 3; call_Free (example_base + 24)] (st, []).
Proof.
  pose proof example_alloc_free as H.
  destruct (Alloc 4097 101 (2 ^ 3) example_state) as [p st1| | |] eqn:EA;
    try contradiction.
  destruct H as (Hp & HF).
  destruct (Free 4097 p st1) as [[] st2| | |] eqn:EF; try contradiction.
  exists st2. subst p.
  eapply run_cons.
  - eapply (step_Alloc 4097 example_state [] 101 3); [lia|lia|exact EA].
  - replace ((example_base + 24 =? 0) || (8 <? 3)) with false by reflexivity.
    eapply run_cons; [|apply run_nil].
    replace (@nil Z) with (remove Z.eq_dec (example_base + 24) [example_base + 24])
      at 2.
    + eapply step_Free; [now left|exact EF].
    + cbn [remove]. destruct (Z.eq_dec _ _); [reflexivity|contradiction].
Qed.

(** After construction and after every call of a client that asks for
    power-of-two alignments with a representable [size + alignment + 17]
    and frees only pointers it holds from requests with an alignment of
    at most 256, the free list in memory is strictly ascending by address
    and no node ends where the next one starts; and every further such
    call returns or throws.  The region must avoid the magic pattern
    ([placement_ok]), and calls that throw may be of any kind. *)
Theorem calls_keep_free_list_ascending
    (fuel : nat) (N P base errno : Z) (m : mem) (obj : Malloc) (m' : mem)
    (calls : list call) (st : state) (held : list Z)
    (Hbytes : byte_ok m) (Huser : user_mem m) (HN : 0 < N)
    (Hsize : 16 < round_region_size N P)
    (Hctor : Malloc_ctor N P (Some base) errno m = Returned obj m')
    (Hplace : placement_ok base (round_region_size N P))
    (Hfuel : (Z.to_nat (round_region_size N P) <= fuel)%nat)
    (Hrun : client_run fuel (mkState obj m', []) calls (st, held)) :
  (exists l, flist (heap st) (head_ (this st)) l /\ ascending_apart l) /\
  (forall x, call_ok held x -> exists c, client_step fuel (st, held) x c).
Proof.
  destruct (ctor_Inv N P base errno m obj m' Hbytes Huser ltac:(lia) Hsize Hctor)
    as (I0 & Eobj).
  assert (R1 : region_size_ obj = round_region_size N P) by now rewrite Eobj.
  assert (R2 : mmap_start_ obj = base) by now rewrite Eobj.
  destruct (client_run_Inv fuel _ _ _ Hrun
              [FreeB base (round_region_size N P - sizeof_MemBlock)])
    as (R1' & R2' & L & I & Hh); cbn [fst snd this].
  - now rewrite R1, R2.
  - now rewrite R1.
  - exact I0.
  - intros p [].
  - cbn [fst snd this] in *. split.
    + exists (frees L). split; [exact (inv_flist _ _ I)|].
      apply gapped_ascending. exact (Inv_gapped _ _ I).
    + intros x Hx. apply (client_step_total fuel st held x L); try assumption.
      * now rewrite R1', R2', R1, R2.
      * now rewrite R1', R1.
Qed.

Lemma calls_keep_free_list_ascending_witness :
  exists st l,
    client_run 4097 (example_state, [])
      [call_Alloc 101 3; call_Free (example_base + 24)] (st, []) /\
    flist (heap st) (head_ (this st)) l /\ ascending_apart l.
Proof.
  destruct example_state_eq as (m & E & Es).
  destruct example_calls as (st & Hrun).
  destruct (calls_keep_free_list_ascending 4097 4096 4096 example_base 0
              empty_mem (mkMalloc 4096 example_base example_base) m
              [call_Alloc 101 3; call_Free (example_base + 24)] st [])
    as ((l & Hl & Ha) & _).
  - intros a b H. discriminate.
  - intros a H. now elim H.
  - lia.
  - reflexivity.
  - exact E.
  - exact example_placement.
  - vm_compute. lia.
  - rewrite <- Es. exact Hrun.
  - exists st, l. auto.
Defined.


(** * Where [InsertFreeMemBlock] puts a block *)

Lemma example_freeing_list :
  head_ (this example_freeing) = example_base + 126 /\
  load64 (heap example_freeing) (example_base + 126) = Some 3954 /\
  load64 (heap example_freeing) (example_base + 134) = Some 0 /\
  load64 (heap example_freeing) example_base = Some 126 /\
  load64 (heap example_freeing) (example_base + 8) = Some 0.
Proof. vm_compute. repeat split. Qed.

Lemma example_freeing_bytes : byte_ok (heap example_freeing).
Proof.
  destruct (Alloc_step 2 101 3 example_state [FreeB example_base 4080]
              example_base 4080 example_Inv)
    as (p & st1 & EA & _ & _ & _ & _ & _ & HI & _); try lia.
  - cbn. lia.
  - reflexivity.
  - assert (Hb : byte_ok (heap st1)).
    { refine (inv_bytes _ _ (HI _)). right. cbn. auto. }
    unfold example_freeing. rewrite EA.
    destruct (store64 (heap st1) example_base 126) as [m1|] eqn:E1; [|exact Hb].
    pose proof (storeN_byte_ok _ _ _ _ _ Hb E1) as Hb1.
    destruct (store64 m1 (example_base + 8) 0) as [m2|] eqn:E2; [|exact Hb].
    exact (storeN_byte_ok _ _ _ _ _ Hb1 E2).
Qed.

(** [InsertFreeMemBlock(block)] on a free list whose records lie apart
    from the record of [block]: the call returns, and the list afterwards
    is the list before with [block] put in after every node that starts
    below [block + block->size] up to the first node that starts at or
    after it; with no such node [block] is the new tail. *)
Theorem InsertFreeMemBlock_position
    (fuel : nat) (blk bs : Z) (st : state) (l : list (Z * Z))
    (Hbytes : byte_ok (heap st))
    (Hlist : flist (heap st) (head_ (this st)) l)
    (Hapart : recs_apart l)
    (Hfuel : (List.length l < fuel)%nat)
    (Hblk : 0 < blk) (Hbs : 0 < bs) (Hend : blk + bs < 2 ^ 64)
    (Hnode : node (heap st) blk bs 0)
    (Hsep : forall a s, In (a, s) l -> a + 16 <= blk \/ blk + 16 <= a) :
  exists st' before after,
    InsertFreeMemBlock fuel blk st = Returned tt st' /\
    l = before ++ after /\
    flist (heap st') (head_ (this st')) (before ++ (blk, bs) :: after) /\
    Forall (fun n => fst n < blk + bs) before /\
    match after with
    | [] => True
    | (a, _) :: _ => blk + bs <= a
    end /\
    region_size_ (this st') = region_size_ (this st) /\
    mmap_start_ (this st') = mmap_start_ (this st).
Proof.
  destruct (InsertFreeMemBlock_splices fuel blk bs st l Hbytes Hlist Hapart
              Hfuel Hblk Hbs Hend Hnode Hsep) as (st' & E & Hl & _).
  destruct (insert_block_position (blk, bs) l) as (l1 & l2 & El & Ei & Hall & Hhd).
  destruct (InsertFreeMemBlock_keeps_region _ _ _ _ _ E) as (R1 & R2 & _).
  exists st', l1, l2. rewrite <- Ei. cbn [fst snd] in *. auto 10.
Qed.

Lemma InsertFreeMemBlock_position_witness :
  exists st',
    InsertFreeMemBlock 2 example_base example_freeing = Returned tt st' /\
    flist (heap st') (head_ (this st'))
      [(example_base, 126); (example_base + 126, 3954)].
Proof.
  destruct example_freeing_list as (Hh & Hs & Hn & Hbs & Hbn).
  destruct (InsertFreeMemBlock_position 2 example_base 126 example_freeing
              [(example_base + 126, 3954)])
    as (st' & before & after & E & El & Hl & Hall & Hhd & _).
  - exact example_freeing_bytes.
  - rewrite Hh. split; [reflexivity|]. exists 0.
    split; [|reflexivity]. unfold node, off_size, off_next, sizeof_MemBlock.
    rewrite Z.add_0_r. replace (example_base + 126 + 8) with (example_base + 134)
      by reflexivity.
    unfold example_base in *. repeat split; try assumption; lia.
  - cbn. split; [|exact I]. intros a s [].
  - cbn. lia.
  - unfold example_base. lia.
  - lia.
  - unfold example_base. lia.
  - unfold node, off_size, off_next, sizeof_MemBlock. rewrite Z.add_0_r.
    unfold example_base in *. repeat split; try assumption; lia.
  - intros a s [[= <- <-]|[]]. unfold example_base. lia.
  - exists st'. split; [exact E|].
    destruct before as [|b before].
    + cbn [app] in El. subst after. exact Hl.
    + exfalso. destruct before; [|discriminate El].
      cbn [app] in El. injection El as Eb _. subst b.
      inversion Hall as [|x y Hlt _]; subst. cbn [fst] in Hlt.
      unfold example_base in Hlt. lia.
Defined.


(** * What [MergeFreeBlocks] makes of a list *)

Section MergeCall.

Lemma coalesce_from_ascending l : forall c,
  recs_apart (c :: l) -> ascending_apart (coalesce_from c l).
Proof.
  induction l as [|[a s] l IH]; intros [c cs] Hra; cbn [coalesce_from fst snd].
  - cbn. auto.
  - cbn [recs_apart] in Hra. destruct Hra as (Hc & Ha & Hl).
    destruct (Z.eqb_spec (c + cs) a) as [E|E].
    + apply IH. cbn [recs_apart]. split; [|exact Hl].
      intros a' s' Hin. apply (Hc a' s'). now right.
    + assert (Hrest : recs_apart ((a, s) :: l)) by (cbn [recs_apart]; auto).
      specialize (IH (a, s) Hrest).
      destruct (coalesce_from_head l (a, s)) as (s' & r & Er).
      rewrite Er in *. cbn [fst] in *. cbn [ascending_apart]. split; [|exact IH].
      specialize (Hc a s (or_introl eq_refl)). unfold sizeof_MemBlock in Hc. lia.
Qed.

Lemma sizes_sum_cons n l : sizes_sum (n :: l) = snd n + sizes_sum l.
Proof. reflexivity. Qed.

Lemma sizes_sum_coalesce_from l : forall c,
  sizes_sum (coalesce_from c l) = snd c + sizes_sum l.
Proof.
  induction l as [|[a s] l IH]; intros [c cs]; cbn [coalesce_from fst snd].
  - reflexivity.
  - destruct (c + cs =? a).
    + rewrite IH, sizes_sum_cons. cbn [snd]. lia.
    + rewrite !sizes_sum_cons, IH. reflexivity.
Qed.

End MergeCall.

(** [MergeFreeBlocks] on a free list whose node records do not overlap
    and whose nodes end below [2^64]: the call returns, only [size] and
    [next] fields of the nodes that remain are written, and the list
    afterwards is the list before with every run of nodes in which each
    node ends where the next starts made into one node of the run's total
    size.  The result is strictly ascending, no node in it ends where the
    next starts, and it accounts for the same number of bytes. *)
Theorem MergeFreeBlocks_merges_runs
    (fuel : nat) (st : state) (l : list (Z * Z)) (top : Z)
    (Hbytes : byte_ok (heap st))
    (Hlist : flist (heap st) (head_ (this st)) l)
    (Hapart : recs_apart l)
    (Hsizes : forall a s, In (a, s) l -> 0 < s /\ a + s <= top)
    (Htop : top < 2 ^ 64)
    (Hfuel : (List.length l <= fuel)%nat) :
  exists st',
    MergeFreeBlocks fuel st = Returned tt st' /\
    this st' = this st /\
    flist (heap st') (head_ (this st')) (coalesce l) /\
    ascending_apart (coalesce l) /\
    sizes_sum (coalesce l) = sizes_sum l /\
    changes_only (fun x => exists a s, In (a, s) (coalesce l) /\ within a 16 x)
      (heap st) (heap st').
Proof.
  unfold MergeFreeBlocks. destruct l as [|[c cs] l].
  - cbn in Hlist. rewrite Hlist. cbn [Z.eqb]. exists st.
    split; [reflexivity|]. split; [reflexivity|].
    split; [exact Hlist|]. split; [exact I|].
    split; [reflexivity|apply changes_only_refl].
  - pose proof Hlist as Hl. cbn [flist lseg] in Hl.
    destruct Hl as (Eh & n & (Hpos & _) & _). rewrite Eh.
    destruct (Z.eqb_spec c 0); [lia|].
    destruct (merge_loop_spec top Htop l fuel (heap st) c cs Hbytes)
      as (m' & Em & Hl' & Cm).
    + unfold flist in Hlist. now rewrite Eh in Hlist.
    + exact Hapart.
    + exact Hsizes.
    + cbn [List.length] in Hfuel. lia.
    + rewrite Em. exists (set_heap st m'). cbn [coalesce set_heap this heap].
      split; [reflexivity|]. split; [reflexivity|].
      split; [rewrite Eh; exact Hl'|].
      split; [now apply coalesce_from_ascending|].
      split; [|exact Cm].
      rewrite sizes_sum_coalesce_from, sizes_sum_cons. reflexivity.
Qed.

Lemma example_freeing_inserted :
  exists st,
    InsertFreeMemBlock 2 example_base example_freeing = Returned tt st /\
    flist (heap st) (head_ (this st))
      [(example_base, 126); (example_base + 126, 3954)] /\
    byte_ok (heap st).
Proof.
  destruct example_freeing_list as (Hh & Hs & Hn & Hbs & Hbn).
  apply (InsertFreeMemBlock_splices 2 example_base 126 example_freeing
           [(example_base + 126, 3954)]).
  - exact example_freeing_bytes.
  - rewrite Hh. split; [reflexivity|]. exists 0.
    split; [|reflexivity]. unfold node, off_size, off_next, sizeof_MemBlock.
    rewrite Z.add_0_r. replace (example_base + 126 + 8) with (example_base + 134)
      by reflexivity.
    unfold example_base in *. repeat split; try assumption; lia.
  - cbn. split; [|exact I]. intros a s [].
  - cbn. lia.
  - unfold example_base. lia.
  - lia.
  - unfold example_base. lia.
  - unfold node, off_size, off_next, sizeof_MemBlock. rewrite Z.add_0_r.
    unfold example_base in *. repeat split; try assumption; lia.
  - intros a s [[= <- <-]|[]]. unfold example_base. lia.
Qed.

Lemma MergeFreeBlocks_merges_runs_witness :
  exists st st',
    InsertFreeMemBlock 2 example_base example_freeing = Returned tt st /\
    MergeFreeBlocks 2 st = Returned tt st' /\
    flist (heap st') (head_ (this st')) [(example_base, 4080)].
Proof.
  destruct example_freeing_inserted as (st & Ei & Hl & Hb).
  destruct (MergeFreeBlocks_merges_runs 2 st
              [(example_base, 126); (example_base + 126, 3954)]
              (example_base + 4080) Hb Hl)
    as (st' & E & _ & Hl' & _).
  - cbn. unfold sizeof_MemBlock, example_base. repeat split.
    + intros a s [[= <- <-]|[]]. lia.
    + intros a s [].
  - unfold example_base. intros a s [[= <- <-]|[[= <- <-]|[]]]; lia.
  - unfold example_base. lia.
  - cbn. lia.
  - exists st, st'. split; [exact Ei|]. split; [exact E|exact Hl'].
Defined.


(** * What [PrintFreeBlocks] prints *)

Lemma print_loop_spec l : forall fuel m curr out,
  lseg m curr l 0 -> (List.length l < fuel)%nat ->
  print_loop fuel m curr out = Returned tt (out ++ printed l).
Proof.
  induction l as [|[a s] l IH]; intros fuel m curr out Hl Hfuel;
    (destruct fuel as [|fuel]; [simpl in Hfuel; lia|]); cbn [print_loop].
  - cbn in Hl. subst curr. cbn [Z.eqb printed]. now rewrite app_nil_r.
  - cbn [lseg] in Hl. destruct Hl as (-> & n & (Hpos & Hend & Hs & Hn) & Hl).
    unfold sizeof_MemBlock, off_size, off_next, padd in *.
    destruct (Z.eqb_spec a 0); [lia|].
    rewrite !wrap_small by lia. rewrite Hs, Hn.
    rewrite (IH fuel m n _ Hl) by (cbn [List.length] in Hfuel; lia).
    rewrite <- app_assoc. cbn [app printed].
    assert (En : match l with [] => 0 | (a', _) :: _ => a' end = n).
    { destruct l as [|[a' s'] l]; cbn [lseg] in Hl; [now symmetry|].
      destruct Hl as (-> & _). reflexivity. }
    now rewrite En.
Qed.

(** [PrintFreeBlocks] on a well-formed free list returns after printing
    one entry per node, in list order, with the node's size and the
    address of the node after it (null for the last node), and then the
    line [NULL]; for an empty list it prints that line only. *)
Theorem PrintFreeBlocks_prints_every_node
    (fuel : nat) (st : state) (l : list (Z * Z)) (out : list output)
    (Hlist : flist (heap st) (head_ (this st)) l)
    (Hfuel : (List.length l < fuel)%nat) :
  PrintFreeBlocks fuel st out
    = Returned tt (out ++ printed l ++ [cout_NULL_endl]) /\
  List.length (printed l) = List.length l.
Proof.
  unfold PrintFreeBlocks. rewrite (print_loop_spec l fuel _ _ out Hlist Hfuel).
  rewrite app_assoc. split; [reflexivity|].
  clear. induction l as [|[a s] l IH]; cbn [printed List.length]; congruence.
Qed.

Lemma PrintFreeBlocks_prints_every_node_witness :
  PrintFreeBlocks 2 example_state []
    = Returned tt [printf_node 4080 0; cout_NULL_endl].
Proof.
  refine (proj1 (PrintFreeBlocks_prints_every_node 2 example_state
                   [(example_base, 4080)] [] _ _)).
  - exact (inv_flist _ _ example_Inv).
  - cbn. lia.
Defined.


(** * A moved-from allocator *)

(** After [Malloc(Malloc&& rhs)] the new object has the three fields
    [rhs] had, and [rhs] is empty: [RegionSize()] is zero, every valid
    [Alloc] request returns null and leaves the state alone,
    [PrintFreeBlocks] prints the line [NULL] only, and the destructor of
    [rhs] unmaps nothing, so that the region is unmapped once, by the new
    object. *)
Theorem moved_from_allocator_is_empty
    (fuel : nat) (size alignment kPageSize : Z) (rhs : Malloc) (m : mem)
    (out : list output)
    (Hfuel : (0 < fuel)%nat) (Hsize : 0 < size)
    (Halign : IsPowerOfTwo alignment = true) :
  let '(obj, rhs') := Malloc_move_ctor rhs in
  obj = rhs /\
  RegionSize (mkState rhs' m) = 0 /\
  Alloc fuel size alignment (mkState rhs' m) = Returned 0 (mkState rhs' m) /\
  PrintFreeBlocks fuel (mkState rhs' m) out = Returned tt (out ++ [cout_NULL_endl]) /\
  Malloc_dtor kPageSize rhs' m = m /\
  Malloc_dtor kPageSize rhs' (Malloc_dtor kPageSize obj m)
    = Malloc_dtor kPageSize rhs m.
Proof.
  unfold Malloc_move_ctor. destruct rhs as [rs ms hd]. cbn [region_size_ mmap_start_ head_].
  split; [reflexivity|]. split; [reflexivity|].
  destruct fuel as [|fuel]; [lia|].
  split; [|split; [reflexivity|split; reflexivity]].
  unfold Alloc. destruct (Z.leb_spec size 0); [lia|].
  assert (Hnz : (alignment =? 0) = false).
  { unfold IsPowerOfTwo in Halign. apply andb_true_iff in Halign.
    destruct Halign as (Hz & _). now apply negb_true_iff in Hz. }
  rewrite Hnz, Halign. reflexivity.
Qed.

Lemma moved_from_allocator_is_empty_witness :
  Alloc 1 100 8 (mkState moved_from (heap example_state))
    = Returned 0 (mkState moved_from (heap example_state)).
Proof.
  pose proof (moved_from_allocator_is_empty 1 100 8 4096 (this example_state)
                (heap example_state) []) as H.
  cbv beta iota delta [Malloc_move_ctor] in H.
  refine (proj1 (proj2 (proj2 (H _ _ _)))).
  - lia.
  - lia.
  - reflexivity.
Defined.

(** * Construction, calls, destruction *)

Section Ownership.

Variables (kPageSize base len : Z) (m0 : mem).







End Ownership.






(** * Payloads *)

Section Payloads.

(** No record of a free node reaches the payload of a used block. *)
Lemma payload_clear L base e a s p x f sf :
  tiles L base e -> no_adjacent_free L -> used_sized L ->
  In (UsedB a s p) L -> a + 17 <= p -> p <= x < a + s ->
  In (FreeB f sf) L -> ~ within f 16 x.
Proof.
  intros Ht Hn Hu HU Hp Hx Hf Hw.
  destruct (free_record_reach _ _ _ _ _ _ _ _ _ Ht Hn Hu Hf HU Hw) as (_ & _ & H).
  - unfold within. lia.
  - pose proof (tiles_positive _ _ _ _ Ht Hf) as Hpos. cbn [blk_size] in Hpos. lia.
Qed.

End Payloads.

(** The memory [Alloc] hands out is the client's alone.  For a request
    with a power-of-two alignment and [size + alignment + 17]
    representable, on a well-formed allocator: the [size] bytes at a
    non-null result lie inside the region, after its first 17 and before
    its last 16 bytes; they and the 17 bytes before them (header and
    alignment count) are disjoint from every block handed out earlier and
    not yet freed; and the call changes no byte of the payload of such a
    block. *)
Theorem Alloc_returns_fresh_memory
    (fuel : nat) (size k : Z) (st : state) (L : list block) (p : Z) (st' : state)
    (Hinv : Inv st L) (Hk : 0 <= k < 64) (Hfits : size + 2 ^ k + 17 < 2 ^ 64)
    (Hfuel : (List.length (frees L) < fuel)%nat)
    (Hret : Alloc fuel size (2 ^ k) st = Returned p st') (Hp : p <> 0) :
  mmap_start_ (this st) + 17 <= p /\
  p + size < mmap_start_ (this st) + region_size_ (this st) - 16 /\
  (forall a s q, In (UsedB a s q) L -> p + size < a \/ a + s <= p - 17) /\
  (forall a s q, In (UsedB a s q) L ->
     forall x, q <= x < a + s -> heap st' x = heap st x).
Proof.
  rename Hinv into I, Hfits into Hov, Hret into EA, Hp into Hp0.
  pose proof (Alloc_returned_size _ _ _ _ _ _ EA) as Hsz.
  set (req := req_space_of size (2 ^ k)).
  assert (Hal : 0 < 2 ^ k) by (apply Z.pow_pos_nonneg; lia).
  assert (Hreq : req = size + 2 ^ k + 17).
  { unfold req, req_space_of. rewrite wrap_small; unfold sizeof_MemBlock; lia. }
  destruct (fitting_node req (frees L)) as [[c cs]|] eqn:Efit.
  2:{ rewrite (Alloc_no_fit fuel size k st L I Hsz Hk Hfuel Efit) in EA.
      injection EA as <- <-. contradiction. }
  destruct (Alloc_fit fuel size k st L c cs I Hsz Hk Hov Hfuel Efit)
    as (p1 & st1 & E1 & Hp & _ & _ & _ & _ & _ & _ & C).
  rewrite E1 in EA. injection EA as -> ->. fold req in C.
  destruct (alloc_layout_fit req p L c cs _ _ Efit ltac:(lia)
              (inv_tiles _ _ I) (inv_apart _ _ I))
    as (Ht' & Hn' & Hnew & Hold & Hkeep).
  set (L' := alloc_layout req p L) in *.
  assert (Hus' : used_sized L').
  { intros a s q Hin. destruct (Hold _ _ _ Hin) as [[= -> -> ->]|Hin'].
    - lia.
    - eapply Inv_used_sized; eassumption. }
  pose proof (tiles_In _ _ _ _ Ht' Hnew) as Hr. cbn [blk_addr blk_size] in Hr.
  unfold sizeof_MemBlock in Hr.
  assert (Hapart : forall a s q, In (UsedB a s q) L -> c + req <= a \/ a + s <= c).
  { intros a s q Hin. pose proof (Hkeep _ _ _ Hin) as Hin'.
    destruct (tiles_disjoint _ _ _ _ _ Ht' Hin' Hnew) as [E|Hd].
    - exfalso.
      assert (Hfree : In (FreeB c cs) L).
      { destruct (fitting_node_split _ _ _ _ Efit) as (l1 & l2 & El & _).
        apply In_frees. rewrite El. apply in_or_app. right. now left. }
      rewrite E in Hin.
      pose proof (tiles_positive _ _ _ _ (inv_tiles _ _ I) Hfree) as Hpos.
      destruct (tiles_disjoint _ _ _ _ _ (inv_tiles _ _ I) Hin Hfree)
        as [E'|Hd]; [discriminate|].
      cbn [blk_addr blk_size] in *. lia.
    - cbn [blk_addr blk_size] in Hd. lia. }
  split; [lia|]. split; [lia|]. split.
  - intros a s q Hin. destruct (Hapart a s q Hin); lia.
  - intros a s q Hin x Hx. destruct C as (_ & _ & U). apply U.
    pose proof (inv_used _ _ I _ _ _ Hin) as (_ & Hq & _).
    intros [Hc|(f & sf & Hf & Hw)].
    + unfold within in Hc. destruct (Hapart a s q Hin); lia.
    + assert (Hq' : a + 17 <= q) by lia.
      exact (payload_clear L' _ _ a s q x f sf Ht' Hn' Hus'
               (Hkeep _ _ _ Hin) Hq' Hx Hf Hw).
Qed.


Section FreedBlock.

Lemma sizes_sum_insert_block b l :
  sizes_sum (insert_block b l) = snd b + sizes_sum l.
Proof.
  induction l as [|[a s] l IH]; cbn [insert_block]; [reflexivity|].
  destruct (_ <=? _); rewrite !sizes_sum_cons; [reflexivity|].
  rewrite IH. cbn [snd]. lia.
Qed.

Lemma sizes_sum_coalesce l : sizes_sum (coalesce l) = sizes_sum l.
Proof.
  destruct l as [|c l]; [reflexivity|]. cbn [coalesce].
  now rewrite sizes_sum_coalesce_from, sizes_sum_cons.
Qed.

(** Merging loses no byte: what a node covered, a node covers. *)
Lemma coalesce_from_covers l : forall c x xs,
  (forall a s, In (a, s) (c :: l) -> 0 <= s) ->
  (fst c <= x /\ x + xs <= fst c + snd c) \/ In (x, xs) l ->
  exists f sf, In (f, sf) (coalesce_from c l) /\ f <= x /\ x + xs <= f + sf.
Proof.
  induction l as [|[a s] l IH]; intros [c cs] x xs Hpos Hx;
    cbn [coalesce_from fst snd] in *.
  - destruct Hx as [Hx|[]]. exists c, cs. split; [now left|exact Hx].
  - pose proof (Hpos c cs (or_introl eq_refl)) as Hcs.
    pose proof (Hpos a s (or_intror (or_introl eq_refl))) as Hs.
    destruct (Z.eqb_spec (c + cs) a) as [E|E].
    + apply IH.
      * intros a' s' [[= <- <-]|Hin]; [lia|]. apply (Hpos a' s'). now right; right.
      * cbn [fst snd]. destruct Hx as [Hx|[[= <- <-]|Hin]]; [left; lia|left; lia|now right].
    + destruct Hx as [Hx|Hx].
      * exists c, cs. split; [now left|exact Hx].
      * destruct (IH (a, s) x xs) as (f & sf & Hin & Hc).
        -- intros a' s' Hin. apply (Hpos a' s'). now right.
        -- cbn [fst snd]. destruct Hx as [[= <- <-]|Hin]; [left; lia|now right].
        -- exists f, sf. split; [now right|exact Hc].
Qed.

Lemma Free_payload fuel p st L a s :
  Inv st L -> In (UsedB a s p) L -> p - a - 17 <= 255 ->
  load32 (heap st) a = Some kMemMagicNum ->
  (forall f sf, In (FreeB f sf) L -> f + sf = a -> 16 <= sf) ->
  (S (List.length (frees L)) < fuel)%nat ->
  forall st', Free fuel p st = Returned tt st' ->
    (exists f sf, In (FreeB f sf) (free_layout p L) /\ f <= a /\ a + s <= f + sf) /\
    sizes_sum (frees (free_layout p L)) = sizes_sum (frees L) + s /\
    (forall a' s' q, In (UsedB a' s' q) (free_layout p L) ->
       forall x, q <= x < a' + s' -> heap st' x = heap st x).
Proof.
  intros I HU Hpad Hmag Hlong Hfuel st' EF.
  destruct (Free_list fuel p st L a s I HU Hpad Hmag Hlong Hfuel)
    as (st1 & E1 & _ & _ & _ & C & _).
  rewrite E1 in EF. injection EF as ->.
  destruct (free_layout_facts st L a s p I HU)
    as (Ht' & Hn' & Hfr & Hused & Hkeep & _).
  set (L' := free_layout p L) in *.
  rewrite <- Hfr in C.
  assert (Hus' : used_sized L').
  { intros a' s' q Hin. destruct (Hused _ _ _ Hin) as (Hin' & _).
    eapply Inv_used_sized; eassumption. }
  pose proof (inv_used _ _ I _ _ _ HU) as (Hs & _).
  split; [|split].
  - assert (Hins : In (a, s) (insert_block (a, s) (frees L)))
      by (apply In_insert_block; now left).
    assert (Hpos : forall x y, In (x, y) (insert_block (a, s) (frees L)) -> 0 <= y).
    { intros x y H. apply In_insert_block in H. destruct H as [[= -> ->]|H]; [lia|].
      apply In_frees in H.
      pose proof (tiles_positive _ _ _ _ (inv_tiles _ _ I) H) as Hp.
      cbn [blk_size] in Hp. lia. }
    destruct (insert_block (a, s) (frees L)) as [|[c cs] l] eqn:El;
      [contradiction|]. cbn [coalesce] in Hfr.
    destruct (coalesce_from_covers l (c, cs) a s Hpos) as (f & sf & Hin & Hc).
    + cbn [fst snd]. destruct Hins as [[= -> ->]|Hin]; [left; lia|now right].
    + exists f, sf. split; [|exact Hc]. apply In_frees. rewrite Hfr. exact Hin.
  - rewrite Hfr, sizes_sum_coalesce, sizes_sum_insert_block. cbn [snd]. lia.
  - intros a' s' q Hin x Hx. destruct (Hused _ _ _ Hin) as (Hin' & Hdis).
    pose proof (inv_used _ _ I _ _ _ Hin') as (_ & Hq & _).
    assert (Hq' : a' + 17 <= q) by lia.
    destruct C as (_ & _ & U). apply U. unfold within.
    intros [Hw|[(f & sf & Hf & Hlt & Hw)|(f & sf & Hf & Hw)]].
    + lia.
    + destruct (Hkeep f sf Hf Hlt) as (sf' & Hf').
      exact (payload_clear L' _ _ a' s' q x f sf' Ht' Hn' Hus' Hin Hq' Hx Hf' Hw).
    + apply In_frees in Hf.
      exact (payload_clear L' _ _ a' s' q x f sf Ht' Hn' Hus' Hin Hq' Hx Hf Hw).
Qed.

End FreedBlock.


(** * Freeing twice *)

Section FreeTwice.

(** The low half of a 64-bit field, read as a 32-bit field. *)
Lemma load32_of_load64 m a v :
  byte_ok m -> load64 m a = Some v -> load32 m a = Some (v mod 2 ^ 32).
Proof.
  intros Hb Hv.
  pose proof (fun i (H : 0 <= i < 8) => loadN_byte 8 m a v i Hb Hv H) as B.
  pose proof (B 0 ltac:(lia)) as B0. pose proof (B 1 ltac:(lia)) as B1.
  pose proof (B 2 ltac:(lia)) as B2. pose proof (B 3 ltac:(lia)) as B3.
  rewrite Z.add_0_r in B0.
  unfold load32. rewrite !loadN_S. cbn [loadN].
  replace (a + 1 + 1) with (a + 2) by lia. replace (a + 2 + 1) with (a + 3) by lia.
  rewrite B0, B1, B2, B3. f_equal. rewrite (low32_bytes v). lia.
Qed.

Lemma coalesce_addrs l a s : In (a, s) (coalesce l) -> exists s0, In (a, s0) l.
Proof.
  destruct l as [|[c cs] l]; [contradiction|]. cbn [coalesce]. intros H.
  destruct (coalesce_from_addrs _ _ _ _ H) as [E|(s0 & H0)].
  - exists cs. left. cbn [fst] in E. now rewrite E.
  - exists s0. now right.
Qed.

Lemma Free_again fuel p st L a s st' :
  Inv st L -> In (UsedB a s p) L -> p - a - 17 <= 255 ->
  load32 (heap st) a = Some kMemMagicNum ->
  (forall f sf, In (FreeB f sf) L -> f + sf = a -> 16 <= sf) ->
  (S (List.length (frees L)) < fuel)%nat ->
  region_size_ (this st) <= kMemMagicNum ->
  Free fuel p st = Returned tt st' ->
  Free fuel p st' = Thrown (runtime_error "invalid mem block magic number") st'.
Proof.
  intros I HU Hpad Hmag Hlong Hfuel Hsmall EF.
  destruct (Free_list fuel p st L a s I HU Hpad Hmag Hlong Hfuel)
    as (st1 & E1 & _ & _ & _ & C & v & Hv & Hcase).
  rewrite E1 in EF. injection EF as ->.
  destruct (free_layout_facts st L a s p I HU) as (Ht' & _ & Hfr & _).
  pose proof (inv_used _ _ I _ _ _ HU) as (Hs & Hp & Hshim & _).
  pose proof (tiles_In _ _ _ _ (inv_tiles _ _ I) HU) as Hr.
  pose proof (inv_base _ _ I) as Hbase. pose proof (inv_top _ _ I) as Htop.
  cbn [blk_addr blk_size] in Hr. unfold TASK_SIZE, sizeof_MemBlock in *.
  pose proof (free_records_clear _ _ _ _ _ I HU Hlong) as Hclear.
  assert (Hb' : byte_ok (heap st')) by (destruct C as (_ & B & _); apply B, I).
  (* the alignment count is where it was *)
  assert (Hshim' : load8 (heap st') (p - 1) = Some ((p - a - 17) mod 256)).
  { rewrite <- Hshim. unfold load8. apply (changes_only_load 1 _ _ _ _ C).
    unfold within. simpl. intros x Hx [Hw|[(f & sf & Hf & _ & Hw)|(f & sf & Hf & Hw)]].
    - lia.
    - destruct (Hclear f sf Hf); lia.
    - apply coalesce_addrs in Hf. destruct Hf as (s0 & Hf).
      apply In_insert_block in Hf. destruct Hf as [[= -> _]|Hf]; [lia|].
      destruct (Hclear f s0 Hf); lia. }
  (* the magic field now holds the low half of a size *)
  assert (Hvr : 0 < v < kMemMagicNum).
  { destruct Hcase as [->|Hin]; [lia|].
    rewrite <- Hfr in Hin. apply In_frees in Hin.
    pose proof (tiles_In _ _ _ _ Ht' Hin) as Hr'.
    pose proof (tiles_positive _ _ _ _ Ht' Hin) as Hp'.
    cbn [blk_addr blk_size] in Hr', Hp'. lia. }
  pose proof (load32_of_load64 _ _ _ Hb' Hv) as Hm'.
  rewrite Z.mod_small in Hm' by (unfold kMemMagicNum in Hvr; lia).
  unfold Free. destruct (Z.eqb_spec p 0); [lia|].
  unfold padd. rewrite (wrap_small (p + -1)) by lia.
  replace (p + -1) with (p - 1) by lia. rewrite Hshim'.
  rewrite (Z.mod_small (p - a - 17) 256) by lia.
  unfold sizeof_MemBlockHeader, off_magic.
  replace (p - 16 - (p - a - 17) - 1) with a by lia.
  rewrite (wrap_small a) by lia. rewrite Z.add_0_r, (wrap_small a) by lia.
  rewrite Hm'. destruct (Z.eqb_spec v kMemMagicNum); [lia|reflexivity].
Qed.

End FreeTwice.


(** * One call of [Free] *)

Lemma safe_long st L a s p :
  short_safe st L -> Inv st L -> In (UsedB a s p) L ->
  load32 (heap st) a = Some kMemMagicNum ->
  forall f sf, In (FreeB f sf) L -> f + sf = a -> 16 <= sf.
Proof.
  intros [Hpl|Hsl] I HU Hmag f sf Hf Ha.
  - exact (placed_long st L a s p Hpl I HU Hmag f sf Hf Ha).
  - exact (short_before_used L _ _ f sf a s p (inv_tiles _ _ I) Hsl Hf HU Ha).
Qed.

(** The example allocator after [Alloc(101)]: one block of 126 bytes at
    the start of the region, the rest free. *)
Lemma example_one_block :
  exists st1,
    Alloc 4097 101 (2 ^ 3) example_state = Returned (example_base + 24) st1 /\
    Inv st1 [UsedB example_base 126 (example_base + 24);
             FreeB (example_base + 126) 3954] /\
    header_intact (heap st1) example_base 126 /\
    region_size_ (this st1) = 4096 /\ mmap_start_ (this st1) = example_base.
Proof.
  destruct (Alloc_step 4097 101 3 example_state [FreeB example_base 4080]
              example_base 4080 example_Inv)
    as (p & st1 & EA & _ & _ & Hint & _ & _ & HI & _); try lia.
  - cbn. lia.
  - reflexivity.
  - pose proof example_alloc_free as H. rewrite EA in H. destruct H as (-> & _).
    exists st1. split; [exact EA|]. split; [|split; [exact Hint|]].
    + apply HI. right. cbn. unfold sizeof_MemBlock. split; [|exact I]. left. lia.
    + destruct (Alloc_keeps_region _ _ _ _ _ _ EA) as (R1 & R2 & _).
      rewrite R1, R2. destruct example_state_eq as (m & _ & ->). split; reflexivity.
Qed.

(** [Free] of a live pointer whose header holds its magic number, when
    short free blocks are harmless ([short_safe]): the call returns, the
    whole block is covered by a node of the free list afterwards, the
    free list accounts for that many bytes more, every other block
    handed out stays handed out, and no byte of the payload of another
    such block changes. *)
Theorem Free_returns_the_block_to_the_list
    (fuel : nat) (p : Z) (st : state) (L : list block) (a s : Z)
    (Hinv : Inv st L) (Hsafe : short_safe st L)
    (Hlive : In (UsedB a s p) L) (Hpad : p - a - 17 <= 255)
    (Hmagic : load32 (heap st) a = Some kMemMagicNum)
    (Hfuel : (S (List.length (frees L)) < fuel)%nat) :
  exists st' L',
    Free fuel p st = Returned tt st' /\ Inv st' L' /\
    (exists f sf, In (FreeB f sf) L' /\ f <= a /\ a + s <= f + sf) /\
    sizes_sum (frees L') = sizes_sum (frees L) + s /\
    (forall a' s' q, In (UsedB a' s' q) L -> q <> p -> In (UsedB a' s' q) L') /\
    (forall a' s' q, In (UsedB a' s' q) L' ->
       forall x, q <= x < a' + s' -> heap st' x = heap st x).
Proof.
  pose proof (safe_long st L a s p Hsafe Hinv Hlive Hmagic) as Hlong.
  destruct (Free_step fuel p st L a s Hinv Hlive Hpad Hmagic Hlong Hfuel)
    as (st' & EF & _ & _ & HI & _).
  destruct (Free_payload fuel p st L a s Hinv Hlive Hpad Hmagic Hlong Hfuel st' EF)
    as (Hcov & Hsum & Hframe).
  exists st', (free_layout p L). split; [exact EF|]. split.
  - apply HI. destruct Hsafe as [Hpl|Hsl]; [now left|right].
    now apply (free_layout_facts st L a s p Hinv Hlive).
  - split; [exact Hcov|]. split; [exact Hsum|]. split; [|exact Hframe].
    intros a' s' q Hin Hq. now apply In_used_free_layout.
Qed.

Lemma Free_returns_the_block_to_the_list_witness :
  exists st1 st2 L2,
    Alloc 4097 101 (2 ^ 3) example_state = Returned (example_base + 24) st1 /\
    Free 4097 (example_base + 24) st1 = Returned tt st2 /\
    Inv st2 L2 /\ sizes_sum (frees L2) = 4080.
Proof.
  destruct example_one_block as (st1 & EA & I1 & (Hm & _) & _).
  destruct (Free_returns_the_block_to_the_list 4097 (example_base + 24) st1
              [UsedB example_base 126 (example_base + 24);
               FreeB (example_base + 126) 3954] example_base 126 I1)
    as (st2 & L2 & EF & I2 & _ & Hsum & _).
  - right. cbn. unfold sizeof_MemBlock. split; [|exact I]. left. lia.
  - now left.
  - lia.
  - exact Hm.
  - cbn. lia.
  - exists st1, st2, L2. split; [exact EA|]. split; [exact EF|].
    split; [exact I2|exact Hsum].
Defined.

(** Freeing the same pointer a second time, with nothing in between, is
    caught: in a region of at most [0xDEADBEEF] bytes the first [Free]
    leaves the low half of a block size where the magic number was, so
    the second [Free] throws [std::runtime_error] and changes nothing. *)
Theorem double_free_throws
    (fuel : nat) (p : Z) (st : state) (L : list block) (a s : Z)
    (Hinv : Inv st L) (Hsafe : short_safe st L)
    (Hlive : In (UsedB a s p) L) (Hpad : p - a - 17 <= 255)
    (Hmagic : load32 (heap st) a = Some kMemMagicNum)
    (Hfuel : (S (List.length (frees L)) < fuel)%nat)
    (Hsmall : region_size_ (this st) <= kMemMagicNum) :
  exists st',
    Free fuel p st = Returned tt st' /\
    Free fuel p st' = Thrown (runtime_error "invalid mem block magic number") st'.
Proof.
  pose proof (safe_long st L a s p Hsafe Hinv Hlive Hmagic) as Hlong.
  destruct (Free_step fuel p st L a s Hinv Hlive Hpad Hmagic Hlong Hfuel)
    as (st' & EF & _).
  exists st'. split; [exact EF|].
  exact (Free_again fuel p st L a s st' Hinv Hlive Hpad Hmagic Hlong Hfuel Hsmall EF).
Qed.

Lemma double_free_throws_witness :
  exists st1 st2,
    Alloc 4097 101 (2 ^ 3) example_state = Returned (example_base + 24) st1 /\
    Free 4097 (example_base + 24) st1 = Returned tt st2 /\
    Free 4097 (example_base + 24) st2
      = Thrown (runtime_error "invalid mem block magic number") st2.
Proof.
  destruct example_one_block as (st1 & EA & I1 & (Hm & _) & Hrs & _).
  destruct (double_free_throws 4097 (example_base + 24) st1
              [UsedB example_base 126 (example_base + 24);
               FreeB (example_base + 126) 3954] example_base 126 I1)
    as (st2 & EF & EF2).
  - right. cbn. unfold sizeof_MemBlock. split; [|exact I]. left. lia.
  - now left.
  - lia.
  - exact Hm.
  - cbn. lia.
  - rewrite Hrs. unfold kMemMagicNum. lia.
  - exists st1, st2. auto.
Defined.

Lemma Alloc_returns_fresh_memory_witness :
  exists st1 p st2,
    Alloc 4097 101 (2 ^ 3) example_state = Returned (example_base + 24) st1 /\
    Alloc 4097 50 (2 ^ 4) st1 = Returned p st2 /\
    (p + 50 < example_base \/ example_base + 126 <= p - 17) /\
    forall x, example_base + 24 <= x < example_base + 126 ->
              heap st2 x = heap st1 x.
Proof.
  destruct example_one_block as (st1 & EA & I1 & _).
  destruct (Alloc_step 4097 50 4 st1 _ (example_base + 126) 3954 I1)
    as (p & st2 & EA2 & Hp & _); try lia.
  - cbn. lia.
  - reflexivity.
  - destruct (Alloc_returns_fresh_memory 4097 50 4 st1 _ p st2 I1)
      as (_ & _ & Hdis & Hframe); try lia.
    + cbn. lia.
    + exact EA2.
    + unfold example_base in Hp. lia.
    + exists st1, p, st2. split; [exact EA|]. split; [exact EA2|].
      split; [apply (Hdis example_base 126 (example_base + 24)); now left|].
      apply (Hframe example_base 126 (example_base + 24)). now left.
Defined.


(** * Allocating, then freeing everything *)

Section RoundTrip.

Lemma only_last_free_short L : only_last_free L -> short_only_last L.
Proof.
  induction L as [|[a s|a s p] L IH]; cbn [only_last_free short_only_last].
  - trivial.
  - intros ->. split; [now right|exact I].
  - exact IH.
Qed.

Lemma only_last_free_alloc req p L :
  only_last_free L -> only_last_free (alloc_layout req p L).
Proof.
  induction L as [|[a s|a s q] L IH]; cbn [only_last_free alloc_layout].
  - trivial.
  - intros ->. destruct (s >=? req); [|reflexivity].
    cbn [only_last_free]. destruct (req <? s); reflexivity.
  - exact IH.
Qed.

Lemma live_app L1 L2 : live (L1 ++ L2) = live L1 ++ live L2.
Proof.
  induction L1 as [|[a s|a s p] L1 IH]; cbn [app live]; [reflexivity|exact IH|].
  now rewrite IH.
Qed.

Lemma live_alloc_layout req p L c cs :
  fitting_node req (frees L) = Some (c, cs) ->
  Permutation (live (alloc_layout req p L)) (p :: live L).
Proof.
  intros Hfit.
  destruct (fitting_node_split _ _ _ _ Hfit) as (l1 & l2 & El & Hall & Hle).
  destruct (frees_split _ _ _ _ _ El) as (L1 & L2 & -> & <- & <-).
  rewrite (alloc_layout_shape req p L1 c cs L2 Hall Hle), !live_app.
  cbn [live]. rewrite live_app.
  replace (live (if req <? cs then [FreeB (c + req) (cs - req)] else [])) with (@nil Z)
    by (destruct (req <? cs); reflexivity).
  cbn [app]. symmetry. apply Permutation_middle.
Qed.

Lemma live_fuse L : live (fuse L) = live L.
Proof.
  induction L as [|[a s|a s p] L IH]; cbn [fuse live]; [reflexivity| |now rewrite IH].
  rewrite <- IH. now destruct (fuse L) as [|[a' s'|a' s' p'] R].
Qed.

Lemma live_mark_free p L :
  In p (live L) -> Permutation (p :: live (mark_free p L)) (live L).
Proof.
  induction L as [|[a s|a s q] L IH]; cbn [live mark_free]; intros Hin.
  - contradiction.
  - now apply IH.
  - destruct (Z.eqb_spec q p) as [->|Hne]; cbn [live]; [reflexivity|].
    destruct Hin as [Hin|Hin]; [contradiction|].
    rewrite perm_swap. apply perm_skip. now apply IH.
Qed.

Lemma In_live L : forall p, In p (live L) <-> exists a s, In (UsedB a s p) L.
Proof.
  induction L as [|[a s|a s q] L IH]; intros p; cbn [live].
  - split; [contradiction|]. now intros (a & s & []).
  - rewrite IH. split; intros (a' & s' & H); exists a', s'.
    + now right.
    + destruct H as [H|H]; [discriminate|exact H].
  - split.
    + intros [->|H]; [exists a, s; now left|].
      apply IH in H. destruct H as (a' & s' & H). exists a', s'. now right.
    + intros (a' & s' & [[= -> -> ->]|H]); [now left|].
      right. apply IH. eauto.
Qed.

(** A layout without used blocks is one free block. *)
Lemma all_free_layout L a e :
  tiles L a e -> no_adjacent_free L -> live L = [] -> a < e ->
  L = [FreeB a (e - a)].
Proof.
  intros Ht Hn Hl Hlt. destruct L as [|[f sf|u su q] L]; cbn [tiles live] in *.
  - lia.
  - destruct Ht as (Hf & Hs & Ht). cbn [blk_addr blk_size] in *. subst f.
    destruct L as [|[f' sf'|u su q] L]; cbn [tiles live no_adjacent_free] in *.
    + f_equal. f_equal. lia.
    + contradiction.
    + discriminate.
  - discriminate.
Qed.

Variable fuel : nat.

Lemma alloc_all_Inv reqs : forall st L ps st1,
  Inv st L -> only_last_free L -> all_intact (heap st) L ->
  Forall (fun r => 0 <= snd r <= 8 /\ fst r + 2 ^ snd r + 17 < 2 ^ 64) reqs ->
  (Z.to_nat (region_size_ (this st)) <= fuel)%nat ->
  alloc_all fuel reqs st = Some (ps, st1) ->
  exists L1,
    Inv st1 L1 /\ only_last_free L1 /\ all_intact (heap st1) L1 /\
    Permutation (live L1) (ps ++ live L) /\
    region_size_ (this st1) = region_size_ (this st) /\
    mmap_start_ (this st1) = mmap_start_ (this st).
Proof.
  induction reqs as [|[size k] reqs IH]; intros st L ps st1 I Hol Hia Hreqs Hfuel Hrun;
    cbn [alloc_all] in Hrun.
  - injection Hrun as <- <-. exists L. cbn [app]. auto 10.
  - inversion Hreqs as [|r rs (Hk & Hov) Hrest]; subst. cbn [fst snd] in Hk, Hov.
    destruct (Alloc fuel size (2 ^ k) st) as [p st'| | |] eqn:EA; try discriminate.
    destruct (Z.eqb_spec p 0) as [|Hp]; [discriminate|].
    destruct (alloc_all fuel reqs st') as [[ps' st'']|] eqn:Er; [|discriminate].
    injection Hrun as <- <-.
    pose proof (Alloc_returned_size _ _ _ _ _ _ EA) as Hsz.
    pose proof (Inv_fuel _ _ _ I Hfuel) as Hf.
    set (req := req_space_of size (2 ^ k)) in *.
    destruct (fitting_node req (frees L)) as [[c cs]|] eqn:Efit.
    2:{ rewrite (Alloc_no_fit fuel size k st L I Hsz ltac:(lia) ltac:(lia) Efit) in EA.
        injection EA as <- _. contradiction. }
    destruct (Alloc_step fuel size k st L c cs I Hsz ltac:(lia) Hov ltac:(lia) Efit)
      as (p1 & st1' & E1 & Hpr & _ & Hint & _ & _ & HI & Hkeep).
    rewrite E1 in EA. injection EA as -> ->. fold req in Hint, HI, Hkeep.
    assert (Hal : 0 < 2 ^ k) by (apply Z.pow_pos_nonneg; lia).
    assert (Hreq : req = size + 2 ^ k + 17).
    { unfold req, req_space_of. rewrite wrap_small; unfold sizeof_MemBlock; lia. }
    destruct (alloc_layout_fit req p L c cs _ _ Efit ltac:(lia)
                (inv_tiles _ _ I) (inv_apart _ _ I))
      as (_ & _ & _ & Hold & _).
    pose proof (only_last_free_alloc req p L Hol) as Hol'.
    pose proof (only_last_free_short _ Hol') as Hsl'.
    destruct (Alloc_keeps_region _ _ _ _ _ _ E1) as (R1 & R2 & _).
    destruct (IH st' (alloc_layout req p L) ps' st'') as (L1 & I1 & Hol1 & Hia1 & Hp1 & R1' & R2').
    + apply HI. now right.
    + exact Hol'.
    + intros a s q Hin. destruct (Hold _ _ _ Hin) as [[= -> -> ->]|Hin'].
      * split; [exact Hint|].
        assert (2 ^ k <= 2 ^ 8) by (apply Z.pow_le_mono_r; lia).
        change (2 ^ 8) with 256 in *. lia.
      * destruct (Hia _ _ _ Hin') as (Hi & Hpad). split; [|exact Hpad].
        now apply (Hkeep Hsl' a s q Hin').
    + exact Hrest.
    + now rewrite R1.
    + exact Er.
    + exists L1. split; [exact I1|]. split; [exact Hol1|]. split; [exact Hia1|].
      split; [|split; congruence].
      rewrite Hp1. rewrite (live_alloc_layout req p L c cs Efit).
      cbn [app]. symmetry. apply Permutation_middle.
Qed.

Lemma free_all_Inv ps : forall st L,
  Inv st L -> short_only_last L -> all_intact (heap st) L ->
  Permutation (live L) ps ->
  (Z.to_nat (region_size_ (this st)) <= fuel)%nat ->
  exists st2 L2,
    free_all fuel ps st = Some st2 /\ Inv st2 L2 /\ live L2 = [] /\
    region_size_ (this st2) = region_size_ (this st) /\
    mmap_start_ (this st2) = mmap_start_ (this st).
Proof.
  induction ps as [|p ps IH]; intros st L I Hsl Hia Hperm Hfuel; cbn [free_all].
  - apply Permutation_sym, Permutation_nil in Hperm. exists st, L. auto.
  - assert (Hin : In p (live L)).
    { eapply Permutation_in; [apply Permutation_sym; exact Hperm|now left]. }
    pose proof Hin as Hin'. apply In_live in Hin'. destruct Hin' as (a & s & HU).
    destruct (Hia _ _ _ HU) as ((Hmag & _) & Hpad).
    pose proof (Inv_fuel _ _ _ I Hfuel) as Hf.
    destruct (Free_step fuel p st L a s I HU Hpad Hmag
                (fun f sf Hf' Ha => short_before_used L _ _ f sf a s p
                                      (inv_tiles _ _ I) Hsl Hf' HU Ha) Hf)
      as (st' & EF & R1 & R2 & HI & Hkeep).
    rewrite EF.
    destruct (free_layout_facts st L a s p I HU) as (_ & _ & _ & Hused & _ & Hsl').
    specialize (Hsl' Hsl).
    destruct (IH st' (free_layout p L)) as (st2 & L2 & E2 & I2 & Hl2 & R1' & R2').
    + apply HI. now right.
    + exact Hsl'.
    + intros a' s' q Hq. destruct (Hused _ _ _ Hq) as (Hq' & _).
      destruct (Hia _ _ _ Hq') as (Hi & Hpad'). split; [|exact Hpad'].
      now apply (Hkeep Hsl' a' s' q Hq).
    + apply (Permutation_cons_inv (a := p)). rewrite <- Hperm.
      unfold free_layout. rewrite live_fuse. now apply live_mark_free.
    + now rewrite R1.
    + exists st2, L2. split; [exact E2|]. split; [exact I2|]. split; [exact Hl2|].
      split; congruence.
Qed.

End RoundTrip.


Lemma driver_state_eq :
  Malloc_ctor 4097 4096 (Some example_base) 0 empty_mem
    = Returned (this driver_state) (heap driver_state) /\
  round_region_size 4097 4096 = 8192.
Proof.
  destruct (ctor_granted 4097 4096 example_base 0 empty_mem)
    as (m2 & m3 & _ & _ & E).
  - cbv. split; [discriminate|reflexivity].
  - reflexivity.
  - reflexivity.
  - cbv. discriminate.
  - unfold driver_state. rewrite E. split; reflexivity.
Qed.

Lemma driver_allocs :
  match alloc_all (2 * 4097) driver_requests driver_state with
  | Some _ => True
  | None => False
  end.
Proof. vm_compute. exact I. Qed.

(** Round trip.  On a freshly constructed allocator, any sequence of
    [Alloc] calls that all succeed, with alignments [2^k] of at most 256
    and [size + alignment + 17] representable, followed by [Free] of each
    returned pointer once, in any order: every [Free] returns, and at the
    end the free list is the single node it was after construction, at
    the start of the region and of [region_size - sizeof(MemBlock)]
    bytes. *)
Theorem allocs_then_frees_restore_the_free_list
    (fuel : nat) (N P base errno : Z) (m : mem) (obj : Malloc) (m' : mem)
    (reqs : list (Z * Z)) (ps ps' : list Z) (st1 : state)
    (Hbytes : byte_ok m) (Huser : user_mem m) (HN : 0 < N)
    (Hsize : 16 < round_region_size N P)
    (Hctor : Malloc_ctor N P (Some base) errno m = Returned obj m')
    (Hfuel : (Z.to_nat (round_region_size N P) <= fuel)%nat)
    (Hreqs : Forall (fun r => 0 <= snd r <= 8 /\
                              fst r + 2 ^ snd r + 17 < 2 ^ 64) reqs)
    (Hallocs : alloc_all fuel reqs (mkState obj m') = Some (ps, st1))
    (Horder : Permutation ps ps') :
  exists st2,
    free_all fuel ps' st1 = Some st2 /\
    this st2 = obj /\
    flist (heap st2) (head_ (this st2))
      [(base, round_region_size N P - sizeof_MemBlock)].
Proof.
  destruct (ctor_Inv N P base errno m obj m' Hbytes Huser ltac:(lia) Hsize Hctor)
    as (I0 & Eobj).
  set (r := round_region_size N P) in *.
  assert (R1 : region_size_ obj = r) by now rewrite Eobj.
  assert (R2 : mmap_start_ obj = base) by now rewrite Eobj.
  destruct (alloc_all_Inv fuel reqs _ _ ps st1 I0) as (L1 & I1 & Hol & Hia & Hp & R1' & R2').
  - reflexivity.
  - intros a s p [H|[]]. discriminate.
  - exact Hreqs.
  - cbn [this]. now rewrite R1.
  - exact Hallocs.
  - cbn [live this] in *. rewrite app_nil_r in Hp.
    destruct (free_all_Inv fuel ps' st1 L1 I1 (only_last_free_short _ Hol) Hia)
      as (st2 & L2 & E2 & I2 & Hl2 & R1'' & R2'').
    + now rewrite Hp.
    + now rewrite R1', R1.
    + exists st2. split; [exact E2|].
      pose proof (inv_tiles _ _ I2) as Ht. pose proof (inv_flist _ _ I2) as Hfl.
      rewrite R1'', R2'', R1', R2', R1, R2 in Ht.
      rewrite (all_free_layout _ _ _ Ht (inv_apart _ _ I2) Hl2) in Hfl
        by (unfold sizeof_MemBlock; lia).
      cbn [frees] in Hfl.
      replace (base + r - sizeof_MemBlock - base) with (r - sizeof_MemBlock) in Hfl
        by lia.
      split; [|exact Hfl].
      pose proof Hfl as (Eh & _). cbn in Eh.
      destruct (this st2) as [rs ms hd]. cbn [region_size_ mmap_start_ head_] in *.
      rewrite Eobj. congruence.
Qed.

Lemma allocs_then_frees_restore_the_free_list_witness :
  exists ps st1 st2,
    alloc_all (2 * 4097) driver_requests driver_state = Some (ps, st1) /\
    free_all (2 * 4097) (rev ps) st1 = Some st2 /\
    flist (heap st2) (head_ (this st2)) [(example_base, 8176)].
Proof.
  pose proof driver_allocs as Ha.
  destruct (alloc_all (2 * 4097) driver_requests driver_state) as [[ps st1]|] eqn:E;
    [|contradiction].
  destruct driver_state_eq as (Ec & Er).
  destruct (allocs_then_frees_restore_the_free_list (2 * 4097) 4097 4096 example_base 0
              empty_mem (this driver_state) (heap driver_state)
              driver_requests ps (rev ps) st1)
    as (st2 & E2 & _ & Hl).
  - intros a b H. discriminate.
  - intros a H. now elim H.
  - lia.
  - rewrite Er. lia.
  - exact Ec.
  - rewrite Er. vm_compute. lia.
  - unfold driver_requests. cbn [repeat].
    repeat (constructor; [cbn [fst snd]; lia|]). constructor.
  - destruct driver_state. exact E.
  - apply Permutation_rev.
  - rewrite Er in Hl. exists ps, st1, st2. auto.
Defined.


(** * The two revisions of [MergeFreeBlocks] *)

Section Revisions.

Lemma set_prev_next_head m d prev v m' d' :
  set_prev_next m d prev v = Some (m', d') ->
  v <> 0 -> (prev <> None -> d <> 0) -> d' <> 0.
Proof.
  unfold set_prev_next. destruct prev as [q|].
  - destruct (store64 _ _ _); [|discriminate]. intros [= <- <-] _ H.
    apply H. discriminate.
  - intros [= <- <-] H _. exact H.
Qed.

Lemma insert_loop_head fuel : forall m blk be d prev curr d' m',
  insert_loop fuel m blk be d prev curr = Returned d' m' ->
  blk <> 0 -> (prev = None -> d = curr) -> (prev <> None -> d <> 0) ->
  d' <> 0.
Proof.
  induction fuel as [|fuel IH]; intros m blk be d prev curr d' m' H Hblk Hn Hs;
    cbn [insert_loop] in H; [discriminate|].
  destruct (Z.eqb_spec curr 0) as [->|Hc].
  - destruct (set_prev_next m d prev blk) as [[m1 d1]|] eqn:E; [|discriminate].
    destruct (store64 m1 _ _); [|discriminate]. injection H as <- _.
    exact (set_prev_next_head _ _ _ _ _ _ E Hblk Hs).
  - destruct (be <=? curr).
    + destruct (store64 m _ _) as [m1|]; [|discriminate].
      destruct (set_prev_next m1 d prev blk) as [[m2 d2]|] eqn:E; [|discriminate].
      injection H as <- _. exact (set_prev_next_head _ _ _ _ _ _ E Hblk Hs).
    + destruct (load64 m _) as [nxt|]; [|discriminate].
      apply (IH _ _ _ _ _ _ _ _ H Hblk); [discriminate|].
      intros _. destruct prev as [q|].
      * apply Hs. discriminate.
      * now rewrite (Hn eq_refl).
Qed.

End Revisions.

(** The null check that malloc.hpp added to [MergeFreeBlocks] matters
    only for a direct call on an empty list.  With the null page
    unmapped, the earlier revision (part_000) reads through the null
    pointer there and crashes where the later one returns; but [Free]
    calls [MergeFreeBlocks] right after [InsertFreeMemBlock], when the
    list is not empty, so that [Free] of the two revisions has the same
    outcome on every state and for every pointer. *)
Theorem null_check_in_MergeFreeBlocks_matters_only_outside_Free
    (fuel : nat) (block : Z) (st : state)
    (Hnull : heap st 0 = None /\ heap st 8 = None) :
  Free_v0 fuel block st = Free fuel block st /\
  (head_ (this st) = 0 ->
   MergeFreeBlocks_v0 (S fuel) st = Segfault /\
   MergeFreeBlocks (S fuel) st = Returned tt st).
Proof.
  split.
  - unfold Free_v0, Free. destruct (block =? 0); [reflexivity|].
    destruct (load8 _ _) as [cnt|]; [|reflexivity].
    set (header := wrap (block - sizeof_MemBlockHeader - cnt - 1)).
    destruct (load32 _ _) as [magic|] eqn:Hm; [|reflexivity].
    destruct (negb _); [reflexivity|].
    destruct (load64 _ _) as [hsz|]; [|reflexivity].
    destruct (store64 (heap st) _ _) as [m1|]; [|reflexivity].
    destruct (store64 m1 _ _) as [m2|]; [|reflexivity].
    unfold obind.
    destruct (InsertFreeMemBlock fuel header (set_heap st m2))
      as [u st3| | |] eqn:Ei; try reflexivity.
    assert (Hh : header <> 0).
    { intros E. rewrite E in Hm. unfold padd, off_magic in Hm.
      change (wrap (0 + 0)) with 0 in Hm. unfold load32 in Hm.
      rewrite loadN_S, (proj1 Hnull) in Hm. discriminate. }
    assert (Hd : head_ (this st3) <> 0).
    { unfold InsertFreeMemBlock in Ei.
      destruct (load64 _ _); [|discriminate].
      destruct (insert_loop _ _ _ _ _ _ _) as [d m3| | |] eqn:El; try discriminate.
      injection Ei as _ <-. cbn [set_head this head_].
      apply (insert_loop_head _ _ _ _ _ _ _ _ _ El Hh); [reflexivity|].
      intros H. now elim H. }
    unfold MergeFreeBlocks_v0, MergeFreeBlocks.
    destruct (Z.eqb_spec (head_ (this st3)) 0); [contradiction|reflexivity].
  - intros Hempty. unfold MergeFreeBlocks_v0, MergeFreeBlocks. rewrite Hempty.
    split; [|reflexivity].
    cbn [merge_loop]. unfold padd, off_next. change (wrap (0 + 8)) with 8.
    unfold load64. rewrite loadN_S, (proj2 Hnull). reflexivity.
Qed.

Lemma null_check_in_MergeFreeBlocks_matters_only_outside_Free_witness :
  Free_v0 2 (example_base + 24) example_state
    = Free 2 (example_base + 24) example_state.
Proof.
  refine (proj1 (null_check_in_MergeFreeBlocks_matters_only_outside_Free
                   2 (example_base + 24) example_state _)).
  vm_compute. split; reflexivity.
Defined.


(** * [Alloc], then [Free] of the result *)

Section AllocFree.

Lemma coalesce_r_gapped l : gapped l -> coalesce_r l = l.
Proof.
  induction l as [|[a s] l IH]; [reflexivity|]. intros Hg.
  pose proof (gapped_tail _ _ Hg) as Hg'. cbn [coalesce_r]. rewrite (IH Hg').
  destruct l as [|[a' s'] l]; [reflexivity|].
  cbn [gapped] in Hg. destruct (Z.eqb_spec (a + s) a'); [lia|reflexivity].
Qed.

Lemma coalesce_insert_take req l : forall c cs,
  gapped l -> fitting_node req l = Some (c, cs) -> 0 < req ->
  coalesce (insert_block (c, req) (take_first_fit req l)) = l.
Proof.
  intros c cs Hg Hfit Hreq. rewrite coalesce_is_coalesce_r. revert c cs Hg Hfit.
  induction l as [|[a s] l IH]; intros c cs Hg Hfit; cbn [fitting_node] in Hfit;
    [discriminate|].
  pose proof (gapped_tail _ _ Hg) as Hg'. cbn [take_first_fit].
  destruct (Z.geb_spec s req) as [Hge|Hlt].
  - injection Hfit as <- <-. destruct (Z.ltb_spec req s) as [Hlt|Hle].
    + cbn [insert_block fst snd]. destruct (Z.leb_spec (a + req) (a + req)); [|lia].
      assert (Hr : coalesce_r ((a + req, s - req) :: l) = (a + req, s - req) :: l).
      { apply coalesce_r_gapped. cbn [gapped] in *. destruct Hg as (Hs & Hn & Hl).
        split; [lia|]. split; [|exact Hl].
        destruct l as [|[a' s'] l]; [exact I|lia]. }
      cbn [coalesce_r] in *. rewrite Hr.
      destruct (Z.eqb_spec (a + req) (a + req)); [|contradiction].
      f_equal. f_equal. lia.
    + assert (s = req) by lia. subst s.
      assert (Hi : insert_block (a, req) l = (a, req) :: l).
      { destruct l as [|[a' s'] l]; [reflexivity|]. cbn [insert_block fst snd].
        cbn [gapped] in Hg. destruct (Z.leb_spec (a + req) a'); [reflexivity|lia]. }
      rewrite Hi. now apply coalesce_r_gapped.
  - assert (Hin : In (c, cs) l).
    { destruct (fitting_node_split _ _ _ _ Hfit) as (l1 & l2 & -> & _).
      apply in_or_app. right. now left. }
    pose proof (gapped_later _ _ _ Hg _ _ Hin) as Hc.
    assert (Hs : 0 < s) by (cbn [gapped] in Hg; tauto).
    cbn [insert_block fst snd]. destruct (Z.leb_spec (c + req) a); [lia|].
    cbn [coalesce_r]. rewrite (IH c cs Hg' Hfit).
    destruct l as [|[a' s'] l]; [contradiction|].
    cbn [gapped] in Hg. destruct (Z.eqb_spec (a + s) a'); [lia|reflexivity].
Qed.

Lemma flist_head m h m' h' l : flist m h l -> flist m' h' l -> h = h'.
Proof.
  unfold flist. destruct l as [|[a s] l]; cbn [lseg].
  - congruence.
  - intros (-> & _) (-> & _). reflexivity.
Qed.

End AllocFree.

(** [Alloc] directly followed by [Free] of the pointer it returned.  On
    a well-formed allocator in a region that avoids the magic pattern,
    for an alignment of at most 256 and with a free node that fits: both
    calls return, and afterwards [head_] and the free list (the address
    and size of every node) are what they were before [Alloc], the same
    blocks are handed out, and the allocator is well-formed. *)
Theorem Alloc_then_Free_restores_the_free_list
    (fuel : nat) (size k : Z) (st : state) (L : list block) (c cs : Z)
    (Hinv : Inv st L)
    (Hplace : placement_ok (mmap_start_ (this st)) (region_size_ (this st)))
    (Hsize : 0 < size) (Hk : 0 <= k <= 8)
    (Hfits : size + 2 ^ k + 17 < 2 ^ 64)
    (Hfuel : (S (List.length (frees L)) < fuel)%nat)
    (Hnode : fitting_node (req_space_of size (2 ^ k)) (frees L) = Some (c, cs)) :
  exists p st1 st2 L2,
    Alloc fuel size (2 ^ k) st = Returned p st1 /\ p <> 0 /\
    Free fuel p st1 = Returned tt st2 /\
    Inv st2 L2 /\ frees L2 = frees L /\
    head_ (this st2) = head_ (this st) /\
    (forall a s q, In (UsedB a s q) L2 <-> In (UsedB a s q) L).
Proof.
  set (req := req_space_of size (2 ^ k)) in *.
  assert (Hal : 0 < 2 ^ k) by (apply Z.pow_pos_nonneg; lia).
  assert (Hreq : req = size + 2 ^ k + 17).
  { unfold req, req_space_of. rewrite wrap_small; unfold sizeof_MemBlock; lia. }
  destruct (Alloc_step fuel size k st L c cs Hinv Hsize ltac:(lia) Hfits ltac:(lia) Hnode)
    as (p & st1 & EA & Hp & _ & (Hmag & _) & _ & _ & HI & _).
  fold req in Hmag, HI.
  specialize (HI (or_introl Hplace)).
  destruct (alloc_layout_fit req p L c cs _ _ Hnode ltac:(lia)
              (inv_tiles _ _ Hinv) (inv_apart _ _ Hinv))
    as (Ht1 & _ & Hnew & Hold & Hkeep).
  set (L1 := alloc_layout req p L) in *.
  destruct (Alloc_keeps_region _ _ _ _ _ _ EA) as (R1 & R2 & _).
  assert (Hpl1 : placement_ok (mmap_start_ (this st1)) (region_size_ (this st1)))
    by now rewrite R1, R2.
  assert (Hpad : p - c - 17 <= 255).
  { assert (2 ^ k <= 2 ^ 8) by (apply Z.pow_le_mono_r; lia).
    change (2 ^ 8) with 256 in *. lia. }
  assert (Hf1' : (S (List.length (frees L1)) < fuel)%nat).
  { unfold L1 in *. rewrite frees_alloc_layout in *.
    assert (Hlen : forall l, (List.length (take_first_fit req l) <= List.length l)%nat).
    { induction l as [|[a s] l IHl]; cbn [take_first_fit List.length]; [lia|].
      destruct (s >=? req); [destruct (req <? s)|]; cbn [List.length]; lia. }
    specialize (Hlen (frees L)). lia. }
  destruct (Free_step fuel p st1 L1 c req HI Hnew Hpad Hmag
              (placed_long st1 L1 c req p Hpl1 HI Hnew Hmag) Hf1')
    as (st2 & EF & _ & _ & HI2 & _).
  specialize (HI2 (or_introl Hpl1)).
  destruct (free_layout_facts st1 L1 c req p HI Hnew) as (_ & _ & Hfr & Hused & _).
  assert (Hfrees : frees (free_layout p L1) = frees L).
  { rewrite Hfr. unfold L1. rewrite frees_alloc_layout.
    apply (coalesce_insert_take req (frees L) c cs (Inv_gapped _ _ Hinv) Hnode). lia. }
  exists p, st1, st2, (free_layout p L1).
  split; [exact EA|]. split; [pose proof (inv_base _ _ Hinv);
    pose proof (tiles_In _ _ _ _ Ht1 Hnew) as Hr; cbn [blk_addr] in Hr; lia|].
  split; [exact EF|]. split; [exact HI2|]. split; [exact Hfrees|]. split.
  - pose proof (inv_flist _ _ HI2) as F2. rewrite Hfrees in F2.
    exact (flist_head _ _ _ _ _ F2 (inv_flist _ _ Hinv)).
  - intros a s q. split.
    + intros Hin. destruct (Hused _ _ _ Hin) as (Hin' & Hdis).
      destruct (Hold _ _ _ Hin') as [[= -> -> ->]|H]; [lia|exact H].
    + intros Hin. apply In_used_free_layout; [now apply Hkeep|].
      intros ->. pose proof (Hkeep _ _ _ Hin) as Hin'.
      pose proof (inv_used _ _ HI _ _ _ Hin') as (_ & Hq & _).
      destruct (tiles_disjoint _ _ _ _ _ Ht1 Hin' Hnew) as [E|Hd].
      * injection E as -> ->.
        assert (Hfree : In (FreeB c cs) L).
        { destruct (fitting_node_split _ _ _ _ Hnode) as (l1 & l2 & El & _).
          apply In_frees. rewrite El. apply in_or_app. right. now left. }
        pose proof (tiles_positive _ _ _ _ (inv_tiles _ _ Hinv) Hfree) as Hpos.
        destruct (tiles_disjoint _ _ _ _ _ (inv_tiles _ _ Hinv) Hin Hfree)
          as [E'|Hd]; [discriminate|].
        cbn [blk_addr blk_size] in *. lia.
      * cbn [blk_addr blk_size] in Hd. lia.
Qed.

Lemma Alloc_then_Free_restores_the_free_list_witness :
  exists p st1 st2,
    Alloc 3 100 (2 ^ 7) example_state = Returned p st1 /\ p <> 0 /\
    Free 3 p st1 = Returned tt st2 /\
    head_ (this st2) = head_ (this example_state) /\
    flist (heap st2) (head_ (this st2)) [(example_base, 4080)].
Proof.
  destruct example_state_eq as (m & _ & Es).
  destruct (Alloc_then_Free_restores_the_free_list 3 100 7 example_state
              [FreeB example_base 4080] example_base 4080 example_Inv)
    as (p & st1 & st2 & L2 & EA & Hp & EF & I2 & Hfr & Hh & _).
  - rewrite Es. exact example_placement.
  - lia.
  - lia.
  - lia.
  - cbn. lia.
  - reflexivity.
  - exists p, st1, st2. split; [exact EA|]. split; [exact Hp|]. split; [exact EF|].
    split; [exact Hh|]. pose proof (inv_flist _ _ I2) as F. now rewrite Hfr in F.
Defined.


(** * What a fresh allocator can serve *)

(** The first [Alloc] on a freshly constructed allocator, for a positive
    size and a power-of-two alignment with [size + alignment + 17]
    representable: it returns, and the result is non-null exactly when
    [size + alignment + 17 <= region_size - 16]; a null result leaves the
    allocator as constructed.  So the largest request a fresh allocator
    serves is [region_size - 33 - alignment] bytes, and a request for
    the whole region is refused. *)
Theorem fresh_allocator_capacity
    (fuel : nat) (N P base errno : Z) (m : mem) (obj : Malloc) (m' : mem)
    (size k : Z)
    (Hbytes : byte_ok m) (Huser : user_mem m) (HN : 0 < N)
    (Hregion : 16 < round_region_size N P)
    (Hctor : Malloc_ctor N P (Some base) errno m = Returned obj m')
    (Hsize : 0 < size) (Hk : 0 <= k < 64) (Hfits : size + 2 ^ k + 17 < 2 ^ 64)
    (Hfuel : (1 < fuel)%nat) :
  exists p st',
    Alloc fuel size (2 ^ k) (mkState obj m') = Returned p st' /\
    (p <> 0 <-> size + 2 ^ k + 17 <= round_region_size N P - 16) /\
    (p = 0 -> st' = mkState obj m') /\
    (p <> 0 -> base + 17 <= p < base + 17 + 2 ^ k).
Proof.
  destruct (ctor_Inv N P base errno m obj m' Hbytes Huser ltac:(lia) Hregion Hctor)
    as (I0 & _).
  set (r := round_region_size N P) in *.
  set (req := req_space_of size (2 ^ k)).
  assert (Hal : 0 < 2 ^ k) by (apply Z.pow_pos_nonneg; lia).
  assert (Hreq : req = size + 2 ^ k + 17).
  { unfold req, req_space_of. rewrite wrap_small; unfold sizeof_MemBlock; lia. }
  unfold sizeof_MemBlock in I0.
  destruct (Z.geb_spec (r - 16) req) as [Hge|Hlt].
  - destruct (Alloc_step fuel size k _ _ base (r - 16) I0 Hsize Hk Hfits)
      as (p & st' & EA & Hp & _).
    + cbn. lia.
    + cbn [frees fitting_node]. fold req.
      destruct (Z.geb_spec (r - 16) req); [reflexivity|lia].
    + pose proof (inv_base _ _ I0) as Hb. cbn [this mmap_start_] in Hb.
      assert (Hb' : 0 < base).
      { pose proof (inv_tiles _ _ I0) as Ht. cbn [tiles blk_addr this] in Ht.
        destruct Ht as (Eb & _). now rewrite Eb. }
      exists p, st'. split; [exact EA|]. split; [split; [lia|intros _; lia]|].
      split; [intros ->; lia|intros _; exact Hp].
  - exists 0, (mkState obj m'). split.
    + apply (Alloc_no_fit fuel size k _ _ I0 Hsize Hk).
      * cbn. lia.
      * cbn [frees fitting_node]. fold req.
        destruct (Z.geb_spec (r - 16) req); [lia|reflexivity].
    + split; [split; [intros H; now elim H|lia]|]. split; [reflexivity|].
      intros H. now elim H.
Qed.

Lemma fresh_allocator_capacity_witness :
  exists st',
    Alloc 2 4096 (2 ^ 3) example_state = Returned 0 st' /\ st' = example_state.
Proof.
  destruct example_state_eq as (m & Ec & Es).
  destruct (fresh_allocator_capacity 2 4096 4096 example_base 0 empty_mem
              (mkMalloc 4096 example_base example_base) m 4096 3)
    as (p & st' & EA & Hiff & Hnull & _).
  - intros a b H. discriminate.
  - intros a H. now elim H.
  - lia.
  - reflexivity.
  - exact Ec.
  - lia.
  - lia.
  - lia.
  - lia.
  - assert (Hp : p = 0).
    { destruct (Z.eq_dec p 0) as [|Hne]; [assumption|].
      apply Hiff in Hne. change (round_region_size 4096 4096) with 4096 in Hne. lia. }
    subst p. rewrite Es. exists st'. split; [exact EA|now apply Hnull].
Defined.


(** * A short residual in front of a live block *)

(** When [Alloc] splits a free node and leaves fewer than
    [sizeof(MemBlock)] bytes in front of a block that is still handed
    out, the record of the residual node is written over that block's
    header: the magic number is gone, and [Free] of that block's pointer
    throws from then on, so the block can no longer be given back.
    (Region placed so that no address in it spells the magic number.) *)
Theorem short_residual_makes_next_block_unfreeable
    (fuel : nat) (size k : Z) (st : state) (L : list block) (c cs s q : Z)
    (Hinv : Inv st L)
    (Hplace : placement_ok (mmap_start_ (this st)) (region_size_ (this st)))
    (Hsize : 0 < size) (Hk : 0 <= k < 64) (Hfits : size + 2 ^ k + 17 < 2 ^ 64)
    (Hfuel : (List.length (frees L) < fuel)%nat)
    (Hnode : fitting_node (req_space_of size (2 ^ k)) (frees L) = Some (c, cs))
    (Hshort : size + 2 ^ k + 17 < cs < size + 2 ^ k + 17 + 16)
    (Hnext : In (UsedB (c + cs) s q) L)
    (Hpad : q - (c + cs) - 17 <= 255) :
  exists p st',
    Alloc fuel size (2 ^ k) st = Returned p st' /\ p <> 0 /\
    load32 (heap st') (c + cs) <> Some kMemMagicNum /\
    Free fuel q st' = Thrown (runtime_error "invalid mem block magic number") st'.
Proof.
  set (req := req_space_of size (2 ^ k)) in *.
  assert (Hal : 0 < 2 ^ k) by (apply Z.pow_pos_nonneg; lia).
  assert (Hreq : req = size + 2 ^ k + 17).
  { unfold req, req_space_of. rewrite wrap_small; unfold sizeof_MemBlock; lia. }
  destruct (Alloc_step fuel size k st L c cs Hinv Hsize Hk Hfits Hfuel Hnode)
    as (p & st' & EA & Hp & _ & _ & _ & _ & HI & _).
  fold req in HI. specialize (HI (or_introl Hplace)).
  destruct (alloc_layout_fit req p L c cs _ _ Hnode ltac:(lia)
              (inv_tiles _ _ Hinv) (inv_apart _ _ Hinv))
    as (Ht' & _ & Hnew & _ & Hkeep).
  destruct (Alloc_keeps_region _ _ _ _ _ _ EA) as (R1 & R2 & _).
  assert (Hpl' : placement_ok (mmap_start_ (this st')) (region_size_ (this st')))
    by now rewrite R1, R2.
  (* the residual node *)
  assert (Hres : In (FreeB (c + req) (cs - req)) (alloc_layout req p L)).
  { destruct (fitting_node_split _ _ _ _ Hnode) as (l1 & l2 & El & Hall & Hle).
    destruct (frees_split _ _ _ _ _ El) as (L1 & L2 & -> & <- & <-).
    rewrite (alloc_layout_shape req p L1 c cs L2 Hall Hle).
    destruct (Z.ltb_spec req cs); [|lia].
    apply in_or_app. right. right. now left. }
  pose proof (Hkeep _ _ _ Hnext) as Hnext'.
  assert (Hmag : load32 (heap st') (c + cs) <> Some kMemMagicNum).
  { intros Hm.
    pose proof (placed_long st' _ (c + cs) s q Hpl' HI Hnext' Hm
                  (c + req) (cs - req) Hres ltac:(lia)). lia. }
  exists p, st'. split; [exact EA|]. split.
  - pose proof (inv_base _ _ Hinv).
    pose proof (tiles_In _ _ _ _ Ht' Hnew) as Hr. cbn [blk_addr] in Hr. lia.
  - split; [exact Hmag|].
    exact (Free_damaged fuel q st' _ (c + cs) s HI Hnext' Hpad Hmag).
Qed.


(** The example allocator after [a = Alloc(101); b = Alloc(101); Free(a)]:
    a hole of 126 bytes in front of the block of [b]. *)
Lemma example_hole :
  exists st1 st2 st3,
    Alloc 4097 101 (2 ^ 3) example_state = Returned (example_base + 24) st1 /\
    Alloc 4097 101 (2 ^ 3) st1 = Returned (example_base + 144) st2 /\
    Free 4097 (example_base + 24) st2 = Returned tt st3 /\
    Inv st3 [FreeB example_base 126;
             UsedB (example_base + 126) 126 (example_base + 144);
             FreeB (example_base + 252) 3828] /\
    region_size_ (this st3) = 4096 /\ mmap_start_ (this st3) = example_base.
Proof.
  destruct example_one_block as (st1 & EA & I1 & Hint1 & Hrs1 & Hms1).
  set (L1 := [UsedB example_base 126 (example_base + 24);
              FreeB (example_base + 126) 3954]) in *.
  set (L2 := [UsedB example_base 126 (example_base + 24);
              UsedB (example_base + 126) 126 (example_base + 144);
              FreeB (example_base + 252) 3828]).
  set (L3 := [FreeB example_base 126;
              UsedB (example_base + 126) 126 (example_base + 144);
              FreeB (example_base + 252) 3828]).
  destruct (Alloc_step 4097 101 3 st1 L1 (example_base + 126) 3954 I1)
    as (p2 & st2 & EA2 & Hp2 & Hmod & _ & _ & _ & HI2 & Hkeep2); try lia.
  { cbn. lia. }
  { reflexivity. }
  assert (Ep : p2 = example_base + 144).
  { change (2 ^ 3) with 8 in *. pose proof (Z.div_mod p2 8 ltac:(lia)) as Hd.
    rewrite Hmod in Hd. unfold example_base in *. lia. }
  subst p2.
  assert (E2 : alloc_layout (req_space_of 101 (2 ^ 3)) (example_base + 144) L1 = L2)
    by (vm_compute; reflexivity).
  rewrite E2 in HI2, Hkeep2.
  assert (Hsl2 : short_only_last L2).
  { cbn. unfold sizeof_MemBlock. split; [|exact I]. left. lia. }
  specialize (HI2 (or_intror Hsl2)).
  pose proof (Hkeep2 Hsl2 example_base 126 (example_base + 24)
                (or_introl eq_refl) Hint1) as (Hm2 & _).
  destruct (Alloc_keeps_region _ _ _ _ _ _ EA2) as (Ra & Rb & _).
  destruct (Free_step 4097 (example_base + 24) st2 L2 example_base 126 HI2)
    as (st3 & EF & Rc & Rd & HI3 & _).
  { now left. }
  { lia. }
  { exact Hm2. }
  { intros f sf [Hf|[Hf|[Hf|[]]]]; try discriminate Hf.
    injection Hf as <- <-. intros. lia. }
  { cbn. lia. }
  assert (E3 : free_layout (example_base + 24) L2 = L3) by (vm_compute; reflexivity).
  rewrite E3 in HI3.
  exists st1, st2, st3. split; [exact EA|]. split; [exact EA2|]. split; [exact EF|].
  split; [|split; congruence].
  apply HI3. right. cbn. unfold sizeof_MemBlock. repeat split; left; lia.
Qed.

Lemma short_residual_makes_next_block_unfreeable_witness :
  exists st1 st2 st3 p st4,
    Alloc 4097 101 (2 ^ 3) example_state = Returned (example_base + 24) st1 /\
    Alloc 4097 101 (2 ^ 3) st1 = Returned (example_base + 144) st2 /\
    Free 4097 (example_base + 24) st2 = Returned tt st3 /\
    Alloc 4097 95 (2 ^ 3) st3 = Returned p st4 /\ p <> 0 /\
    Free 4097 (example_base + 144) st4
      = Thrown (runtime_error "invalid mem block magic number") st4.
Proof.
  destruct example_hole as (st1 & st2 & st3 & E1 & E2 & E3 & I3 & Hrs & Hms).
  destruct (short_residual_makes_next_block_unfreeable 4097 95 3 st3 _
              example_base 126 126 (example_base + 144) I3)
    as (p & st4 & EA & Hp & _ & EF).
  - rewrite Hrs, Hms. exact example_placement.
  - lia.
  - lia.
  - lia.
  - cbn. lia.
  - reflexivity.
  - lia.
  - right. now left.
  - lia.
  - exists st1, st2, st3, p, st4. auto 10.
Defined.


(** * Writes stay inside the region *)

Section RegionFrame.

Lemma free_record_in_region st L f sf x :
  Inv st L -> In (FreeB f sf) L -> within f 16 x ->
  mmap_start_ (this st) <= x < mmap_start_ (this st) + region_size_ (this st).
Proof.
  intros I Hf Hw.
  pose proof (tiles_In _ _ _ _ (inv_tiles _ _ I) Hf) as Hr.
  pose proof (tiles_positive _ _ _ _ (inv_tiles _ _ I) Hf) as Hp.
  cbn [blk_addr blk_size] in Hr, Hp. unfold sizeof_MemBlock, within in *. lia.
Qed.

End RegionFrame.

(** [Alloc] and [Free] write only into the region the constructor
    mapped.  On a well-formed allocator, a returning [Alloc] (power-of-two
    alignment, [size + alignment + 17] representable) and a returning
    [Free] of a live pointer with its header in place leave every byte
    outside [[mmap_start_, mmap_start_ + region_size_)] as it was.  The
    record of a free node shorter than [sizeof(MemBlock)] at the end of
    the managed part reaches into the last sixteen bytes of the region,
    which the constructor keeps out of the free list. *)
Theorem calls_write_only_inside_the_region
    (fuel : nat) (st : state) (L : list block)
    (Hinv : Inv st L) (Hfuel : (S (List.length (frees L)) < fuel)%nat) :
  (forall size k p st',
     0 <= k < 64 -> size + 2 ^ k + 17 < 2 ^ 64 ->
     Alloc fuel size (2 ^ k) st = Returned p st' ->
     forall x, ~ (mmap_start_ (this st) <= x
                  < mmap_start_ (this st) + region_size_ (this st)) ->
               heap st' x = heap st x) /\
  (forall p a s st',
     In (UsedB a s p) L -> p - a - 17 <= 255 -> short_safe st L ->
     load32 (heap st) a = Some kMemMagicNum ->
     Free fuel p st = Returned tt st' ->
     forall x, ~ (mmap_start_ (this st) <= x
                  < mmap_start_ (this st) + region_size_ (this st)) ->
               heap st' x = heap st x).
Proof.
  split.
  - intros size k p st' Hk Hov EA x Hx.
    pose proof (Alloc_returned_size _ _ _ _ _ _ EA) as Hsz.
    set (req := req_space_of size (2 ^ k)).
    assert (Hal : 0 < 2 ^ k) by (apply Z.pow_pos_nonneg; lia).
    assert (Hreq : req = size + 2 ^ k + 17).
    { unfold req, req_space_of. rewrite wrap_small; unfold sizeof_MemBlock; lia. }
    destruct (fitting_node req (frees L)) as [[c cs]|] eqn:Efit.
    2:{ rewrite (Alloc_no_fit fuel size k st L Hinv Hsz Hk ltac:(lia) Efit) in EA.
        now injection EA as _ <-. }
    destruct (Alloc_fit fuel size k st L c cs Hinv Hsz Hk Hov ltac:(lia) Efit)
      as (p1 & st1 & E1 & _ & _ & _ & _ & _ & _ & _ & C).
    rewrite E1 in EA. injection EA as _ <-. fold req in C.
    destruct (alloc_layout_fit req p1 L c cs _ _ Efit ltac:(lia)
                (inv_tiles _ _ Hinv) (inv_apart _ _ Hinv))
      as (Ht' & _ & Hnew & _).
    destruct C as (_ & _ & U). apply U.
    intros [Hw|(f & sf & Hf & Hw)]; apply Hx.
    + pose proof (tiles_In _ _ _ _ Ht' Hnew) as Hr. cbn [blk_addr blk_size] in Hr.
      unfold sizeof_MemBlock, within in *. lia.
    + pose proof (tiles_In _ _ _ _ Ht' Hf) as Hr.
      pose proof (tiles_positive _ _ _ _ Ht' Hf) as Hp.
      cbn [blk_addr blk_size] in Hr, Hp. unfold sizeof_MemBlock, within in *. lia.
  - intros p a s st' HU Hpad Hsafe Hmag EF x Hx.
    pose proof (safe_long st L a s p Hsafe Hinv HU Hmag) as Hlong.
    destruct (Free_list fuel p st L a s Hinv HU Hpad Hmag Hlong Hfuel)
      as (st1 & E1 & _ & _ & _ & C & _).
    rewrite E1 in EF. injection EF as <-.
    pose proof (tiles_In _ _ _ _ (inv_tiles _ _ Hinv) HU) as Hr.
    pose proof (inv_used _ _ Hinv _ _ _ HU) as (Hs & _).
    cbn [blk_addr blk_size] in Hr. unfold sizeof_MemBlock in Hr.
    destruct C as (_ & _ & U). apply U.
    intros [Hw|[(f & sf & Hf & _ & Hw)|(f & sf & Hf & Hw)]]; apply Hx.
    + unfold within in Hw. lia.
    + apply In_frees in Hf. exact (free_record_in_region st L f sf x Hinv Hf Hw).
    + apply coalesce_addrs in Hf. destruct Hf as (s0 & Hf).
      apply In_insert_block in Hf. destruct Hf as [[= -> _]|Hf].
      * unfold within in Hw. lia.
      * apply In_frees in Hf. exact (free_record_in_region st L f s0 x Hinv Hf Hw).
Qed.

Lemma calls_write_only_inside_the_region_witness :
  exists p st',
    Alloc 3 101 (2 ^ 3) example_state = Returned p st' /\
    forall x, ~ (example_base <= x < example_base + 4096) ->
              heap st' x = heap example_state x.
Proof.
  destruct (Alloc_step 3 101 3 example_state [FreeB example_base 4080]
              example_base 4080 example_Inv)
    as (p & st' & EA & _); try lia.
  - cbn. lia.
  - reflexivity.
  - exists p, st'. split; [exact EA|].
    destruct (calls_write_only_inside_the_region 3 example_state
                [FreeB example_base 4080] example_Inv) as (HA & _).
    + cbn. lia.
    + intros x Hx. apply (HA 101 3 p st'); try lia; [exact EA|].
      destruct example_state_eq as (m & _ & ->). exact Hx.
Defined.


(** * [IsPowerOfTwo] *)

(** [IsPowerOfTwo(n)], that is [n && !(n & (n - 1))] on [std::size_t],
    is true exactly for the 64 values [2^k] with [0 <= k < 64]; for
    zero, where [n - 1] wraps around to [2^64 - 1], it is false. *)
Theorem IsPowerOfTwo_accepts_exactly_the_powers_of_two
    (n : Z) (Hn : 0 <= n < 2 ^ 64) :
  (IsPowerOfTwo n = true <-> exists k, 0 <= k < 64 /\ n = 2 ^ k) /\
  IsPowerOfTwo 0 = false.
Proof.
  split; [|reflexivity].
  rewrite (IsPowerOfTwo_spec n Hn). unfold power_of_two. split.
  - intros (k & Hk & ->). exists k. split; [|reflexivity].
    split; [exact Hk|]. apply pow2_lt_64; [exact Hk|lia].
  - intros (k & Hk & ->). exists k. split; [lia|reflexivity].
Qed.

Lemma IsPowerOfTwo_accepts_exactly_the_powers_of_two_witness :
  IsPowerOfTwo 4096 = true <-> exists k, 0 <= k < 64 /\ 4096 = 2 ^ k.
Proof.
  refine (proj1 (IsPowerOfTwo_accepts_exactly_the_powers_of_two 4096 _)). lia.
Defined.
